(** * The dispatch engine of Apps_script.py

    A shallow embedding of the parts of [src/Apps_script.py] that make up
    the dispatch engine: the token bucket [AdvancedRateLimiter], the worker
    pool front end [HighPerformanceJobQueue], the batch thread
    [OptimizedEmailSenderThread], the campaign control slots of [MailerApp],
    the dynamic-tag pass and the spintax pass.

    Conventions.
    - Python [str] is modelled by [string] (a sequence of 8-bit characters);
      the character classes [\s], [\d] and [str.strip] are the ASCII ones.
    - Python [float] is modelled by the rationals [Q]: exact arithmetic,
      no rounding.
    - A Python object that is shared and mutated (a worker thread, its queue
      manager) lives in a store and is referred to by an identifier.
    - Random draws, clock readings and the completion of futures come from
      the environment; they are explicit arguments.
    - A worker thread advances in steps: the part of [run] before its loop,
      one poll of the queue manager, the handling of the results polled.
      The signals it emits wait in the event queue of the main thread until
      an event delivers them.
    - The keys of a job that only the transport functions read, and the
      transport functions themselves, are left out: a job counts as sent
      when an executor is given it. *)

From Stdlib Require Import Ascii QArith Qminmax Lqa.
From stdpp Require Import gmap strings list pretty.

Local Open Scope string_scope.
Local Open Scope list_scope.

(** ** Data model *)

(** The keys of a prepared e-mail job dictionary that the engine reads. *)
Record Job := mkJob {
  job_id : string;
  recipients_to_list : list string;
  subject : string;
  htmlBody : option string;
  plainBody : option string;
  status : string;
  all_custom_headers : list (string * string);
  jtype : string;                    (* key 'type' *)
  nickname : option string;
  rate_limiter : option string;      (* the attached limiter, by pool key *)
  log_identifier_details : option (string * string * string * string)
}.

(** The result dictionary of a transport function. *)
Record SendResult := mkSendResult {
  success : bool;
  message : string
}.

(** What [future.result()] does: return the transport's result or raise. *)
Inductive future_outcome :=
| Returned (r : option SendResult)
| Raised (err : string).

(** ** HighPerformanceJobQueue *)

Module JobQueue.

Definition Future := nat.

Record t := mk {
  job_queue : list Job;                   (* queue.Queue, head = oldest *)
  active_futures : list (Future * Job);   (* dict, insertion order *)
  completed_jobs_count : nat;
  total_jobs_submitted_to_q : nat;
  is_running : bool;
  max_workers : nat;                      (* size of the executor's pool *)
  executor_shutdown : bool;               (* executor.shutdown was called *)
  executor_submitted : list Job           (* work items accepted by the executor *)
}.

Definition init (max_workers : nat) : t :=
  mk [] [] 0 0 false max_workers false [].

Definition set_job_queue (l : list Job) (q : t) : t :=
  mk l (active_futures q) (completed_jobs_count q) (total_jobs_submitted_to_q q)
     (is_running q) (max_workers q) (executor_shutdown q) (executor_submitted q).

Definition set_active_futures (a : list (Future * Job)) (q : t) : t :=
  mk (job_queue q) a (completed_jobs_count q) (total_jobs_submitted_to_q q)
     (is_running q) (max_workers q) (executor_shutdown q) (executor_submitted q).

Definition set_is_running (b : bool) (q : t) : t :=
  mk (job_queue q) (active_futures q) (completed_jobs_count q)
     (total_jobs_submitted_to_q q) b (max_workers q) (executor_shutdown q)
     (executor_submitted q).

Definition incr_completed (q : t) : t :=
  mk (job_queue q) (active_futures q) (S (completed_jobs_count q))
     (total_jobs_submitted_to_q q) (is_running q) (max_workers q)
     (executor_shutdown q) (executor_submitted q).

(** [self.executor.submit(worker_function, job)]: a fresh future, or
    [None] for the [RuntimeError] of an executor that was shut down. *)
Definition executor_submit (job : Job) (q : t) : option (Future * t) :=
  if executor_shutdown q then None
  else Some (length (executor_submitted q),
             mk (job_queue q) (active_futures q) (completed_jobs_count q)
                (total_jobs_submitted_to_q q) (is_running q) (max_workers q)
                (executor_shutdown q) (executor_submitted q ++ [job])).

Definition add_job (job_data : Job) (q : t) : t :=
  mk (job_queue q ++ [job_data]) (active_futures q) (completed_jobs_count q)
     (S (total_jobs_submitted_to_q q)) (is_running q) (max_workers q)
     (executor_shutdown q) (executor_submitted q).

(** The body of the [for _ in range(...)] loop of [start_processing];
    the [break]s end the recursion. *)
Fixpoint start_loop (n : nat) (q : t) : t :=
  match n with
  | O => q
  | S n' =>
      match job_queue q with
      | job :: rest =>
          if is_running q then
            let q1 := set_job_queue rest q in
            match executor_submit job q1 with
            | Some (future, q2) =>
                start_loop n'
                  (set_active_futures (active_futures q2 ++ [(future, job)]) q2)
            | None => q1
            end
          else start_loop n' q
      | [] => start_loop n' q
      end
  end.

Definition start_processing (max_concurrent_tasks : nat) (q : t) : t :=
  let q := set_is_running true q in
  start_loop (Nat.min max_concurrent_tasks (length (job_queue q))) q.

(** [self.active_futures.pop(future, None)] *)
Fixpoint pop (f : Future) (a : list (Future * Job))
  : option (Job * list (Future * Job)) :=
  match a with
  | [] => None
  | (g, j) :: a' =>
      if Nat.eqb f g then Some (j, a')
      else match pop f a' with
           | Some (j', a'') => Some (j', (g, j) :: a'')
           | None => None
           end
  end.

Definition completed_result : Type := Job * option SendResult * option string.

Definition result_tuple (job : Job) (o : future_outcome) : completed_result :=
  match o with
  | Returned r => (job, r, None)
  | Raised e => (job, None, Some e)
  end.

(** The second loop of [get_completed_jobs], over [done_futures_list]. *)
Fixpoint drain (outcome : Future -> future_outcome) (fs : list Future)
    (q : t) (acc : list completed_result) : list completed_result * t :=
  match fs with
  | [] => (acc, q)
  | future :: fs' =>
      match pop future (active_futures q) with
      | None => drain outcome fs' q acc
      | Some (job, rest_active) =>
          let acc' := acc ++ [result_tuple job (outcome future)] in
          let q1 := incr_completed (set_active_futures rest_active q) in
          if is_running q1 then
            match job_queue q1 with
            | next_job :: rest =>
                let q2 := set_job_queue rest q1 in
                match executor_submit next_job q2 with
                | Some (new_future, q3) =>
                    drain outcome fs'
                      (set_active_futures
                         (active_futures q3 ++ [(new_future, next_job)]) q3)
                      acc'
                | None =>
                    (acc', set_job_queue (job_queue q2 ++ [next_job]) q2)
                end
            | [] => drain outcome fs' q1 acc'
            end
          else drain outcome fs' q1 acc'
      end
  end.

(** [done] is the answer of [future.done()] during this call. *)
Definition get_completed_jobs (done : Future -> bool)
    (outcome : Future -> future_outcome) (q : t)
  : list completed_result * t :=
  let done_futures_list :=
    List.filter done (List.map fst (active_futures q)) in
  drain outcome done_futures_list q [].

Definition get_progress (q : t) : nat * nat * nat :=
  if Nat.eqb (total_jobs_submitted_to_q q) 0 then (0, 0, 0)
  else (completed_jobs_count q, length (active_futures q),
        total_jobs_submitted_to_q q).

(** [stop]: the cancellation of pending futures changes no attribute of
    the manager; the executor refuses work from then on. *)
Definition stop (q : t) : t :=
  mk (job_queue q) (active_futures q) (completed_jobs_count q)
     (total_jobs_submitted_to_q q) false (max_workers q) true
     (executor_submitted q).

Definition is_finished (q : t) : bool :=
  match job_queue q with [] => true | _ => false end
  && Nat.eqb (length (active_futures q)) 0
  && Nat.leb (total_jobs_submitted_to_q q) (completed_jobs_count q).

(** The operations a client performs on a manager. [ClearRunning] is the
    assignment [is_running = False] made by the batch thread's [stop]. *)
Inductive op :=
| AddJob (job : Job)
| StartProcessing (max_concurrent_tasks : nat)
| GetCompletedJobs (done : Future -> bool) (outcome : Future -> future_outcome)
| Stop
| ClearRunning.

Definition apply (q : t) (o : op) : t :=
  match o with
  | AddJob j => add_job j q
  | StartProcessing m => start_processing m q
  | GetCompletedJobs d r => snd (get_completed_jobs d r q)
  | Stop => stop q
  | ClearRunning => set_is_running false q
  end.

Definition run (ops : list op) (q : t) : t := foldl apply q ops.

Definition is_start (o : op) : bool :=
  match o with StartProcessing _ => true | _ => false end.

(** Jobs the manager still has to account for, and the accounting
    invariant: they never outnumber the jobs handed in. *)
Definition weight (q : t) : nat :=
  completed_jobs_count q + length (active_futures q) + length (job_queue q).

Definition accounted (q : t) : Prop :=
  weight q <= total_jobs_submitted_to_q q.

End JobQueue.

(** ** AdvancedRateLimiter *)

Module RateLimiter.
Local Open Scope Q_scope.

Record t := mk {
  emails_per_second : Q;
  burst_size : Q;
  tokens : Q;
  last_update : Q
}.

(** [__init__]; [now] is the reading of [time.time()]. The token count
    starts from the argument [burst_size], not from the clamped value. *)
Definition init (emails_per_second burst_size now : Q) : t :=
  mk (Qmax emails_per_second (1 # 10)) (Qmax burst_size 1) burst_size now.

(** The body of [with self.lock:] in [acquire], entered at clock reading
    [now]: refill, then take a token if there is one. *)
Definition attempt (now : Q) (s : t) : bool * t :=
  let tokens_to_add := (now - last_update s) * emails_per_second s in
  let refilled := Qmin (burst_size s) (tokens s + tokens_to_add) in
  if Qle_bool 1 refilled
  then (true, mk (emails_per_second s) (burst_size s) (refilled - 1) now)
  else (false, mk (emails_per_second s) (burst_size s) refilled now).

(** The clock is the list of the readings [time.time()] will return, in
    order. The [while] loop of [acquire] reads it once for its condition
    and once inside the lock; [None] means the list ran out before the
    call returned. *)
Fixpoint acquire_loop (start_time timeout : Q) (clock : list Q) (s : t)
  : option (bool * t * list Q) :=
  match clock with
  | [] => None
  | c :: clock1 =>
      if Qle_bool timeout (c - start_time) then Some (false, s, clock1)
      else
        match clock1 with
        | [] => None
        | now :: clock2 =>
            let (ok, s') := attempt now s in
            if ok then Some (true, s', clock2)
            else acquire_loop start_time timeout clock2 s'
        end
  end.

Definition acquire (timeout : Q) (clock : list Q) (s : t)
  : option (bool * t * list Q) :=
  match clock with
  | [] => None
  | start_time :: clock1 => acquire_loop start_time timeout clock1 s
  end.

(** A sequence of [acquire] calls on one limiter, one per timeout. *)
Fixpoint acquire_all (timeouts : list Q) (clock : list Q) (s : t)
  : option (list bool * t * list Q) :=
  match timeouts with
  | [] => Some ([], s, clock)
  | timeout :: timeouts' =>
      match acquire timeout clock s with
      | None => None
      | Some (r, s1, clock1) =>
          match acquire_all timeouts' clock1 s1 with
          | None => None
          | Some (rs, s2, clock2) => Some (r :: rs, s2, clock2)
          end
      end
  end.

(** The attempts of any number of threads, serialised by the lock. *)
Fixpoint attempts (nows : list Q) (s : t) : list bool * t :=
  match nows with
  | [] => ([], s)
  | now :: nows' =>
      let (ok, s1) := attempt now s in
      let (oks, s2) := attempts nows' s1 in
      (ok :: oks, s2)
  end.

Definition successes (rs : list bool) : nat := length (List.filter id rs).

(** A clock that never runs backwards, read from [t] on. *)
Fixpoint nondecreasing_from (t : Q) (clock : list Q) : Prop :=
  match clock with
  | [] => True
  | c :: clock' => t <= c /\ nondecreasing_from c clock'
  end.

Definition Qnat (n : nat) : Q := inject_Z (Z.of_nat n).

(** The conservation invariant of a limiter with capacity [B] and rate [R]
    created at [t0], after [n] successes. *)
Definition conserved (t0 B R : Q) (n : nat) (s : t) : Prop :=
  burst_size s = B /\ emails_per_second s = R /\ 0 <= R /\
  Qnat n + tokens s <= B + R * (last_update s - t0) /\
  Qnat n <= B + R * (last_update s - t0).

End RateLimiter.

(** ** Strings *)

Module Text.

Definition ascii_eqb (a b : ascii) : bool := Ascii.eqb a b.

(** [c.isspace()] for an ASCII character. *)
Definition is_space (c : ascii) : bool :=
  let n := nat_of_ascii c in
  ((9 <=? n)%nat && (n <=? 13)%nat) || ((28 <=? n)%nat && (n <=? 32)%nat).

Definition is_digit (c : ascii) : bool :=
  let n := nat_of_ascii c in (48 <=? n)%nat && (n <=? 57)%nat.

Definition is_empty (s : string) : bool :=
  match s with EmptyString => true | _ => false end.

Fixpoint lstrip (s : string) : string :=
  match s with
  | EmptyString => EmptyString
  | String c s' => if is_space c then lstrip s' else s
  end.

Fixpoint rstrip (s : string) : string :=
  match s with
  | EmptyString => EmptyString
  | String c s' =>
      let r := rstrip s' in
      if is_space c && is_empty r then EmptyString else String c r
  end.

(** [s.strip()] *)
Definition strip (s : string) : string := rstrip (lstrip s).

(** [s[len(p):]] when [s.startswith(p)] *)
Fixpoint strip_prefix (p s : string) : option string :=
  match p with
  | EmptyString => Some s
  | String a p' =>
      match s with
      | EmptyString => None
      | String b s' => if ascii_eqb a b then strip_prefix p' s' else None
      end
  end.

Definition starts_with (p s : string) : bool :=
  match strip_prefix p s with Some _ => true | None => false end.

(** [c in s] for a character [c] *)
Fixpoint contains_char (c : ascii) (s : string) : bool :=
  match s with
  | EmptyString => false
  | String b s' => ascii_eqb c b || contains_char c s'
  end.

(** [p in s] for a string [p] *)
Fixpoint contains (p s : string) : bool :=
  starts_with p s ||
  match s with
  | EmptyString => false
  | String _ s' => contains p s'
  end.

(** [s.split(c)] for a one-character separator *)
Fixpoint split_on (c : ascii) (s : string) : list string :=
  match s with
  | EmptyString => [EmptyString]
  | String b s' =>
      if ascii_eqb c b then EmptyString :: split_on c s'
      else match split_on c s' with
           | [] => [String b EmptyString]
           | w :: ws => String b w :: ws
           end
  end.

(** [s.split(c, 1)]: the text before the first [c] and the text after it *)
Fixpoint split_once (c : ascii) (s : string) : option (string * string) :=
  match s with
  | EmptyString => None
  | String b s' =>
      if ascii_eqb c b then Some (EmptyString, s')
      else match split_once c s' with
           | Some (l, r) => Some (String b l, r)
           | None => None
           end
  end.

(** [s.replace(old, new, 1)] for a non-empty [old] *)
Fixpoint replace_first (old new s : string) : string :=
  match strip_prefix old s with
  | Some rest => new +:+ rest
  | None =>
      match s with
      | EmptyString => EmptyString
      | String c s' => String c (replace_first old new s')
      end
  end.

(** [''.join(l)] *)
Definition join (l : list string) : string := foldr String.append EmptyString l.

(** The first [n] characters, [s[:n]] *)
Fixpoint take_chars (n : nat) (s : string) : string :=
  match n, s with
  | S n', String c s' => String c (take_chars n' s')
  | _, _ => EmptyString
  end.

(** [int(s)] for a string of ASCII digits *)
Definition digit_value (c : ascii) : N := N.of_nat (nat_of_ascii c - 48).

Fixpoint int_of_digits_from (acc : N) (s : string) : N :=
  match s with
  | EmptyString => acc
  | String c s' => int_of_digits_from (10 * acc + digit_value c)%N s'
  end.

Definition int_of_digits (s : string) : N := int_of_digits_from 0 s.

Fixpoint all_chars (p : ascii -> bool) (s : string) : bool :=
  match s with
  | EmptyString => true
  | String c s' => p c && all_chars p s'
  end.

(** [s.lower()] on ASCII letters *)
Definition lower_char (c : ascii) : ascii :=
  let n := nat_of_ascii c in
  if (65 <=? n)%nat && (n <=? 90)%nat then ascii_of_nat (n + 32) else c.

Fixpoint lower (s : string) : string :=
  match s with
  | EmptyString => EmptyString
  | String c s' => String (lower_char c) (lower s')
  end.

(** [re.split] on the runs of the characters picked by [is_delim];
    [prev_delim] tells that the character before [s] was one of them. *)
Fixpoint split_runs (is_delim : ascii -> bool) (prev_delim : bool) (s : string)
  : list string :=
  match s with
  | EmptyString => [EmptyString]
  | String c s' =>
      if is_delim c then
        if prev_delim then split_runs is_delim true s'
        else EmptyString :: split_runs is_delim true s'
      else
        match split_runs is_delim false s' with
        | w :: ws => String c w :: ws
        | [] => [String c EmptyString]
        end
  end.

(** A Python [dict] with string keys, in insertion order. *)
Fixpoint dict_get (k : string) (d : list (string * string)) : option string :=
  match d with
  | [] => None
  | (k', v) :: d' => if String.eqb k k' then Some v else dict_get k d'
  end.

Fixpoint dict_set (k v : string) (d : list (string * string))
  : list (string * string) :=
  match d with
  | [] => [(k, v)]
  | (k', v') :: d' =>
      if String.eqb k k' then (k, v) :: d' else (k', v') :: dict_set k v d'
  end.

(** [s.replace(a, b)] for two characters *)
Fixpoint replace_char (a b : ascii) (s : string) : string :=
  match s with
  | EmptyString => EmptyString
  | String c s' =>
      String (if ascii_eqb a c then b else c) (replace_char a b s')
  end.

(** [d.pop(k, None)] *)
Fixpoint dict_pop (k : string) (d : list (string * string))
  : list (string * string) :=
  match d with
  | [] => []
  | (k', v') :: d' =>
      if String.eqb k k' then d' else (k', v') :: dict_pop k d'
  end.

(** [s.replace(p, "")], the scan bounded by the length of [s]. *)
Fixpoint remove_all_from (fuel : nat) (p s : string) : string :=
  match fuel with
  | O => s
  | S fuel' =>
      match s with
      | EmptyString => EmptyString
      | String c s' =>
          match strip_prefix p s with
          | Some rest => remove_all_from fuel' p rest
          | None => String c (remove_all_from fuel' p s')
          end
      end
  end.

Definition remove_all (p s : string) : string :=
  if is_empty p then s else remove_all_from (String.length s) p s.

End Text.

(** ** The environment of a resolution

    What the interpreter and the operating system supply: the draws of the
    [random] module, the identifiers [uuid.uuid4()] returns and the
    timestamps [datetime.now()] formats. Every request takes the answer at
    index [pos] and moves on. *)

Record World := mkWorld {
  pos : nat;
  rand : nat -> nat;
  uuid4 : nat -> string;
  strftime_now : nat -> string
}.

Definition advance (w : World) : World :=
  mkWorld (S (pos w)) (rand w) (uuid4 w) (strftime_now w).

(** [random.choice(seq)] on a non-empty sequence; both callers guard
    against the empty one. *)
Definition random_choice {A} (default : A) (seq : list A) (w : World)
  : A * World :=
  (nth (rand w (pos w) mod length seq) seq default, advance w).

Definition fresh_uuid (w : World) : string * World := (uuid4 w (pos w), advance w).

Definition now_string (w : World) : string * World :=
  (strftime_now w (pos w), advance w).

(** ** Spintax *)

Module Spintax.
Import Text.

(** The text up to the first closing brace, when no brace opens before it:
    the rest of a match of [\{([^{}]*?)\}] after its opening brace. *)
Fixpoint brace_body (s : string) : option (string * string) :=
  match s with
  | EmptyString => None
  | String c s' =>
      if ascii_eqb c "}"%char then Some (EmptyString, s')
      else if ascii_eqb c "{"%char then None
      else match brace_body s' with
           | Some (body, rest) => Some (String c body, rest)
           | None => None
           end
  end.

(** [spintax_pattern.search(text)]: the text before the leftmost match,
    its group 1 and the text after it. *)
Fixpoint search (s : string) : option (string * string * string) :=
  match s with
  | EmptyString => None
  | String c s' =>
      let later :=
        match search s' with
        | Some (before, body, rest) => Some (String c before, body, rest)
        | None => None
        end in
      if ascii_eqb c "{"%char then
        match brace_body s' with
        | Some (body, rest) => Some (EmptyString, body, rest)
        | None => later
        end
      else later
  end.

(** [match.group(0)] *)
Definition group0 (body : string) : string := "{" +:+ body +:+ "}".

(** One turn of the [for _ in range(10)] loop; [None] is the [break]. *)
Definition spintax_step (processed_text : string) (w : World)
  : option (string * World) :=
  match search processed_text with
  | None => None
  | Some (_, spintax_content_segment, _) =>
      if contains_char "|"%char spintax_content_segment then
        let options_list := List.map strip (split_on "|"%char spintax_content_segment) in
        let (chosen_option_str, w') := random_choice EmptyString options_list w in
        Some (replace_first (group0 spintax_content_segment) chosen_option_str
                processed_text, w')
      else
        Some (replace_first (group0 spintax_content_segment)
                (group0 spintax_content_segment) processed_text, w)
  end.

Fixpoint spintax_loop (n : nat) (processed_text : string) (w : World)
  : string * World :=
  match n with
  | O => (processed_text, w)
  | S n' =>
      match spintax_step processed_text w with
      | None => (processed_text, w)
      | Some (t, w') => spintax_loop n' t w'
      end
  end.

Definition process_spintax_in_text (text_with_spintax : string) (w : World)
  : string * World :=
  if is_empty text_with_spintax || negb (contains_char "{"%char text_with_spintax)
  then (text_with_spintax, w)
  else spintax_loop 10 text_with_spintax w.

End Spintax.

(** ** Dynamic tags *)

Module Tags.
Import Text.

Definition digits : string := "0123456789".
Definition ascii_lowercase : string := "abcdefghijklmnopqrstuvwxyz".
Definition ascii_uppercase : string := "ABCDEFGHIJKLMNOPQRSTUVWXYZ".
Definition ascii_letters : string := ascii_lowercase +:+ ascii_uppercase.
Definition symbols : string :=
  "!@#$%^&*()-_=+[]{};:'" +:+ String "034"%char ",.<>/?~`|".

Definition CHAR_SETS (key : string) : option string :=
  if String.eqb key "n" then Some digits
  else if String.eqb key "l" then Some ascii_lowercase
  else if String.eqb key "u" then Some ascii_uppercase
  else if String.eqb key "s" then Some symbols
  else if String.eqb key "a" then Some (ascii_letters +:+ digits)
  else if String.eqb key "lu" then Some ascii_letters
  else if String.eqb key "ln" then Some (ascii_lowercase +:+ digits)
  else if String.eqb key "un" then Some (ascii_uppercase +:+ digits)
  else None.

Definition alnum : string := ascii_letters +:+ digits.

(** [''.join(random.choice(chars) for _ in range(n))] *)
Fixpoint random_chars (n : nat) (chars : list ascii) (w : World)
  : string * World :=
  match n with
  | O => (EmptyString, w)
  | S n' =>
      let (c, w1) := random_choice "000"%char chars w in
      let (s, w2) := random_chars n' chars w1 in
      (String c s, w2)
  end.

Definition generate_random_string (length : nat) (char_set_key : string)
    (w : World) : string * World :=
  let chars_to_use :=
    match CHAR_SETS char_set_key with Some cs => cs | None => alnum end in
  let chars_to_use := if is_empty chars_to_use then alnum else chars_to_use in
  random_chars length (String.list_ascii_of_string chars_to_use) w.

(** One replacement made by the dynamic-tag pass: the matched text, what
    it was replaced by, and whether the value came out of the boundary-tag
    cache. The list of them is ghost state: no code reads it. *)
Record Occurrence := mkOccurrence {
  occ_tag : string;
  occ_value : string;
  occ_cached : bool
}.

Record ResolveState := mkResolveState {
  boundary_tag_cache : gmap string string;
  world : World;
  occurrences : list Occurrence
}.

Definition token_tag : string := "#{{[token]}}".

(** The text matched by [.*?] before the first [\]\}\}]; [.] matches no
    newline. *)
Fixpoint tag_body (s : string) : option (string * string) :=
  match strip_prefix "]}}" s with
  | Some rest => Some (EmptyString, rest)
  | None =>
      match s with
      | EmptyString => None
      | String c s' =>
          if ascii_eqb c "010"%char then None
          else match tag_body s' with
               | Some (body, rest) => Some (String c body, rest)
               | None => None
               end
      end
  end.

Definition tag_open : string := "{{[".
Definition tag_close : string := "]}}".

(** A match of [(#\{\{\[token\]\}\}|\{\{\[.*?\]\}\})] at the start of [s]:
    its [group(0)]. *)
Definition match_tag_at (s : string) : option string :=
  if starts_with token_tag s then Some token_tag
  else match strip_prefix tag_open s with
       | Some s' =>
           match tag_body s' with
           | Some (body, _) => Some (tag_open +:+ body +:+ tag_close)
           | None => None
           end
       | None => None
       end.

(** [re.match(r"\{\{\[(.*?)\]\}\}", full).group(1)] *)
Definition tag_content (full : string) : option string :=
  match strip_prefix tag_open full with
  | Some s' =>
      match tag_body s' with
      | Some (body, _) => Some body
      | None => None
      end
  | None => None
  end.

Definition is_nalus (c : ascii) : bool := contains_char c "nalus".

(** The rest of [^(rnd|bnd)([nalus]{1,2})_(\d+)$] after the character set. *)
Definition parse_length (kind cs rest : string) : option (string * string * N) :=
  match rest with
  | String c ds =>
      if ascii_eqb c "_"%char && negb (is_empty ds) && all_chars is_digit ds
      then Some (kind, cs, int_of_digits ds) else None
  | EmptyString => None
  end.

(** [re.match(r"^(rnd|bnd)([nalus]{1,2})_(\d+)$", key).groups()], the length
    already through [int]. The repetition is greedy; giving back its second
    character cannot help, as that character is not an underscore. *)
Definition parse_var_len (key : string) : option (string * string * N) :=
  match key with
  | String k1 (String k2 (String k3 rest)) =>
      let kind := String k1 (String k2 (String k3 EmptyString)) in
      if String.eqb kind "rnd" || String.eqb kind "bnd" then
        match rest with
        | String c1 rest1 =>
            if is_nalus c1 then
              match rest1 with
              | String c2 rest2 =>
                  if is_nalus c2
                  then parse_length kind (String c1 (String c2 EmptyString)) rest2
                  else parse_length kind (String c1 EmptyString) rest1
              | EmptyString => None
              end
            else None
        | EmptyString => None
        end
      else None
  | _ => None
  end.

Definition ctx_get (ctx : list (string * string)) (key default : string) : string :=
  match dict_get key ctx with Some v => v | None => default end.

Definition record_occurrence (full value : string) (cached : bool)
    (st : ResolveState) : ResolveState :=
  mkResolveState (boundary_tag_cache st) (world st)
    (occurrences st ++ [mkOccurrence full value cached]).

(** A value met for the first time in this cache is generated and stored;
    afterwards it is read back. *)
Definition boundary_value (full : string) (length : nat) (char_set_key : string)
    (st : ResolveState) : string * ResolveState :=
  match boundary_tag_cache st !! full with
  | Some v => (v, record_occurrence full v true st)
  | None =>
      let (v, w') := generate_random_string length char_set_key (world st) in
      (v, mkResolveState (<[full := v]> (boundary_tag_cache st)) w'
            (occurrences st ++ [mkOccurrence full v false]))
  end.

Definition fresh_value (full : string) (gen : World -> string * World)
    (st : ResolveState) : string * ResolveState :=
  let (v, w') := gen (world st) in
  (v, mkResolveState (boundary_tag_cache st) w'
        (occurrences st ++ [mkOccurrence full v false])).

Definition plain_value (full value : string) (st : ResolveState)
  : string * ResolveState :=
  (value, record_occurrence full value false st).

Definition ide_value (ctx : list (string * string)) (w : World) : string * World :=
  let (u, w') := fresh_uuid w in
  (ctx_get ctx "email_id" (take_chars 12 u), w').

Definition name_value (ctx : list (string * string)) : string :=
  let recipient_email_str := ctx_get ctx "current_recipient_email" EmptyString in
  match split_once "@"%char recipient_email_str with
  | Some (user, _) => user
  | None => EmptyString
  end.

Definition dynamic_tag_replacer_func
    (job_specific_context_dict : list (string * string))
    (full_matched_tag : string) (st : ResolveState) : string * ResolveState :=
  if String.eqb full_matched_tag token_tag then
    boundary_value full_matched_tag 12 "a" st
  else
    match tag_content full_matched_tag with
    | None => plain_value full_matched_tag full_matched_tag st
    | Some content =>
        let tag_content_key := strip content in
        let ctx := job_specific_context_dict in
        if String.eqb tag_content_key "ide" then
          fresh_value full_matched_tag (ide_value ctx) st
        else if String.eqb tag_content_key "date" then
          fresh_value full_matched_tag now_string st
        else if String.eqb tag_content_key "tag" then
          fresh_value full_matched_tag (generate_random_string 8 "a") st
        else if String.eqb tag_content_key "rnd" then
          fresh_value full_matched_tag (generate_random_string 18 "a") st
        else if String.eqb tag_content_key "fromname" then
          plain_value full_matched_tag
            (ctx_get ctx "current_from_name_for_job" EmptyString) st
        else if String.eqb tag_content_key "subject" then
          plain_value full_matched_tag
            (ctx_get ctx "current_subject_for_job" EmptyString) st
        else if String.eqb tag_content_key "to" then
          plain_value full_matched_tag
            (ctx_get ctx "current_recipient_email" EmptyString) st
        else if String.eqb tag_content_key "name" then
          plain_value full_matched_tag (name_value ctx) st
        else if String.eqb tag_content_key "smtp" then
          plain_value full_matched_tag
            (ctx_get ctx "smtp_username_for_tag" EmptyString) st
        else if String.eqb tag_content_key "smtp_name" then
          plain_value full_matched_tag
            (ctx_get ctx "smtp_server_nickname_for_tag" EmptyString) st
        else
          match parse_var_len tag_content_key with
          | Some (tag_kind_prefix, char_set_suffix, length_int) =>
              if (0 <? length_int)%N && (length_int <=? 1024)%N then
                if String.eqb tag_kind_prefix "bnd" then
                  boundary_value full_matched_tag (N.to_nat length_int)
                    char_set_suffix st
                else
                  fresh_value full_matched_tag
                    (generate_random_string (N.to_nat length_int) char_set_suffix)
                    st
              else plain_value full_matched_tag full_matched_tag st
          | None => plain_value full_matched_tag full_matched_tag st
          end
    end.

(** [dynamic_tag_pattern_regex.sub(dynamic_tag_replacer_func, text)]: the
    matches are found from left to right and do not overlap; [skip] counts
    the characters of the last match that are still to be passed over. *)
Fixpoint sub_tags (ctx : list (string * string)) (skip : nat) (s : string)
    (st : ResolveState) : string * ResolveState :=
  match s with
  | EmptyString => (EmptyString, st)
  | String c s' =>
      match skip with
      | S k => sub_tags ctx k s' st
      | O =>
          match match_tag_at s with
          | Some full =>
              let (v, st1) := dynamic_tag_replacer_func ctx full st in
              let (out, st2) := sub_tags ctx (String.length full - 1) s' st1 in
              (v +:+ out, st2)
          | None =>
              let (out, st1) := sub_tags ctx 0 s' st in
              (String c out, st1)
          end
      end
  end.

End Tags.

(** ** Preparing one e-mail job *)

Module Prepare.
Import Text Tags Spintax.

(** The dictionaries the account dialogs produce
    ([get_account_details], [get_server_details]). *)
Inductive SenderConfig :=
| AppsScriptAccount (nickname email web_app_url sender_display_name : string)
| SmtpServer (nickname host username from_address : string).

Definition config_nickname (c : SenderConfig) : string :=
  match c with
  | AppsScriptAccount n _ _ _ => n
  | SmtpServer n _ _ _ => n
  end.

(** The account type inferred from the keys of the configuration. *)
Definition account_type (c : SenderConfig) : string :=
  match c with
  | AppsScriptAccount _ _ _ _ => "appsscript"
  | SmtpServer _ _ _ _ => "genericsmtp"
  end.

(** Library code the preparation calls: the two placeholder passes (loops
    of [re.sub] over the row data and over the job context), the e-mail
    pattern's [fullmatch] and the HTML-to-text converter, which may raise
    ([None]). *)
Record Externals := mkExternals {
  resolve_data_placeholders : list (string * string) -> string -> string;
  resolve_context_placeholders : list (string * string) -> string -> string;
  email_regex_fullmatch : string -> bool;
  html_to_text : string -> option string
}.

(** The custom-header widgets. *)
Record HeadersUI := mkHeadersUI {
  enable_custom_headers : bool;
  custom_headers_text : string
}.

Section WithExternals.
Variable ext : Externals.

Definition is_recipient_delim (c : ascii) : bool :=
  ascii_eqb c ","%char || is_space c || ascii_eqb c ";"%char.

(** The loop of [_parse_recipients] over the candidate strings. *)
Fixpoint valid_emails (cands : list string) (seen_emails_lowercase : list string)
  : list string :=
  match cands with
  | [] => []
  | cand :: cands' =>
      let email_candidate_str := strip cand in
      if email_regex_fullmatch ext email_candidate_str then
        let email_lower := lower email_candidate_str in
        if existsb (String.eqb email_lower) seen_emails_lowercase
        then valid_emails cands' seen_emails_lowercase
        else email_candidate_str
               :: valid_emails cands' (email_lower :: seen_emails_lowercase)
      else valid_emails cands' seen_emails_lowercase
  end.

Definition _parse_recipients (recipients_string_input : string) : list string :=
  if is_empty recipients_string_input || is_empty (strip recipients_string_input)
  then []
  else valid_emails (split_runs is_recipient_delim false recipients_string_input) [].

Definition _resolve_all_placeholders_and_tags (text_template_input : option string)
    (data_list_row_dict job_specific_context_dict : list (string * string))
    (st : ResolveState) : string * ResolveState :=
  match text_template_input with
  | None => (EmptyString, st)
  | Some text =>
      let t1 := match data_list_row_dict with
                | [] => text
                | _ => resolve_data_placeholders ext data_list_row_dict text
                end in
      let t2 := match job_specific_context_dict with
                | [] => t1
                | _ => resolve_context_placeholders ext job_specific_context_dict t1
                end in
      sub_tags job_specific_context_dict 0 t2 st
  end.

Definition spintax_in_state (text : string) (st : ResolveState)
  : string * ResolveState :=
  let (t, w') := process_spintax_in_text text (world st) in
  (t, mkResolveState (boundary_tag_cache st) w' (occurrences st)).

(** One field of a job: placeholders and tags, then spintax. *)
Definition resolve_field (template : string) (row ctx : list (string * string))
    (st : ResolveState) : string * ResolveState :=
  let (t, st1) := _resolve_all_placeholders_and_tags (Some template) row ctx st in
  spintax_in_state t st1.

Definition truthy (o : option string) : bool :=
  match o with Some s => negb (is_empty s) | None => false end.

(** The loop over the lines of the custom-header text. *)
Fixpoint resolve_headers (lines : list string) (row ctx : list (string * string))
    (resolved_custom_headers_dict : list (string * string)) (st : ResolveState)
  : list (string * string) * ResolveState :=
  match lines with
  | [] => (resolved_custom_headers_dict, st)
  | line_template :: lines' =>
      match split_once ":"%char (strip line_template) with
      | Some (header_name_template_str, header_value_template_str) =>
          let header_name_final := strip header_name_template_str in
          let (v, st1) := resolve_field (strip header_value_template_str) row ctx st in
          resolve_headers lines' row ctx
            (dict_set header_name_final v resolved_custom_headers_dict) st1
      | None => resolve_headers lines' row ctx resolved_custom_headers_dict st
      end
  end.

Definition dict_get2 (k1 k2 : string) (d : list (string * string)) : option string :=
  match dict_get k1 d with Some v => Some v | None => dict_get k2 d end.

Definition job_type_of (send_method_type : string) (c : SenderConfig) : string :=
  if contains "Apps Script" send_method_type then "appsscript"
  else if contains "Generic SMTP" send_method_type then "genericsmtp"
  else account_type c.

(** [create_fully_prepared_email_job]. The result carries, besides the job
    and the environment left, the occurrences resolved for this job. The
    keys written for the transport only ([sender_display_name],
    [custom_headers_dict], [from_address]) are left out. *)
Definition create_fully_prepared_email_job
    (initial_to_emails_list : list string)
    (subject_template from_name_template : string)
    (body_html_template body_plain_template : option string)
    (row_data_dict : list (string * string))
    (send_method_type : string)
    (sender_account_config : option SenderConfig)
    (ui : HeadersUI) (w : World)
  : option Job * World * list Occurrence :=
  let (generated_job_id, w) := fresh_uuid w in
  match sender_account_config with
  | None => (None, w, [])
  | Some cfg =>
      let st := mkResolveState ∅ w [] in
      let current_primary_recipient_for_context :=
        match initial_to_emails_list with r :: _ => r | [] => EmptyString end in
      let ctx := [("email_id", generated_job_id);
                  ("current_recipient_email", current_primary_recipient_for_context)] in
      let ctx :=
        match cfg with
        | AppsScriptAccount nick email _ _ =>
            dict_set "smtp_server_nickname_for_tag" nick
              (dict_set "script_user_email" email ctx)
        | SmtpServer nick _ username _ =>
            dict_set "smtp_server_nickname_for_tag" nick
              (dict_set "smtp_username_for_tag" username ctx)
        end in
      let (s, st) := resolve_field subject_template row_data_dict ctx st in
      let final_resolved_subject := if is_empty s then "No Subject" else s in
      let ctx := dict_set "current_subject_for_job" final_resolved_subject ctx in
      let (final_resolved_from_name_display, st) :=
        resolve_field from_name_template row_data_dict ctx st in
      let ctx :=
        dict_set "current_from_name_for_job" final_resolved_from_name_display ctx in
      let (final_resolved_body_html, st) :=
        match body_html_template with
        | Some t =>
            if is_empty t then (None, st)
            else let (h, st') := resolve_field t row_data_dict ctx st in (Some h, st')
        | None => (None, st)
        end in
      let (final_resolved_body_plain, st) :=
        if truthy body_plain_template then
          match body_plain_template with
          | Some t =>
              let (p, st') := resolve_field t row_data_dict ctx st in (Some p, st')
          | None => (None, st)
          end
        else if truthy final_resolved_body_html then
          match final_resolved_body_html with
          | Some h =>
              (Some match html_to_text ext h with
                    | Some p => p
                    | None =>
                        "Please view this email in an HTML-compatible email client."
                    end, st)
          | None => (None, st)
          end
        else (None, st) in
      let base_recipients := initial_to_emails_list in
      let '(headers, subject', recipients, st) :=
        if enable_custom_headers ui then
          let custom_headers_template_text_ui := strip (custom_headers_text ui) in
          if is_empty custom_headers_template_text_ui
          then ([], final_resolved_subject, base_recipients, st)
          else
            let (resolved, st') :=
              resolve_headers (split_on "010"%char custom_headers_template_text_ui)
                row_data_dict ctx [] st in
            let subject' :=
              match dict_get2 "Subject" "subject" resolved with
              | Some custom_subject_from_headers => custom_subject_from_headers
              | None => final_resolved_subject
              end in
            let recipients :=
              match dict_get2 "To" "to" resolved with
              | Some custom_to_value_from_headers =>
                  match _parse_recipients custom_to_value_from_headers with
                  | [] => base_recipients
                  | new_recipients_list_from_header => new_recipients_list_from_header
                  end
              | None => base_recipients
              end in
            (resolved, subject', recipients, st')
        else ([], final_resolved_subject, base_recipients, st) in
      (Some (mkJob generated_job_id recipients subject' final_resolved_body_html
               final_resolved_body_plain "Prepared" headers
               (job_type_of send_method_type cfg) (Some (config_nickname cfg))
               None None),
       world st, occurrences st)
  end.

End WithExternals.

End Prepare.

(** ** Statements about the dynamic tags *)

Module TagSpec.
Import Text Tags.

(** The generators with a fixed name. *)
Definition basic_tag_names : list string :=
  ["ide"; "date"; "tag"; "rnd"; "fromname"; "subject"; "to"; "name"; "smtp";
   "smtp_name"].

(** The character-set family the specification lists. *)
Definition listed_charsets : list string :=
  ["n"; "a"; "l"; "u"; "s"; "lu"; "ln"; "un"].

(** One or two letters among n, a, l, u, s. *)
Definition nalus_charset (cs : string) : Prop :=
  (String.length cs = 1 \/ String.length cs = 2) /\ all_chars is_nalus cs = true.

(** [key] reads rnd<cs>_<N> or bnd<cs>_<N> with an admissible character set
    and a decimal N in (0, 1024]. *)
Definition var_len_form (charset_ok : string -> Prop) (key : string) : Prop :=
  exists kind cs ds,
    key = kind +:+ cs +:+ "_" +:+ ds /\
    (kind = "rnd" \/ kind = "bnd") /\
    charset_ok cs /\
    is_empty ds = false /\ all_chars is_digit ds = true /\
    (0 < int_of_digits ds <= 1024)%N.

Definition recognized_as_listed (key : string) : Prop :=
  In key basic_tag_names \/ var_len_form (fun cs => In cs listed_charsets) key.

Definition recognized (key : string) : Prop :=
  In key basic_tag_names \/ var_len_form nalus_charset key.

(** Every occurrence {{[c]}} found by the pattern whose content, read
    through [view], is not recognised is replaced by itself. *)
Definition unrecognized_left_unchanged (recognizes : string -> Prop)
    (view : string -> string) : Prop :=
  forall (ctx : list (string * string)) (s c : string) (st : ResolveState),
    match_tag_at s = Some (tag_open +:+ c +:+ tag_close) ->
    ~ recognizes (view c) ->
    (dynamic_tag_replacer_func ctx (tag_open +:+ c +:+ tag_close) st).1
    = tag_open +:+ c +:+ tag_close.

(** The tags whose value is kept in the boundary-tag cache. *)
Definition is_boundary_tag (full : string) : bool :=
  String.eqb full token_tag ||
  match tag_content full with
  | Some content =>
      match parse_var_len (strip content) with
      | Some (kind, _, n) =>
          String.eqb kind "bnd" && (0 <? n)%N && (n <=? 1024)%N
      | None => false
      end
  | None => false
  end.

(** Equal boundary tags were given equal values. *)
Definition stable (log : list Occurrence) : Prop :=
  forall o1 o2, In o1 log -> In o2 log ->
    occ_tag o1 = occ_tag o2 -> is_boundary_tag (occ_tag o1) = true ->
    occ_value o1 = occ_value o2.

(** The first occurrence of a boundary tag was not read from the cache. *)
Definition first_generated (log : list Occurrence) : Prop :=
  forall l1 o l2, log = l1 ++ o :: l2 ->
    is_boundary_tag (occ_tag o) = true ->
    (forall o', In o' l1 -> occ_tag o' <> occ_tag o) ->
    occ_cached o = false.

(** What links the cache of a job to the occurrences resolved so far. *)
Definition cache_invariant (st : ResolveState) : Prop :=
  (forall o, In o (occurrences st) -> is_boundary_tag (occ_tag o) = true ->
     boundary_tag_cache st !! occ_tag o = Some (occ_value o)) /\
  (forall t, is_Some (boundary_tag_cache st !! t) ->
     exists o, In o (occurrences st) /\ occ_tag o = t) /\
  first_generated (occurrences st).

(** A sample environment and an empty resolution state, for examples. *)
Definition sample_world : World :=
  mkWorld 0 (fun i => 3 + 7 * i)%nat
    (fun _ => "123e4567-e89b-12d3-a456-426614174000")
    (fun _ => "2024-01-01 00:00:00").

Definition sample_state : ResolveState := mkResolveState ∅ sample_world [].

End TagSpec.

(** ** OptimizedEmailSenderThread *)

Module Worker.

Record BatchStats := mkStats {
  total_jobs_in_batch : nat;
  completed_in_batch : nat;
  successful_in_batch : nat;
  failed_in_batch : nat
}.

(** Where the thread stands in [run]: not yet begun, at the head of the
    [while] loop, between [get_completed_jobs] and the test that follows
    it (holding the results just drained), or returned. *)
Inductive phase :=
| Created
| Looping
| Polled (completed_tasks_in_batch : list JobQueue.completed_result)
| Exited.

Record t := mk {
  job_batch : list Job;
  max_concurrent_tasks_in_batch : nat;       (* sender_config *)
  job_queue_manager_for_batch : JobQueue.t;
  _is_running_batch_thread : bool;
  batch_stats : BatchStats;
  at_phase : phase;
  (** [send_finished_signal], once emitted: the success flag and the
      statistics; and whether the slot connected to it has run. *)
  finished_signal : option (bool * BatchStats);
  signal_delivered : bool;
  (** Which slots of the application the signals are connected to: those
      of a batch worker ([on_batch_worker_finished],
      [on_primary_email_success_trigger_test]) or the one of a test e-mail
      worker ([on_test_email_worker_finished]). *)
  for_test_email : bool
}.

(** [__init__] *)
Definition init (job_batch_of_prepared_emails : list Job)
    (max_concurrent_tasks_in_batch : nat) (for_test_email : bool) : t :=
  mk job_batch_of_prepared_emails max_concurrent_tasks_in_batch
     (JobQueue.init max_concurrent_tasks_in_batch) true
     (mkStats (length job_batch_of_prepared_emails) 0 0 0)
     Created None false for_test_email.

(** The rate limiter of an SMTP job, attached by the key of the pool. *)
Definition attach_rate_limiter (pool : gmap string RateLimiter.t)
    (prepared_job_data : Job) : Job :=
  if String.eqb (jtype prepared_job_data) "genericsmtp" then
    match nickname prepared_job_data with
    | Some server_nickname =>
        if negb (Text.is_empty server_nickname)
           && bool_decide (is_Some (pool !! server_nickname))
        then mkJob (job_id prepared_job_data)
               (recipients_to_list prepared_job_data)
               (subject prepared_job_data) (htmlBody prepared_job_data)
               (plainBody prepared_job_data) (status prepared_job_data)
               (all_custom_headers prepared_job_data) (jtype prepared_job_data)
               (nickname prepared_job_data) (Some server_nickname)
               (log_identifier_details prepared_job_data)
        else prepared_job_data
    | None => prepared_job_data
    end
  else prepared_job_data.

(** The return of [run]: the signal is emitted, then the [finally] block
    stops the queue manager. *)
Definition exit (ok : bool) (w : t) : t :=
  mk (job_batch w) (max_concurrent_tasks_in_batch w)
     (JobQueue.stop (job_queue_manager_for_batch w))
     (_is_running_batch_thread w) (batch_stats w) Exited
     (Some (ok, batch_stats w)) false (for_test_email w).

Definition with_manager (q : JobQueue.t) (ph : phase) (w : t) : t :=
  mk (job_batch w) (max_concurrent_tasks_in_batch w) q
     (_is_running_batch_thread w) (batch_stats w) ph
     (finished_signal w) (signal_delivered w) (for_test_email w).

(** The part of [run] before the [while] loop. *)
Definition run_setup (pool : gmap string RateLimiter.t) (w : t) : t :=
  match job_batch w with
  | [] => exit true w
  | _ =>
      if _is_running_batch_thread w then
        let q := foldl (fun q j => JobQueue.add_job (attach_rate_limiter pool j) q)
                   (job_queue_manager_for_batch w) (job_batch w) in
        with_manager
          (JobQueue.start_processing (max_concurrent_tasks_in_batch w) q)
          Looping w
      else exit false w
  end.

(** The accounting of one drained result. *)
Definition count_result (r : JobQueue.completed_result) (s : BatchStats)
  : BatchStats :=
  let '(_, result_data, error_str) := r in
  match error_str with
  | Some _ =>
      mkStats (total_jobs_in_batch s) (S (completed_in_batch s))
        (successful_in_batch s) (S (failed_in_batch s))
  | None =>
      match result_data with
      | Some res =>
          if success res
          then mkStats (total_jobs_in_batch s) (S (completed_in_batch s))
                 (S (successful_in_batch s)) (failed_in_batch s)
          else mkStats (total_jobs_in_batch s) (S (completed_in_batch s))
                 (successful_in_batch s) (S (failed_in_batch s))
      | None =>
          mkStats (total_jobs_in_batch s) (S (completed_in_batch s))
            (successful_in_batch s) (S (failed_in_batch s))
      end
  end.

(** One step of the thread. [done] and [outcome] are what the futures
    answer if this step polls them. *)
Definition step (pool : gmap string RateLimiter.t)
    (done : JobQueue.Future -> bool)
    (outcome : JobQueue.Future -> future_outcome) (w : t) : t :=
  match at_phase w with
  | Created => run_setup pool w
  | Looping =>
      if _is_running_batch_thread w then
        if JobQueue.is_finished (job_queue_manager_for_batch w)
        then exit true w
        else
          let (completed, q) :=
            JobQueue.get_completed_jobs done outcome
              (job_queue_manager_for_batch w) in
          with_manager q (Polled completed) w
      else exit false w
  | Polled completed =>
      if _is_running_batch_thread w then
        mk (job_batch w) (max_concurrent_tasks_in_batch w)
           (job_queue_manager_for_batch w) (_is_running_batch_thread w)
           (foldl (fun s r => count_result r s) (batch_stats w) completed)
           Looping (finished_signal w) (signal_delivered w) (for_test_email w)
      else exit false w
  | Exited => w
  end.

(** A result that makes the thread emit [primary_email_sent_successfully]:
    no error, a result that reports success, and a job that is not a test
    e-mail. *)
Definition emits_success (r : JobQueue.completed_result) : bool :=
  let '(job_data, result_data, error_str) := r in
  match error_str with
  | Some e => false
  | None =>
      match result_data with
      | Some res => success res && negb (Text.starts_with "TEST_" (job_id job_data))
      | None => false
      end
  end.

(** The payloads of the [primary_email_sent_successfully] signals that the
    next step of the thread emits. *)
Definition primary_email_sent_successfully (w : t) : list Job :=
  match at_phase w with
  | Polled completed =>
      if _is_running_batch_thread w
      then List.map (fun r => fst (fst r)) (List.filter emits_success completed)
      else []
  | _ => []
  end.

(** [stop], called from the main thread: flags only. *)
Definition stop (w : t) : t :=
  mk (job_batch w) (max_concurrent_tasks_in_batch w)
     (JobQueue.set_is_running false (job_queue_manager_for_batch w))
     false (batch_stats w) (at_phase w) (finished_signal w) (signal_delivered w)
     (for_test_email w).

Definition mark_delivered (w : t) : t :=
  mk (job_batch w) (max_concurrent_tasks_in_batch w)
     (job_queue_manager_for_batch w) (_is_running_batch_thread w)
     (batch_stats w) (at_phase w) (finished_signal w) true (for_test_email w).

(** The jobs this thread's executor was given. *)
Definition submitted (w : t) : list Job :=
  JobQueue.executor_submitted (job_queue_manager_for_batch w).

End Worker.

(** ** The campaign control of MailerApp *)

Module Campaign.
Import Prepare.
Local Open Scope nat_scope.

Record MailerApp := mkApp {
  email_job_queue : list Job;
  current_job_index_for_dispatch : nat;
  active_batch_send_workers : list nat;     (* references into the thread store *)
  active_test_email_workers : list nat;
  queue_processing_active : bool;
  is_paused_flag : bool;
  batch_size_for_main_workers : nat;
  max_concurrent_sends_per_batch_worker : nat;
  total_emails_processed_overall : nat;
  total_emails_successful_overall : nat;
  overall_processing_start_time : Q;
  overall_processing_end_time : Q;
  primary_emails_sent_since_last_test : nat;
  rate_limiters_pool : gmap string RateLimiter.t;
  send_via : string;                        (* send_via_combo_box.currentText() *)
  selected_as_accounts : list SenderConfig;
  selected_generic_smtp_servers : list SenderConfig;
  test_email_address : string;              (* test_email_address_input_field.text() *)
  test_after_x_emails : nat;                (* test_after_x_emails_spinbox_ref.value() *)
  (** The [primary_email_sent_successfully] signals that were emitted by
      worker threads and wait in the event queue of the main thread. *)
  pending_success_signals : list Job
}.

(** The application and the worker threads it has created; a thread is
    referred to by its position in [threads]. *)
Record System := mkSystem {
  app : MailerApp;
  threads : list Worker.t
}.

Definition set_flags (active paused : bool) (a : MailerApp) : MailerApp :=
  mkApp (email_job_queue a) (current_job_index_for_dispatch a)
    (active_batch_send_workers a) (active_test_email_workers a)
    active paused
    (batch_size_for_main_workers a) (max_concurrent_sends_per_batch_worker a)
    (total_emails_processed_overall a) (total_emails_successful_overall a)
    (overall_processing_start_time a) (overall_processing_end_time a)
    (primary_emails_sent_since_last_test a) (rate_limiters_pool a) (send_via a)
    (selected_as_accounts a) (selected_generic_smtp_servers a)
    (test_email_address a) (test_after_x_emails a) (pending_success_signals a).

Definition set_cursor (i : nat) (a : MailerApp) : MailerApp :=
  mkApp (email_job_queue a) i
    (active_batch_send_workers a) (active_test_email_workers a)
    (queue_processing_active a) (is_paused_flag a)
    (batch_size_for_main_workers a) (max_concurrent_sends_per_batch_worker a)
    (total_emails_processed_overall a) (total_emails_successful_overall a)
    (overall_processing_start_time a) (overall_processing_end_time a)
    (primary_emails_sent_since_last_test a) (rate_limiters_pool a) (send_via a)
    (selected_as_accounts a) (selected_generic_smtp_servers a)
    (test_email_address a) (test_after_x_emails a) (pending_success_signals a).

Definition set_active_workers (l : list nat) (a : MailerApp) : MailerApp :=
  mkApp (email_job_queue a) (current_job_index_for_dispatch a)
    l (active_test_email_workers a)
    (queue_processing_active a) (is_paused_flag a)
    (batch_size_for_main_workers a) (max_concurrent_sends_per_batch_worker a)
    (total_emails_processed_overall a) (total_emails_successful_overall a)
    (overall_processing_start_time a) (overall_processing_end_time a)
    (primary_emails_sent_since_last_test a) (rate_limiters_pool a) (send_via a)
    (selected_as_accounts a) (selected_generic_smtp_servers a)
    (test_email_address a) (test_after_x_emails a) (pending_success_signals a).

Definition set_counters (processed successful : nat) (a : MailerApp) : MailerApp :=
  mkApp (email_job_queue a) (current_job_index_for_dispatch a)
    (active_batch_send_workers a) (active_test_email_workers a)
    (queue_processing_active a) (is_paused_flag a)
    (batch_size_for_main_workers a) (max_concurrent_sends_per_batch_worker a)
    processed successful
    (overall_processing_start_time a) (overall_processing_end_time a)
    (primary_emails_sent_since_last_test a) (rate_limiters_pool a) (send_via a)
    (selected_as_accounts a) (selected_generic_smtp_servers a)
    (test_email_address a) (test_after_x_emails a) (pending_success_signals a).

Definition set_start_time (t : Q) (a : MailerApp) : MailerApp :=
  mkApp (email_job_queue a) (current_job_index_for_dispatch a)
    (active_batch_send_workers a) (active_test_email_workers a)
    (queue_processing_active a) (is_paused_flag a)
    (batch_size_for_main_workers a) (max_concurrent_sends_per_batch_worker a)
    (total_emails_processed_overall a) (total_emails_successful_overall a)
    t (overall_processing_end_time a)
    (primary_emails_sent_since_last_test a) (rate_limiters_pool a) (send_via a)
    (selected_as_accounts a) (selected_generic_smtp_servers a)
    (test_email_address a) (test_after_x_emails a) (pending_success_signals a).

Definition set_end_time (t : Q) (a : MailerApp) : MailerApp :=
  mkApp (email_job_queue a) (current_job_index_for_dispatch a)
    (active_batch_send_workers a) (active_test_email_workers a)
    (queue_processing_active a) (is_paused_flag a)
    (batch_size_for_main_workers a) (max_concurrent_sends_per_batch_worker a)
    (total_emails_processed_overall a) (total_emails_successful_overall a)
    (overall_processing_start_time a) t
    (primary_emails_sent_since_last_test a) (rate_limiters_pool a) (send_via a)
    (selected_as_accounts a) (selected_generic_smtp_servers a)
    (test_email_address a) (test_after_x_emails a) (pending_success_signals a).

Definition set_test_counter (n : nat) (a : MailerApp) : MailerApp :=
  mkApp (email_job_queue a) (current_job_index_for_dispatch a)
    (active_batch_send_workers a) (active_test_email_workers a)
    (queue_processing_active a) (is_paused_flag a)
    (batch_size_for_main_workers a) (max_concurrent_sends_per_batch_worker a)
    (total_emails_processed_overall a) (total_emails_successful_overall a)
    (overall_processing_start_time a) (overall_processing_end_time a)
    n (rate_limiters_pool a) (send_via a)
    (selected_as_accounts a) (selected_generic_smtp_servers a)
    (test_email_address a) (test_after_x_emails a) (pending_success_signals a).

Definition set_queue (l : list Job) (a : MailerApp) : MailerApp :=
  mkApp l (current_job_index_for_dispatch a)
    (active_batch_send_workers a) (active_test_email_workers a)
    (queue_processing_active a) (is_paused_flag a)
    (batch_size_for_main_workers a) (max_concurrent_sends_per_batch_worker a)
    (total_emails_processed_overall a) (total_emails_successful_overall a)
    (overall_processing_start_time a) (overall_processing_end_time a)
    (primary_emails_sent_since_last_test a) (rate_limiters_pool a) (send_via a)
    (selected_as_accounts a) (selected_generic_smtp_servers a)
    (test_email_address a) (test_after_x_emails a) (pending_success_signals a).

Definition clear_test_workers (a : MailerApp) : MailerApp :=
  mkApp (email_job_queue a) (current_job_index_for_dispatch a)
    (active_batch_send_workers a) []
    (queue_processing_active a) (is_paused_flag a)
    (batch_size_for_main_workers a) (max_concurrent_sends_per_batch_worker a)
    (total_emails_processed_overall a) (total_emails_successful_overall a)
    (overall_processing_start_time a) (overall_processing_end_time a)
    (primary_emails_sent_since_last_test a) (rate_limiters_pool a) (send_via a)
    (selected_as_accounts a) (selected_generic_smtp_servers a)
    (test_email_address a) (test_after_x_emails a) (pending_success_signals a).

Definition set_active_test_workers (l : list nat) (a : MailerApp) : MailerApp :=
  mkApp (email_job_queue a) (current_job_index_for_dispatch a)
    (active_batch_send_workers a) l
    (queue_processing_active a) (is_paused_flag a)
    (batch_size_for_main_workers a) (max_concurrent_sends_per_batch_worker a)
    (total_emails_processed_overall a) (total_emails_successful_overall a)
    (overall_processing_start_time a) (overall_processing_end_time a)
    (primary_emails_sent_since_last_test a) (rate_limiters_pool a) (send_via a)
    (selected_as_accounts a) (selected_generic_smtp_servers a)
    (test_email_address a) (test_after_x_emails a) (pending_success_signals a).

Definition set_pending_success_signals (l : list Job) (a : MailerApp)
  : MailerApp :=
  mkApp (email_job_queue a) (current_job_index_for_dispatch a)
    (active_batch_send_workers a) (active_test_email_workers a)
    (queue_processing_active a) (is_paused_flag a)
    (batch_size_for_main_workers a) (max_concurrent_sends_per_batch_worker a)
    (total_emails_processed_overall a) (total_emails_successful_overall a)
    (overall_processing_start_time a) (overall_processing_end_time a)
    (primary_emails_sent_since_last_test a) (rate_limiters_pool a) (send_via a)
    (selected_as_accounts a) (selected_generic_smtp_servers a)
    (test_email_address a) (test_after_x_emails a) l.

Definition is_nil {A} (l : list A) : bool :=
  match l with [] => true | _ => false end.

(** [finalize_overall_queue_processing] *)
Definition finalize_overall_queue_processing (now : Q) (a : MailerApp)
  : MailerApp :=
  set_end_time now (set_flags false false a).

(** [self.email_job_queue[batch_start_idx:batch_end_idx]] *)
Definition slice (l : list Job) (i j : nat) : list Job :=
  firstn (j - i) (skipn i l).

(** [dispatch_next_email_batch_to_worker] *)
Definition dispatch_next_email_batch_to_worker (now : Q) (s : System) : System :=
  let a := app s in
  if is_paused_flag a || negb (queue_processing_active a) then s
  else if length (email_job_queue a) <=? current_job_index_for_dispatch a then
    if is_nil (active_batch_send_workers a)
    then mkSystem (finalize_overall_queue_processing now a) (threads s)
    else s
  else
    let batch_start_idx := current_job_index_for_dispatch a in
    let batch_end_idx :=
      Nat.min (batch_start_idx + batch_size_for_main_workers a)
        (length (email_job_queue a)) in
    let current_batch_of_prepared_jobs :=
      slice (email_job_queue a) batch_start_idx batch_end_idx in
    if is_nil current_batch_of_prepared_jobs then
      if is_nil (active_batch_send_workers a)
      then mkSystem (finalize_overall_queue_processing now a) (threads s)
      else s
    else
      let batch_worker :=
        Worker.init current_batch_of_prepared_jobs
          (max_concurrent_sends_per_batch_worker a) false in
      let wid := length (threads s) in
      mkSystem
        (set_cursor batch_end_idx
           (set_active_workers (active_batch_send_workers a ++ [wid]) a))
        (threads s ++ [batch_worker]).

(** The validation of the selected senders in [action_start_queue_processing]. *)
Definition sender_missing (a : MailerApp) : bool :=
  if Text.contains "Apps Script" (send_via a)
  then is_nil (selected_as_accounts a)
  else if Text.contains "Generic SMTP" (send_via a)
  then is_nil (selected_generic_smtp_servers a)
  else false.

(** Whether [action_start_queue_processing] returns before doing anything. *)
Definition start_refused (a : MailerApp) : bool :=
  is_nil (email_job_queue a)
  || (queue_processing_active a && negb (is_paused_flag a))
  || sender_missing a.

(** [action_start_queue_processing] up to the call that dispatches. *)
Definition start_reset (now : Q) (a : MailerApp) : MailerApp :=
  let a := set_flags true false a in
  let a :=
    if current_job_index_for_dispatch a =? 0
    then set_counters 0 0 (set_start_time now a)
    else a in
  let a := set_test_counter 0 a in
  if length (email_job_queue a) <=? current_job_index_for_dispatch a
  then set_cursor 0 a else a.

Definition action_start_queue_processing (now : Q) (s : System) : System :=
  if start_refused (app s) then s
  else dispatch_next_email_batch_to_worker now
         (mkSystem (start_reset now (app s)) (threads s)).

(** [action_toggle_pause_resume_queue]; the dispatch it schedules on
    resuming is the timer event. *)
Definition action_toggle_pause_resume_queue (now : Q) (s : System) : System :=
  let a := app s in
  if negb (queue_processing_active a) && is_nil (email_job_queue a) then s
  else if negb (is_paused_flag a)
          && (length (email_job_queue a) <=? current_job_index_for_dispatch a)
          && is_nil (active_batch_send_workers a) then s
  else
    let a := set_flags (queue_processing_active a) (negb (is_paused_flag a)) a in
    if is_paused_flag a then mkSystem a (threads s)
    else
      let a := set_flags true false a in
      if (current_job_index_for_dispatch a <? length (email_job_queue a))
         || negb (is_nil (active_batch_send_workers a))
      then mkSystem a (threads s)
      else mkSystem (finalize_overall_queue_processing now a) (threads s).

(** [self.active_batch_send_workers.remove(worker)] *)
Fixpoint remove_first (x : nat) (l : list nat) : list nat :=
  match l with
  | [] => []
  | y :: l' => if Nat.eqb x y then l' else y :: remove_first x l'
  end.

(** [on_batch_worker_finished], run when the finished signal of thread
    [wid] is delivered. *)
Definition on_batch_worker_finished (now : Q) (wid : nat)
    (batch_stats_dict : Worker.BatchStats) (s : System) : System :=
  let a := app s in
  let a := set_active_workers (remove_first wid (active_batch_send_workers a)) a in
  let a :=
    set_counters
      (total_emails_processed_overall a + Worker.completed_in_batch batch_stats_dict)
      (total_emails_successful_overall a + Worker.successful_in_batch batch_stats_dict)
      a in
  if queue_processing_active a && negb (is_paused_flag a) then mkSystem a (threads s)
  else if is_nil (active_batch_send_workers a)
          && ((length (email_job_queue a) <=? current_job_index_for_dispatch a)
              || negb (queue_processing_active a))
  then mkSystem (finalize_overall_queue_processing now a) (threads s)
  else mkSystem a (threads s).

(** [dispatch_single_test_email]: the payload of the test e-mail built
    from a job that was sent; [uuid] is the value of [uuid.uuid4()]. The
    copy leaves out [rate_limiter] and [log_identifier_details]. *)
Definition test_job_payload (uuid target_test_email_address : string)
    (base_job_config_for_test : Job) : Job :=
  let original_job_id_for_log := job_id base_job_config_for_test in
  let short := Text.take_chars 8 original_job_id_for_log in
  let test_job_id := "TEST_" +:+ Text.take_chars 10 uuid in
  let headers :=
    Text.dict_pop "bcc" (Text.dict_pop "Bcc" (Text.dict_pop "cc" (Text.dict_pop "Cc"
      (Text.dict_set "To" target_test_email_address
         (all_custom_headers base_job_config_for_test))))) in
  let test_subject_prefix := "[AUTO-TEST MAIL - Job " +:+ short +:+ "] " in
  let test_body_indicator_html_str :=
    "<p style='color:red; font-weight:bold; border:1px dashed red; padding:5px;'>--- THIS IS AN AUTOMATED TEST EMAIL (Based on original Job ID: "
    +:+ short +:+ ") ---</p><hr><br>" in
  let test_body_indicator_plain_str :=
    "--- THIS IS AN AUTOMATED TEST EMAIL (Based on original Job ID: "
    +:+ short +:+ ") ---" +:+ String "010"%char
    ("---------------------------------" +:+ String "010"%char
       (String "010"%char EmptyString)) in
  let html :=
    test_body_indicator_html_str
    +:+ default EmptyString (htmlBody base_job_config_for_test) in
  let plain :=
    test_body_indicator_plain_str
    +:+ default EmptyString (plainBody base_job_config_for_test) in
  let default_test_msg_content :=
    "This is a test email message based on the content and configuration of main email job ID: "
    +:+ original_job_id_for_log
    +:+ ". If you see this, the sending mechanism is likely working." in
  let both_empty :=
    Text.is_empty (Text.strip (Text.remove_all test_body_indicator_html_str html))
    && Text.is_empty
         (Text.strip (Text.remove_all test_body_indicator_plain_str plain)) in
  let html' :=
    if both_empty then html +:+ "<p>" +:+ default_test_msg_content +:+ "</p>"
    else html in
  let plain' :=
    if both_empty then plain +:+ default_test_msg_content else plain in
  mkJob test_job_id [target_test_email_address]
    (test_subject_prefix +:+ subject base_job_config_for_test)
    (Some html') (Some plain') "Sending Test Email..." headers
    (jtype base_job_config_for_test) (nickname base_job_config_for_test)
    None
    (Some (Text.take_chars 8 test_job_id, target_test_email_address,
           "AUTO-TEST", "OrigJob:" +:+ short)).

Definition dispatch_single_test_email (uuid target_test_email_address : string)
    (base_job_config_for_test : Job) (s : System) : System :=
  let a := app s in
  let test_email_sender_thread :=
    Worker.init
      [test_job_payload uuid target_test_email_address base_job_config_for_test]
      1 true in
  let wid := length (threads s) in
  mkSystem (set_active_test_workers (active_test_email_workers a ++ [wid]) a)
    (threads s ++ [test_email_sender_thread]).

(** Whether the widgets ask for automatic test e-mails. *)
Definition auto_test_configured (a : MailerApp) : bool :=
  let target_test_address := Text.strip (test_email_address a) in
  negb (Text.is_empty target_test_address)
  && Text.contains_char "@"%char target_test_address
  && (0 <? test_after_x_emails a).

(** [on_primary_email_success_trigger_test], the slot run in the main
    thread for a [primary_email_sent_successfully] signal. *)
Definition on_primary_email_success_trigger_test (uuid : string)
    (successfully_sent_job_config : Job) (s : System) : System :=
  let a :=
    set_test_counter (S (primary_emails_sent_since_last_test (app s))) (app s) in
  if auto_test_configured a
     && (test_after_x_emails a <=? primary_emails_sent_since_last_test a)
  then dispatch_single_test_email uuid (Text.strip (test_email_address a))
         successfully_sent_job_config
         (mkSystem (set_test_counter 0 a) (threads s))
  else mkSystem a (threads s).

(** [on_test_email_worker_finished] *)
Definition on_test_email_worker_finished (wid : nat) (s : System) : System :=
  mkSystem
    (set_active_test_workers
       (remove_first wid (active_test_email_workers (app s))) (app s))
    (threads s).

Definition update_thread (wid : nat) (f : Worker.t -> Worker.t) (s : System)
  : System :=
  match threads s !! wid with
  | Some w => mkSystem (app s) (<[wid := f w]> (threads s))
  | None => s
  end.

(** Whether [action_stop_queue_processing_and_clear] finds nothing to stop. *)
Definition nothing_to_stop (a : MailerApp) : bool :=
  negb (queue_processing_active a) && is_nil (email_job_queue a)
  && is_nil (active_batch_send_workers a) && is_nil (active_test_email_workers a).

(** [action_stop_queue_processing_and_clear]; [confirm] is the answer to
    the confirmation dialog. *)
Definition action_stop_queue_processing_and_clear (confirm : bool) (now : Q)
    (s : System) : System :=
  let a := app s in
  if nothing_to_stop a then s
  else if confirm then
    let a := set_flags false true a in
    let all_workers_to_signal_stop :=
      active_batch_send_workers a ++ active_test_email_workers a in
    let s1 :=
      foldl (fun s wid => update_thread wid Worker.stop s)
        (mkSystem a (threads s)) all_workers_to_signal_stop in
    let a := clear_test_workers (set_active_workers [] (app s1)) in
    let a := set_cursor 0 (set_queue [] a) in
    mkSystem (set_end_time now a) (threads s1)
  else s.

(** What can happen: the user's actions, a timer that fires, a step of a
    worker thread, the delivery of a thread's finished signal or of a
    success signal. *)
Inductive event :=
| Start (now : Q)
| TogglePause (now : Q)
| StopAndClear (confirm : bool) (now : Q)
| TimerDispatch (now : Q)
| WorkerStep (wid : nat) (done : JobQueue.Future -> bool)
    (outcome : JobQueue.Future -> future_outcome)
| FinishedSignal (wid : nat) (now : Q)
| PrimarySuccessSignal (uuid : string).

Definition deliver_finished (now : Q) (wid : nat) (s : System) : System :=
  match threads s !! wid with
  | Some w =>
      match Worker.finished_signal w with
      | Some (_, stats) =>
          if Worker.signal_delivered w then s
          else if Worker.for_test_email w
          then on_test_email_worker_finished wid
                 (update_thread wid Worker.mark_delivered s)
          else on_batch_worker_finished now wid stats
                 (update_thread wid Worker.mark_delivered s)
      | None => s
      end
  | None => s
  end.

(** One step of thread [wid]; the success signals it emits are queued for
    the main thread when the thread is a batch worker. *)
Definition worker_step (wid : nat) (done : JobQueue.Future -> bool)
    (outcome : JobQueue.Future -> future_outcome) (s : System) : System :=
  match threads s !! wid with
  | Some w =>
      let emitted :=
        if Worker.for_test_email w then []
        else Worker.primary_email_sent_successfully w in
      mkSystem
        (set_pending_success_signals
           (pending_success_signals (app s) ++ emitted) (app s))
        (<[wid := Worker.step (rate_limiters_pool (app s)) done outcome w]>
           (threads s))
  | None => s
  end.

(** The delivery of the oldest pending success signal. *)
Definition deliver_success (uuid : string) (s : System) : System :=
  match pending_success_signals (app s) with
  | [] => s
  | job :: rest =>
      on_primary_email_success_trigger_test uuid job
        (mkSystem (set_pending_success_signals rest (app s)) (threads s))
  end.

Definition step (s : System) (e : event) : System :=
  match e with
  | Start now => action_start_queue_processing now s
  | TogglePause now => action_toggle_pause_resume_queue now s
  | StopAndClear confirm now => action_stop_queue_processing_and_clear confirm now s
  | TimerDispatch now => dispatch_next_email_batch_to_worker now s
  | WorkerStep wid done outcome => worker_step wid done outcome s
  | FinishedSignal wid now => deliver_finished now wid s
  | PrimarySuccessSignal uuid => deliver_success uuid s
  end.

Definition run (evs : list event) (s : System) : System := foldl step s evs.

(** Every job an executor of the system was given, thread by thread. *)
Definition transport_log (s : System) : list Job :=
  concat (List.map Worker.submitted (threads s)).

(** The jobs the executor of a batch worker was given. *)
Definition campaign_submitted (w : Worker.t) : list Job :=
  if Worker.for_test_email w then [] else Worker.submitted w.

(** The jobs of the campaign that an executor was given. *)
Definition campaign_log (s : System) : list Job :=
  concat (List.map campaign_submitted (threads s)).

End Campaign.

(** ** Preparing a campaign *)

Module PrepareCampaign.
Import Text Tags Prepare Campaign.
Local Open Scope nat_scope.

(** What the data-source widgets and [csv.DictReader] give: no content
    (a single e-mail is prepared), a source whose content is missing, or
    the header row and the rows, each row a dictionary from the header
    names to the cell, [None] where the row is short. *)
Inductive DataSource :=
| NoDataSource
| DataNotLoaded
| DataList (fieldnames : list string)
    (rows : list (list (string * option string))).

(** The widgets [action_prepare_campaign_and_add_to_queue] reads, and the
    answer to its confirmation dialog. *)
Record CampaignUI := mkCampaignUI {
  subject_lines_text : string;
  from_name_text : string;
  to_field_text : string;
  body_html_template_from_ui : option string;
  body_plain_template_from_ui : option string;
  empty_body_confirmed : bool;
  data_source : DataSource;
  headers_ui : HeadersUI
}.

(** What is written to the log area for a row ([row_num] 0 is the single
    e-mail), and the end of the loop by an exception. *)
Inductive row_report :=
| EmptyRowSkipped (row_num : nat)
| NoValidToSkipped (row_num : nat)
| JobAdded (row_num : nat)
| EmptyRecipientsRejected (row_num : nat)
| PreparationFailed (row_num : nat)
| Halted.

(** The variables of the action while it runs. *)
Record Progress := mkProgress {
  queue_now : list Job;                     (* self.email_job_queue *)
  prepared_jobs_count_this_action : nat;
  cycler_position : nat;                    (* values taken from the cycler *)
  world_now : World;
  reports : list row_report
}.

Definition report (r : row_report) (p : Progress) : Progress :=
  mkProgress (queue_now p) (prepared_jobs_count_this_action p)
    (cycler_position p) (world_now p) (reports p ++ [r]).

Definition with_world (w : World) (p : Progress) : Progress :=
  mkProgress (queue_now p) (prepared_jobs_count_this_action p)
    (cycler_position p) w (reports p).

Definition cycler_taken (p : Progress) : Progress :=
  mkProgress (queue_now p) (prepared_jobs_count_this_action p)
    (S (cycler_position p)) (world_now p) (reports p).

(** [[s.strip() for s in text.strip().split('\n') if s.strip()]], and
    [[""]] when that is empty. *)
Definition templates_from_ui (text : string) : list string :=
  match List.filter (fun s => negb (is_empty s))
          (List.map strip (split_on "010"%char (strip text))) with
  | [] => [EmptyString]
  | l => l
  end.

Definition cleaned_fieldname (h : string) : string :=
  replace_char " "%char "_"%char (lower (strip h)).

(** [any(val.strip() for val in row.values())]; [None] is the
    [AttributeError] raised on a missing cell. *)
Fixpoint any_value_stripped (vals : list (option string)) : option bool :=
  match vals with
  | [] => Some false
  | Some v :: vals' =>
      if is_empty (strip v) then any_value_stripped vals' else Some true
  | None :: _ => None
  end.

Fixpoint raw_get (k : string) (row : list (string * option string))
  : option (option string) :=
  match row with
  | [] => None
  | (k', v) :: row' => if String.eqb k k' then Some v else raw_get k row'
  end.

(** The dictionary comprehension that builds [data_dict_for_this_row];
    [None] is a [KeyError]. *)
Fixpoint data_dict (cleaned fieldnames : list string)
    (row : list (string * option string)) (acc : list (string * string))
  : option (list (string * string)) :=
  match cleaned, fieldnames with
  | c :: cleaned', original_header :: fieldnames' =>
      match raw_get original_header row with
      | Some cell =>
          data_dict cleaned' fieldnames' row
            (dict_set c (strip (default "None" cell)) acc)
      | None => None
      end
  | _, _ => Some acc
  end.

(** [next] of [itertools.cycle(l)] after [pos] values were taken. *)
Definition cycle_next (l : list SenderConfig) (pos : nat) : option SenderConfig :=
  nth_error l (pos mod length l).

(** The matches of the placeholder pattern: two opening braces and, with no
    line break between, two closing ones. *)
Fixpoint closes_placeholder (s : string) : bool :=
  match s with
  | EmptyString => false
  | String c s' =>
      starts_with "}}" s
      || (negb (ascii_eqb c "010"%char) && closes_placeholder s')
  end.

Fixpoint has_placeholder (s : string) : bool :=
  match s with
  | EmptyString => false
  | String _ s' =>
      match strip_prefix "{{" s with
      | Some rest => closes_placeholder rest
      | None => false
      end
      || has_placeholder s'
  end.

Definition custom_to_header_is_present (h : HeadersUI) : bool :=
  enable_custom_headers h && contains "to:" (lower (custom_headers_text h)).

Definition with_log_identifier_details
    (d : string * string * string * string) (j : Job) : Job :=
  mkJob (job_id j) (recipients_to_list j) (subject j) (htmlBody j)
    (plainBody j) (status j) (all_custom_headers j) (jtype j) (nickname j)
    (rate_limiter j) (Some d).

(** The admission of a prepared job: it is appended to the queue and
    counted when its final recipient list is not empty, and only reported
    otherwise. *)
Definition admission (prepared_email_job : option Job)
    (source_type source_detail : string) (row_num : nat) (p : Progress)
  : Progress :=
  match prepared_email_job with
  | Some job =>
      match recipients_to_list job with
      | first_recipient :: _ =>
          let job' :=
            with_log_identifier_details
              (take_chars 8 (job_id job), first_recipient,
               source_type, source_detail) job in
          mkProgress (queue_now p ++ [job'])
            (S (prepared_jobs_count_this_action p)) (cycler_position p)
            (world_now p) (reports p ++ [JobAdded row_num])
      | [] => report (EmptyRecipientsRejected row_num) p
      end
  | None => report (PreparationFailed row_num) p
  end.

Section WithExternals.
Variable ext : Externals.

(** The senders the action cycles through, [None] when it returns at
    once. *)
Definition senders_to_cycle (a : MailerApp) : option (list SenderConfig) :=
  if contains "Apps Script" (send_via a) then
    if is_nil (selected_as_accounts a) then None
    else Some (selected_as_accounts a)
  else if contains "Generic SMTP" (send_via a) then
    if is_nil (selected_generic_smtp_servers a) then None
    else Some (selected_generic_smtp_servers a)
  else None.

(** The body of the loop over the rows; [None] is an exception, caught
    around the loop. *)
Definition prepare_row (ui : CampaignUI) (send_method_str : string)
    (senders subjects from_names cleaned fieldnames : _)
    (custom_to_header : bool) (row_num : nat)
    (raw_row_dict_from_reader : list (string * option string)) (p : Progress)
  : option Progress :=
  match any_value_stripped (List.map snd raw_row_dict_from_reader) with
  | None => None
  | Some false => Some (report (EmptyRowSkipped row_num) p)
  | Some true =>
      match data_dict cleaned fieldnames raw_row_dict_from_reader [] with
      | None => None
      | Some data_dict_for_this_row =>
          match cycle_next senders (cycler_position p) with
          | None => None
          | Some current_sender_account_config =>
              let p := cycler_taken p in
              let (to_field_resolved_with_row_data, st) :=
                _resolve_all_placeholders_and_tags ext
                  (Some (strip (to_field_text ui))) data_dict_for_this_row []
                  (mkResolveState ∅ (world_now p) []) in
              let p := with_world (world st) p in
              let initial_to_emails_list :=
                _parse_recipients ext to_field_resolved_with_row_data in
              if is_nil initial_to_emails_list && negb custom_to_header
              then Some (report (NoValidToSkipped row_num) p)
              else
                let n := prepared_jobs_count_this_action p in
                let '(prepared_email_job, w', _) :=
                  create_fully_prepared_email_job ext initial_to_emails_list
                    (nth (n mod length subjects) subjects EmptyString)
                    (nth (n mod length from_names) from_names EmptyString)
                    (body_html_template_from_ui ui)
                    (body_plain_template_from_ui ui)
                    data_dict_for_this_row send_method_str
                    (Some current_sender_account_config) (headers_ui ui)
                    (world_now p) in
                Some (admission prepared_email_job "DataList"
                        ("Row " +:+ pretty row_num) row_num (with_world w' p))
          end
      end
  end.

Fixpoint prepare_rows (ui : CampaignUI) (send_method_str : string)
    (senders subjects from_names cleaned fieldnames : _)
    (custom_to_header : bool) (row_num : nat)
    (rows : list (list (string * option string))) (p : Progress) : Progress :=
  match rows with
  | [] => p
  | row :: rows' =>
      match prepare_row ui send_method_str senders subjects from_names cleaned
              fieldnames custom_to_header row_num row p with
      | Some p' =>
          prepare_rows ui send_method_str senders subjects from_names cleaned
            fieldnames custom_to_header (S row_num) rows' p'
      | None => report Halted p
      end
  end.

(** [action_prepare_campaign_and_add_to_queue]: the variables as the action
    ends. *)
Definition prepare_progress (ui : CampaignUI) (w : World) (a : MailerApp)
  : Progress :=
  let p0 := mkProgress (email_job_queue a) 0 0 w [] in
  match senders_to_cycle a with
  | None => p0
  | Some senders =>
      let all_subject_templates_from_ui :=
        templates_from_ui (subject_lines_text ui) in
      let all_from_name_templates_from_ui :=
        templates_from_ui (from_name_text ui) in
      let base_to_recipients_template_ui := strip (to_field_text ui) in
      if negb (truthy (body_html_template_from_ui ui))
         && negb (truthy (body_plain_template_from_ui ui))
         && negb (empty_body_confirmed ui)
      then p0
      else
        match data_source ui with
        | DataNotLoaded => p0
        | DataList fieldnames rows =>
            let custom_to_header := custom_to_header_is_present (headers_ui ui) in
            if negb (has_placeholder base_to_recipients_template_ui)
               && negb custom_to_header
            then p0
            else if is_nil fieldnames then p0
            else
              let cleaned := List.map cleaned_fieldname fieldnames in
              if negb (existsb (fun h => negb (is_empty h)) cleaned) then p0
              else
                prepare_rows ui (send_via a) senders
                  all_subject_templates_from_ui all_from_name_templates_from_ui
                  cleaned fieldnames custom_to_header 1 rows p0
        | NoDataSource =>
            match cycle_next senders 0 with
            | None => p0
            | Some current_sender_account_config =>
                let p := cycler_taken p0 in
                let initial_to_emails_list :=
                  _parse_recipients ext base_to_recipients_template_ui in
                if is_nil initial_to_emails_list
                   && negb (custom_to_header_is_present (headers_ui ui))
                then p
                else
                  let '(prepared_email_job, w', _) :=
                    create_fully_prepared_email_job ext initial_to_emails_list
                      (nth 0 all_subject_templates_from_ui EmptyString)
                      (nth 0 all_from_name_templates_from_ui EmptyString)
                      (body_html_template_from_ui ui)
                      (body_plain_template_from_ui ui)
                      [] (send_via a) (Some current_sender_account_config)
                      (headers_ui ui) w in
                  admission prepared_email_job "SingleUI" "-" 0 (with_world w' p)
            end
        end
  end.

Definition action_prepare_campaign_and_add_to_queue (ui : CampaignUI)
    (w : World) (a : MailerApp) : MailerApp :=
  set_queue (queue_now (prepare_progress ui w a)) a.

(** What the user and the environment do to the system: a campaign is
    prepared, or one of the events of [Campaign]. *)
Inductive action :=
| Prepare (ui : CampaignUI) (w : World)
| Happen (e : event).

Definition act (s : System) (x : action) : System :=
  match x with
  | Prepare ui w =>
      mkSystem (action_prepare_campaign_and_add_to_queue ui w (app s)) (threads s)
  | Happen e => step s e
  end.

Definition run_actions (xs : list action) (s : System) : System :=
  foldl act s xs.

End WithExternals.

(** A job that names someone to send to. *)
Definition has_recipients (j : Job) : Prop := recipients_to_list j <> [].

(** The jobs a worker thread holds all have recipients. *)
Definition thread_has_recipients (w : Worker.t) : Prop :=
  Forall has_recipients (Worker.job_batch w) /\
  Forall has_recipients
    (JobQueue.job_queue (Worker.job_queue_manager_for_batch w)) /\
  Forall has_recipients (Worker.submitted w).

Definition system_has_recipients (s : System) : Prop :=
  Forall has_recipients (email_job_queue (app s)) /\
  Forall thread_has_recipients (threads s).

(** The rows of the log that report an added job. *)
Definition is_added (r : row_report) : bool :=
  match r with JobAdded _ => true | _ => false end.

Definition is_rejected (r : row_report) : bool :=
  match r with EmptyRecipientsRejected _ => true | _ => false end.

(** The jobs an action has added so far, seen from the queue it began
    with: they all have recipients, they are counted, and each one is
    reported as added. *)
Definition prepared_ok (q0 : list Job) (p : Progress) : Prop :=
  exists added,
    queue_now p = q0 ++ added /\
    prepared_jobs_count_this_action p = length added /\
    Forall has_recipients added /\
    length (List.filter is_added (reports p)) = length added.

End PrepareCampaign.

(** ** Invariants of a campaign run *)

Module RunSpec.
Import Campaign.

(** A thread in its loop: every job of its batch went to the executor or
    still waits in the FIFO; [k] results are drained but not yet counted. *)
Definition running_ok (pool : gmap string RateLimiter.t) (w : Worker.t)
    (k : nat) : Prop :=
  let q := Worker.job_queue_manager_for_batch w in
  JobQueue.executor_submitted q ++ JobQueue.job_queue q
    = List.map (Worker.attach_rate_limiter pool) (Worker.job_batch w) /\
  JobQueue.executor_shutdown q = false /\
  JobQueue.is_running q = true /\
  JobQueue.accounted q /\
  JobQueue.total_jobs_submitted_to_q q = length (Worker.job_batch w) /\
  Worker.completed_in_batch (Worker.batch_stats w) + k
    = JobQueue.completed_jobs_count q /\
  Worker.finished_signal w = None /\
  Worker.signal_delivered w = false.

(** A thread that was never told to stop. *)
Definition thread_ok (pool : gmap string RateLimiter.t) (w : Worker.t) : Prop :=
  Worker._is_running_batch_thread w = true /\
  match Worker.at_phase w with
  | Worker.Created =>
      Worker.job_queue_manager_for_batch w
        = JobQueue.init (Worker.max_concurrent_tasks_in_batch w) /\
      Worker.completed_in_batch (Worker.batch_stats w) = 0 /\
      Worker.finished_signal w = None /\
      Worker.signal_delivered w = false
  | Worker.Looping => running_ok pool w 0
  | Worker.Polled rs => running_ok pool w (length rs)
  | Worker.Exited =>
      Worker.submitted w
        = List.map (Worker.attach_rate_limiter pool) (Worker.job_batch w) /\
      exists st, Worker.finished_signal w = Some (true, st) /\
                 Worker.completed_in_batch st = length (Worker.job_batch w)
  end.



(** The slice of the queue a batch worker was given. *)
Definition campaign_batch (w : Worker.t) : list Job :=
  if Worker.for_test_email w then [] else Worker.job_batch w.









End RunSpec.

(** ** A small campaign, used to run the model *)

Module Samples.
Import Prepare Campaign.

Definition sample_job (id : string) : Job :=
  mkJob id ["ann@example.org"] "Hello" (Some "<p>Hi</p>") (Some "Hi") "Prepared"
    [] "appsscript" (Some "main") None
    (Some (id, "ann@example.org", "DataList", "Row 1")).

(** Three prepared jobs, batches of two, one send at a time, a test e-mail
    after every successful send. *)
Definition sample_app : MailerApp :=
  mkApp [sample_job "1"; sample_job "2"; sample_job "3"] 0 [] [] false false
    2 1 0 0 0 0 0 ∅ "Google Apps Script"
    [AppsScriptAccount "main" "me@example.org" "https://script.example/exec" "Me"]
    [] "probe@example.org" 1 [].

Definition sample_system : System := mkSystem sample_app [].


(** Every future is done and every send succeeds. *)
Definition all_done : JobQueue.Future -> bool := fun _ => true.

Definition sent_ok : JobQueue.Future -> future_outcome :=
  fun _ => Returned (Some (mkSendResult true "ok")).

Definition thread_step (wid : nat) : event := WorkerStep wid all_done sent_ok.

(** A whole run: the first batch, a pause and a resume, the second batch. *)
Definition sample_full_run : list event :=
  [thread_step 0; thread_step 0; thread_step 0; TogglePause 2;
   thread_step 0; thread_step 0; thread_step 0; FinishedSignal 0 3;
   TogglePause 4; TimerDispatch 5;
   thread_step 1; thread_step 1; thread_step 1; thread_step 1;
   FinishedSignal 1 6; TimerDispatch 7].



(** The first batch is under way and its first send has succeeded; the
    success signal is still in the event queue of the main thread. *)
Definition sample_before_stop : list event :=
  [Start 1; thread_step 0; thread_step 0; thread_step 0].

(** After the stop: the success signal is delivered and the thread it
    creates runs. *)
Definition sample_after_stop : list event :=
  [PrimarySuccessSignal "0123456789abcdef"; thread_step 1].

(** Stand-ins for the library functions, to run a preparation: only the
    placeholder of the e-mail column is replaced, and an address is
    anything with an at sign. *)
Definition sample_externals : Externals :=
  mkExternals
    (fun d t =>
       match Text.dict_get "email" d with
       | Some v => Text.replace_first "{{email}}" v t
       | None => t
       end)
    (fun _ t => t)
    (Text.contains_char "@"%char)
    Some.

(** Two data rows; the second has no address, and the custom header
    [To:] keeps the row from being skipped early. *)
Definition sample_ui : PrepareCampaign.CampaignUI :=
  PrepareCampaign.mkCampaignUI "Hello" "Me" "{{email}}" (Some "<p>Hi</p>") None
    true
    (PrepareCampaign.DataList ["Email"]
       [[("Email", Some "ann@example.org")]; [("Email", Some "nobody")]])
    (mkHeadersUI true "To: {{email}}").

Definition sample_empty_app : MailerApp := set_queue [] sample_app.

Definition sample_actions : list PrepareCampaign.action :=
  [PrepareCampaign.Prepare sample_ui TagSpec.sample_world;
   PrepareCampaign.Happen (Start 1);
   PrepareCampaign.Happen (thread_step 0);
   PrepareCampaign.Happen (thread_step 0)].


End Samples.

(** ** Statements about the queue manager's histories *)

Module QueueSpec.
Import JobQueue.

Definition is_stop (o : op) : bool :=
  match o with Stop => true | _ => false end.

(** The jobs handed in by the [add_job] calls of a history, in order. *)
Fixpoint added_jobs (ops : list op) : list Job :=
  match ops with
  | [] => []
  | AddJob j :: ops' => j :: added_jobs ops'
  | _ :: ops' => added_jobs ops'
  end.

(** The entries of [active_futures] whose future is done, in the order of
    the dictionary, and the result tuples a poll should return for them. *)
Definition done_pairs (done : Future -> bool) (q : t) : list (Future * Job) :=
  List.filter (fun p => done p.1) (active_futures q).

Definition reported (done : Future -> bool)
    (outcome : Future -> future_outcome) (q : t) : list completed_result :=
  List.map (fun p => result_tuple p.2 (outcome p.1)) (done_pairs done q).

(** The futures in flight are distinct and were all made by the executor. *)
Definition futures_fresh (q : t) : Prop :=
  NoDup (List.map fst (active_futures q)) /\
  Forall (fun f => f < length (executor_submitted q))
         (List.map fst (active_futures q)).

(** A small history: three jobs, two workers, one poll. *)
Definition sample_ops (a b c : Job) : list op :=
  [AddJob a; AddJob b; StartProcessing 2; AddJob c;
   GetCompletedJobs (fun f => Nat.eqb f 0) (fun _ => Returned None)].

End QueueSpec.

(** ** Statements about the histories of a batch thread *)

Module WorkerSpec.
Import Worker.

(** What happens to a thread object: its own thread advances by a step,
    or the main thread calls [stop]. *)
Inductive call :=
| Step (done : JobQueue.Future -> bool)
       (outcome : JobQueue.Future -> future_outcome)
| StopCall.

Definition perform (pool : gmap string RateLimiter.t) (w : t) (c : call) : t :=
  match c with
  | Step done outcome => step pool done outcome w
  | StopCall => stop w
  end.

Definition history (pool : gmap string RateLimiter.t) (cs : list call)
    (w : t) : t :=
  foldl (perform pool) w cs.

Definition stats_add_up (s : BatchStats) : Prop :=
  successful_in_batch s + failed_in_batch s = completed_in_batch s /\
  completed_in_batch s <= total_jobs_in_batch s.

(** Results drained by the last poll that are not counted yet. *)
Definition pending (w : t) : nat :=
  match at_phase w with
  | Polled completed => length completed
  | _ => 0
  end.

(** What every history keeps. *)
Definition sound (w : t) : Prop :=
  let q := job_queue_manager_for_batch w in
  total_jobs_in_batch (batch_stats w) = length (job_batch w) /\
  successful_in_batch (batch_stats w) + failed_in_batch (batch_stats w)
    = completed_in_batch (batch_stats w) /\
  completed_in_batch (batch_stats w) + pending w
    <= JobQueue.completed_jobs_count q /\
  JobQueue.accounted q /\
  JobQueue.total_jobs_submitted_to_q q <= length (job_batch w) /\
  (at_phase w = Created -> JobQueue.total_jobs_submitted_to_q q = 0) /\
  (at_phase w <> Exited -> finished_signal w = None) /\
  forall ok st, finished_signal w = Some (ok, st) -> st = batch_stats w.

(** [n] steps of the thread in which the futures answer the same way. *)
Fixpoint steps (pool : gmap string RateLimiter.t)
    (done : JobQueue.Future -> bool)
    (outcome : JobQueue.Future -> future_outcome) (n : nat) (w : t) : t :=
  match n with
  | O => w
  | S n' => steps pool done outcome n' (step pool done outcome w)
  end.

(** A queue manager at work: it submits, every job is in exactly one of
    its three places, and the executor is busy while jobs wait. *)
Definition progressing (q : JobQueue.t) : Prop :=
  JobQueue.is_running q = true /\
  JobQueue.executor_shutdown q = false /\
  QueueSpec.futures_fresh q /\
  JobQueue.weight q = JobQueue.total_jobs_submitted_to_q q /\
  (JobQueue.job_queue q <> [] -> JobQueue.active_futures q <> []).

End WorkerSpec.

(** ** Statements about texts *)

Module TextSpec.
Import Text Tags.

(** A character that may stand in the content of a tag without ending the
    match or being stripped: no white space, no closing bracket. *)
Definition tag_key_char (c : ascii) : bool :=
  negb (is_space c) && negb (ascii_eqb c "]"%char)
  && negb (ascii_eqb c "010"%char).

(** [CHAR_SETS.get(key, CHAR_SETS['a'])] *)
Definition charset_of (key : string) : string :=
  match CHAR_SETS key with Some cs => cs | None => alnum end.

End TextSpec.

(** ** The pool of rate limiters

    The part of [load_configured_generic_smtp_servers] that brings
    [rate_limiters_pool] in line with the configured servers. The server
    dictionaries come from the file the server dialog writes: the rate and
    the burst are integers, the period is a float; a key may be missing. *)

Module LimiterPool.
Local Open Scope Q_scope.

Record ServerConfig := mkServer {
  server_nickname : option string;
  rate_limit_emails : option Z;
  rate_limit_seconds : option Q;
  server_burst_size : option Z
}.

Definition emails_per_period (c : ServerConfig) : Z :=
  default 10%Z (rate_limit_emails c).

Definition period_seconds (c : ServerConfig) : Q :=
  default 1 (rate_limit_seconds c).

Definition burst_allowance (c : ServerConfig) : Q :=
  inject_Z (default 5%Z (server_burst_size c)).

Definition effective_emails_per_sec (c : ServerConfig) : Q :=
  if (0 <? emails_per_period c)%Z && negb (Qle_bool (period_seconds c) 0)
  then inject_Z (emails_per_period c) / period_seconds c
  else 1000.

(** The assignments made to a limiter that is already in the pool. *)
Definition update_limiter (c : ServerConfig) (limiter : RateLimiter.t)
  : RateLimiter.t :=
  RateLimiter.mk (effective_emails_per_sec c) (burst_allowance c)
    (RateLimiter.tokens limiter) (RateLimiter.last_update limiter).

(** The loop over the configured servers; [time i] is the reading of the
    clock if the limiter of the server at index [i] is created. *)
Fixpoint sync_loop (configs : list ServerConfig) (time : nat -> Q) (i : nat)
    (pool : gmap string RateLimiter.t)
    (configured_server_nicknames_from_file : gset string)
  : gmap string RateLimiter.t * gset string :=
  match configs with
  | [] => (pool, configured_server_nicknames_from_file)
  | server_config_dict :: configs' =>
      match server_nickname server_config_dict with
      | Some nickname =>
          if Text.is_empty nickname
          then sync_loop configs' time (S i) pool
                 configured_server_nicknames_from_file
          else
            let pool' :=
              match pool !! nickname with
              | None =>
                  <[nickname :=
                      RateLimiter.init
                        (effective_emails_per_sec server_config_dict)
                        (burst_allowance server_config_dict) (time i)]> pool
              | Some limiter =>
                  <[nickname := update_limiter server_config_dict limiter]> pool
              end in
            sync_loop configs' time (S i) pool'
              ({[nickname]} ∪ configured_server_nicknames_from_file)
      | None =>
          sync_loop configs' time (S i) pool
            configured_server_nicknames_from_file
      end
  end.

(** The pool after the two loops: the second one deletes the limiters of
    the servers that are no longer configured. *)
Definition sync_rate_limiters (configs : list ServerConfig) (time : nat -> Q)
    (pool : gmap string RateLimiter.t) : gmap string RateLimiter.t :=
  let current_limiter_nicknames_in_pool := dom pool in
  let '(pool1, configured) := sync_loop configs time 0 pool ∅ in
  foldr delete pool1
    (elements (current_limiter_nicknames_in_pool ∖ configured)).

(** The nicknames that name a server. *)
Fixpoint configured_nicknames (configs : list ServerConfig) : list string :=
  match configs with
  | [] => []
  | c :: configs' =>
      match server_nickname c with
      | Some n =>
          if Text.is_empty n then configured_nicknames configs'
          else n :: configured_nicknames configs'
      | None => configured_nicknames configs'
      end
  end.

(** The last configured server with the nickname [n]. *)
Fixpoint last_config (n : string) (configs : list ServerConfig)
  : option ServerConfig :=
  match configs with
  | [] => None
  | c :: configs' =>
      match last_config n configs' with
      | Some c' => Some c'
      | None =>
          match server_nickname c with
          | Some n' =>
              if negb (Text.is_empty n') && String.eqb n n' then Some c else None
          | None => None
          end
      end
  end.

Definition sample_servers : list ServerConfig :=
  [mkServer (Some "relay") (Some 20%Z) (Some 2) (Some 5%Z);
   mkServer (Some "") (Some 1%Z) (Some 1) (Some 1%Z);
   mkServer (Some "backup") None None None].

Definition sample_pool : gmap string RateLimiter.t :=
  {[ "relay" := RateLimiter.mk 1 3 (1 # 2) 7;
     "old" := RateLimiter.mk 1 1 0 0 ]}.

End LimiterPool.

(** ** The control buttons and the statistics of the main window *)

Module Controls.
Import Campaign.
Local Open Scope nat_scope.




(** No batch may be dispatched: the campaign is paused or not active. *)
Definition dispatch_blocked (a : MailerApp) : bool :=
  is_paused_flag a || negb (queue_processing_active a).

(** The events that neither start, resume nor stop the campaign. *)
Definition bystander_event (e : event) : bool :=
  match e with
  | Start _ => false
  | TogglePause _ => false
  | StopAndClear confirm _ => negb confirm
  | _ => true
  end.

(** The batch threads among the threads of the system. *)
Definition batch_threads (s : System) : list Worker.t :=
  List.filter (fun w => negb (Worker.for_test_email w)) (threads s).

(** The jobs of the queue that were handed to batch threads. *)
Definition dispatched_jobs (s : System) : list Job :=
  concat (List.map RunSpec.campaign_batch (threads s)).

(** The statistics of every thread add up and the application has not
    counted more successes than sends. *)
Definition counters_sound (s : System) : Prop :=
  Forall WorkerSpec.sound (threads s) /\
  total_emails_successful_overall (app s)
    <= total_emails_processed_overall (app s).

(** The success rate of [refresh_performance_stats_display] and
    [finalize_overall_queue_processing], in percent. *)
Definition success_rate_overall (a : MailerApp) : Q :=
  (inject_Z (Z.of_nat (total_emails_successful_overall a))
   / inject_Z (Z.of_nat (Nat.max (total_emails_processed_overall a) 1))
   * 100)%Q.

End Controls.

(** ** The dialogs that manage the senders

    [GenericSMTPServerDetailDialog] and [ManageGenericSMTPServersDialog],
    [AccountDetailDialogAppsScript] and [ManageAccountsDialogAppsScript]:
    the validation of a form, the dictionary it gives and the list the
    managing dialog keeps. A form is the content of the widgets when the
    user presses Ok; a form that does not pass [validate_and_accept] is
    never accepted, so the list stays as it is. The selected item of the
    list widget is given by its row; a row without a server (no
    selection, or the placeholder item of the empty list) changes
    nothing. *)

Module Dialogs.
Import Text.

(** [s.endswith(p)] *)
Fixpoint ends_with (p s : string) : bool :=
  String.eqb p s
  || match s with
     | EmptyString => false
     | String _ s' => ends_with p s'
     end.

(** [s.isdigit()] *)
Definition isdigit (s : string) : bool :=
  negb (is_empty s) && all_chars is_digit s.

(** The comparison of two identifiers, [a.lower() == b.lower()]. *)
Definition same_lower (a b : string) : bool := String.eqb (lower a) (lower b).

(** *** Generic SMTP servers *)

Record ServerForm := mkServerForm {
  nickname_input : string;
  host_input : string;
  port_input : string;
  username_input : string;
  password_input : string;
  encryption_combo : string;
  from_address_input : string;
  rate_limit_emails_spinbox : Z;
  rate_limit_seconds_spinbox : Q;
  burst_size_spinbox : Z
}.

(** The dictionary of [get_server_details]. *)
Record Server := mkServerDetails {
  srv_nickname : string;
  srv_host : string;
  srv_port : N;
  srv_username : string;
  srv_password : string;
  srv_encryption : string;
  srv_from_address : string;
  srv_rate_limit_emails : Z;
  srv_rate_limit_seconds : Q;
  srv_burst_size : Z
}.

(** Whether [validate_and_accept] accepts the dialog. *)
Definition server_form_valid (f : ServerForm) : bool :=
  let nickname := strip (nickname_input f) in
  if is_empty nickname then false
  else if is_empty (strip (host_input f)) then false
  else
    let port_str := strip (port_input f) in
    if is_empty port_str || negb (isdigit port_str)
       || negb ((1 <=? int_of_digits port_str)%N
                && (int_of_digits port_str <=? 65535)%N)
    then false
    else if (0 <? rate_limit_emails_spinbox f)%Z
            && Qle_bool (rate_limit_seconds_spinbox f) 0
    then false
    else true.

Definition get_server_details (f : ServerForm) : Server :=
  mkServerDetails (strip (nickname_input f)) (strip (host_input f))
    (if isdigit (strip (port_input f))
     then int_of_digits (strip (port_input f)) else 587%N)
    (strip (username_input f)) (password_input f) (encryption_combo f)
    (strip (from_address_input f))
    (rate_limit_emails_spinbox f) (rate_limit_seconds_spinbox f)
    (burst_size_spinbox f).

(** In edit mode the nickname field shows the nickname of the server and,
    when that is not empty, is read-only. *)
Definition server_edit_form (original : Server) (f : ServerForm) : ServerForm :=
  if is_empty (srv_nickname original) then f
  else mkServerForm (srv_nickname original) (host_input f) (port_input f)
         (username_input f) (password_input f) (encryption_combo f)
         (from_address_input f) (rate_limit_emails_spinbox f)
         (rate_limit_seconds_spinbox f) (burst_size_spinbox f).

Definition add_server (f : ServerForm) (servers : list Server) : list Server :=
  if server_form_valid f then
    let new_server_details := get_server_details f in
    if existsb (fun s => same_lower (srv_nickname s)
                           (srv_nickname new_server_details)) servers
    then servers
    else servers ++ [new_server_details]
  else servers.

(** The loop that assigns [self.servers[i]] at the first match and
    breaks. *)
Fixpoint replace_first_match {A} (p : A -> bool) (new : A) (l : list A)
  : list A :=
  match l with
  | [] => []
  | x :: l' => if p x then new :: l' else x :: replace_first_match p new l'
  end.

Definition edit_server (row : nat) (f : ServerForm) (servers : list Server)
  : list Server :=
  match servers !! row with
  | Some original_server_data =>
      let f' := server_edit_form original_server_data f in
      if server_form_valid f' then
        replace_first_match
          (fun srv => same_lower (srv_nickname srv)
                        (srv_nickname original_server_data))
          (get_server_details f') servers
      else servers
  | None => servers
  end.

Definition remove_server (row : nat) (confirm : bool) (servers : list Server)
  : list Server :=
  match servers !! row with
  | Some server_to_remove_data =>
      if confirm then
        List.filter
          (fun s => negb (same_lower (srv_nickname s)
                            (srv_nickname server_to_remove_data)))
          servers
      else servers
  | None => servers
  end.

Inductive server_op :=
| AddServer (f : ServerForm)
| EditServer (row : nat) (f : ServerForm)
| RemoveServer (row : nat) (confirm : bool).

Definition apply_server_op (servers : list Server) (o : server_op)
  : list Server :=
  match o with
  | AddServer f => add_server f servers
  | EditServer row f => edit_server row f servers
  | RemoveServer row confirm => remove_server row confirm servers
  end.

Definition manage_servers (ops : list server_op) (servers : list Server)
  : list Server :=
  foldl apply_server_op servers ops.

(** What the dialogs keep of a server list. *)
Definition servers_ok (servers : list Server) : Prop :=
  NoDup (List.map (fun s => lower (srv_nickname s)) servers) /\
  Forall (fun s => is_empty (srv_nickname s) = false /\
                   strip (srv_nickname s) = srv_nickname s /\
                   is_empty (srv_host s) = false /\
                   (1 <= srv_port s <= 65535)%N /\
                   ((0 < srv_rate_limit_emails s)%Z ->
                    (0 < srv_rate_limit_seconds s)%Q))
         servers.

(** *** Apps Script accounts *)

Record AccountForm := mkAccountForm {
  acc_nickname_input : string;
  email_input : string;
  web_app_url_input : string;
  sender_display_name_input : string
}.

(** The dictionary of [get_account_details]. *)
Record Account := mkAccount {
  acc_nickname : string;
  acc_email : string;
  acc_web_app_url : string;
  acc_sender_display_name : string
}.

Definition account_form_valid (f : AccountForm) : bool :=
  let email := lower (strip (email_input f)) in
  let url := strip (web_app_url_input f) in
  if is_empty email || negb (contains_char "@"%char email)
     || negb (contains_char "."%char
                (List.last (split_on "@"%char email) EmptyString))
  then false
  else if is_empty url
          || negb (starts_with "https://script.google.com/macros/s/" url)
          || negb (ends_with "/exec" url)
  then false
  else true.

Definition get_account_details (f : AccountForm) : Account :=
  mkAccount (strip (acc_nickname_input f)) (lower (strip (email_input f)))
    (strip (web_app_url_input f)) (strip (sender_display_name_input f)).

(** In edit mode the e-mail field shows the e-mail of the account and is
    read-only. *)
Definition account_edit_form (original : Account) (f : AccountForm)
  : AccountForm :=
  mkAccountForm (acc_nickname_input f) (acc_email original)
    (web_app_url_input f) (sender_display_name_input f).

Definition add_account (f : AccountForm) (accounts : list Account)
  : list Account :=
  if account_form_valid f then
    let new_account_details := get_account_details f in
    if negb (is_empty (acc_nickname new_account_details))
       && existsb (fun acc => same_lower (acc_nickname acc)
                                (acc_nickname new_account_details)) accounts
    then accounts
    else if existsb (fun acc => same_lower (acc_email acc)
                                  (acc_email new_account_details)) accounts
    then accounts
    else accounts ++ [new_account_details]
  else accounts.

Definition edit_account (row : nat) (f : AccountForm) (accounts : list Account)
  : list Account :=
  match accounts !! row with
  | Some original_account_data =>
      let f' := account_edit_form original_account_data f in
      if account_form_valid f' then
        let updated_account_data := get_account_details f' in
        if negb (is_empty (acc_nickname updated_account_data))
           && negb (same_lower (acc_nickname updated_account_data)
                      (acc_nickname original_account_data))
           && existsb
                (fun acc =>
                   same_lower (acc_nickname acc)
                     (acc_nickname updated_account_data)
                   && negb (same_lower (acc_email acc)
                              (acc_email original_account_data)))
                accounts
        then accounts
        else
          replace_first_match
            (fun acc => same_lower (acc_email acc)
                          (acc_email original_account_data))
            updated_account_data accounts
      else accounts
  | None => accounts
  end.

Definition remove_account (row : nat) (confirm : bool)
    (accounts : list Account) : list Account :=
  match accounts !! row with
  | Some account_to_remove_data =>
      if confirm then
        List.filter
          (fun acc => negb (same_lower (acc_email acc)
                              (acc_email account_to_remove_data)))
          accounts
      else accounts
  | None => accounts
  end.

Inductive account_op :=
| AddAccount (f : AccountForm)
| EditAccount (row : nat) (f : AccountForm)
| RemoveAccount (row : nat) (confirm : bool).

Definition apply_account_op (accounts : list Account) (o : account_op)
  : list Account :=
  match o with
  | AddAccount f => add_account f accounts
  | EditAccount row f => edit_account row f accounts
  | RemoveAccount row confirm => remove_account row confirm accounts
  end.

Definition manage_accounts (ops : list account_op) (accounts : list Account)
  : list Account :=
  foldl apply_account_op accounts ops.

(** The nicknames that are given, in lower case. *)
Definition given_nicknames (accounts : list Account) : list string :=
  List.map (fun acc => lower (acc_nickname acc))
    (List.filter (fun acc => negb (is_empty (acc_nickname acc))) accounts).

Definition accounts_ok (accounts : list Account) : Prop :=
  NoDup (List.map (fun acc => lower (acc_email acc)) accounts) /\
  NoDup (given_nicknames accounts) /\
  Forall (fun acc => lower (strip (acc_email acc)) = acc_email acc /\
                     contains_char "@"%char (acc_email acc) = true /\
                     strip (acc_nickname acc) = acc_nickname acc)
         accounts.

End Dialogs.

(** * Proofs *)

(** ** The queue manager: accounting and concurrency bound *)

Section JobQueueFacts.
Import JobQueue.

Lemma pop_length f a j a' :
  pop f a = Some (j, a') -> length a = S (length a').
Proof.
  revert j a'. induction a as [|[g k] a IH]; intros j a'; simpl; [discriminate|].
  destruct (Nat.eqb f g).
  - intros [= <- <-]. reflexivity.
  - destruct (pop f a) as [[j' a'']|]; [|discriminate].
    intros [= <- <-]. simpl. f_equal. eapply IH. reflexivity.
Qed.

Lemma start_loop_weight n q :
  total_jobs_submitted_to_q (start_loop n q) = total_jobs_submitted_to_q q /\
  weight (start_loop n q) <= weight q.
Proof.
  revert q. induction n as [|n IH]; intros q; simpl; [split; lia|].
  destruct (job_queue q) as [|job rest] eqn:Hq; [apply IH|].
  destruct (is_running q); [|apply IH].
  unfold executor_submit; simpl.
  destruct (executor_shutdown q); simpl.
  - unfold weight; simpl. rewrite Hq; simpl. split; lia.
  - match goal with |- context [start_loop n ?x] => destruct (IH x) as [H1 H2] end.
    split; [rewrite H1; reflexivity|].
    etrans; [exact H2|]. unfold weight; simpl. rewrite Hq, length_app; simpl. lia.
Qed.

Lemma drain_weight outcome fs q acc :
  total_jobs_submitted_to_q (drain outcome fs q acc).2 = total_jobs_submitted_to_q q /\
  weight (drain outcome fs q acc).2 <= weight q.
Proof.
  revert q acc. induction fs as [|f fs IH]; intros q acc; simpl; [split; lia|].
  destruct (pop f (active_futures q)) as [[job rest_active]|] eqn:Hpop; [|apply IH].
  apply pop_length in Hpop. simpl.
  destruct (is_running q).
  - destruct (job_queue q) as [|next rest] eqn:Hq.
    + match goal with |- context [drain outcome fs ?x ?a] =>
        destruct (IH x a) as [H1 H2] end.
      split; [rewrite H1; reflexivity|].
      etrans; [exact H2|]. unfold weight; simpl. rewrite Hq, Hpop. simpl. lia.
    + unfold executor_submit; simpl. destruct (executor_shutdown q); simpl.
      * unfold weight; simpl. rewrite Hq, Hpop, length_app. simpl. split; lia.
      * match goal with |- context [drain outcome fs ?x ?a] =>
          destruct (IH x a) as [H1 H2] end.
        split; [rewrite H1; reflexivity|].
        etrans; [exact H2|]. unfold weight; simpl.
        rewrite Hq, Hpop, length_app. simpl. lia.
  - match goal with |- context [drain outcome fs ?x ?a] =>
      destruct (IH x a) as [H1 H2] end.
    split; [rewrite H1; reflexivity|].
    etrans; [exact H2|]. unfold weight; simpl. rewrite Hpop. lia.
Qed.

(** No job is counted as completed unless it was handed in by [add_job]. *)
Lemma accounted_apply q o : accounted q -> accounted (apply q o).
Proof.
  unfold accounted. intros H. destruct o as [j|m|d r| |]; simpl.
  - unfold weight in *; simpl. rewrite length_app; simpl. lia.
  - unfold start_processing.
    match goal with |- context [start_loop ?n ?x] =>
      destruct (start_loop_weight n x) as [H1 H2] end.
    rewrite H1. etrans; [exact H2|]. exact H.
  - unfold get_completed_jobs.
    match goal with |- context [drain r ?fs q ?a] =>
      destruct (drain_weight r fs q a) as [H1 H2] end.
    rewrite H1. etrans; [exact H2|]. exact H.
  - exact H.
  - exact H.
Qed.

Lemma accounted_run ops q : accounted q -> accounted (run ops q).
Proof.
  revert q. induction ops as [|o ops IH]; intros q H; simpl; [exact H|].
  apply IH, accounted_apply, H.
Qed.

Lemma accounted_init w : accounted (init w).
Proof. unfold accounted, weight; simpl; lia. Qed.

Lemma start_loop_active n q :
  length (active_futures (start_loop n q)) <= length (active_futures q) + n.
Proof.
  revert q. induction n as [|n IH]; intros q; simpl; [lia|].
  destruct (job_queue q) as [|job rest]; [etrans; [apply IH|lia]|].
  destruct (is_running q); [|etrans; [apply IH|lia]].
  unfold executor_submit; simpl.
  destruct (executor_shutdown q); simpl; [lia|].
  etrans; [apply IH|]. simpl. rewrite length_app; simpl. lia.
Qed.

(** A poll never raises the number of futures in flight: every new task
    takes the place of a future that was popped. *)
Lemma drain_active outcome fs q acc :
  length (active_futures (drain outcome fs q acc).2) <= length (active_futures q).
Proof.
  revert q acc. induction fs as [|f fs IH]; intros q acc; simpl; [lia|].
  destruct (pop f (active_futures q)) as [[job rest_active]|] eqn:Hpop; [|apply IH].
  apply pop_length in Hpop. simpl.
  destruct (is_running q).
  - destruct (job_queue q) as [|next rest].
    + etrans; [apply IH|]. simpl. lia.
    + unfold executor_submit; simpl. destruct (executor_shutdown q); simpl; [lia|].
      etrans; [apply IH|]. simpl. rewrite length_app; simpl. lia.
  - etrans; [apply IH|]. simpl. lia.
Qed.

Lemma apply_active q o :
  is_start o = false ->
  length (active_futures (apply q o)) <= length (active_futures q).
Proof.
  destruct o as [j|m|d r| |]; simpl; intros Hs; try discriminate; try lia.
  apply drain_active.
Qed.

Lemma run_active ops q :
  forallb (fun o => negb (is_start o)) ops = true ->
  length (active_futures (run ops q)) <= length (active_futures q).
Proof.
  revert q. induction ops as [|o ops IH]; intros q; simpl; [lia|].
  intros [Ho Hops]%andb_prop. etrans; [apply IH, Hops|].
  apply apply_active. destruct (is_start o); [discriminate|reflexivity].
Qed.

Lemma run_add_jobs_active jobs q :
  active_futures (run (map AddJob jobs) q) = active_futures q.
Proof.
  revert q. induction jobs as [|j jobs IH]; intros q; simpl; [reflexivity|].
  rewrite IH. reflexivity.
Qed.

(** C4. For every queue manager reached from a new one by any operations,
    [is_finished()] is true exactly when the internal FIFO is empty, no
    future is active and the completed count equals the number of jobs
    handed in by [add_job]. *)
Theorem is_finished_iff (w : nat) (ops : list op) :
  let q := run ops (init w) in
  is_finished q = true <->
  job_queue q = [] /\ active_futures q = [] /\
  completed_jobs_count q = total_jobs_submitted_to_q q.
Proof.
  intros q. pose proof (accounted_run ops _ (accounted_init w)) as Hacc.
  fold q in Hacc. unfold accounted, weight in Hacc. unfold is_finished.
  split.
  - intros H. apply andb_prop in H as [H Hle]. apply andb_prop in H as [Hq Ha].
    destruct (job_queue q); [|discriminate].
    destruct (active_futures q); [|discriminate].
    apply Nat.leb_le in Hle. simpl in Hacc. repeat split. lia.
  - intros (-> & -> & ->). simpl. apply Nat.leb_refl.
Qed.

(** C7. After [start_processing(worker, max_concurrent_tasks)] on a manager
    that was only filled by [add_job], the number of active futures never
    exceeds [max_concurrent_tasks], whatever the client does next. *)
Theorem active_futures_bounded (w m : nat) (jobs : list Job) (ops : list op) :
  forallb (fun o => negb (is_start o)) ops = true ->
  length (active_futures
            (run ops (start_processing m (run (map AddJob jobs) (init w))))) <= m.
Proof.
  intros Hops. etrans; [apply run_active, Hops|].
  unfold start_processing. etrans; [apply start_loop_active|].
  simpl. rewrite run_add_jobs_active. simpl. lia.
Qed.

Lemma active_futures_bounded_witness :
  length (active_futures
            (run [GetCompletedJobs Samples.all_done Samples.sent_ok;
                  AddJob (Samples.sample_job "4");
                  GetCompletedJobs Samples.all_done Samples.sent_ok]
               (start_processing 2
                  (run (map AddJob [Samples.sample_job "1"; Samples.sample_job "2";
                                    Samples.sample_job "3"])
                     (init 2))))) <= 2.
Proof.
  apply (active_futures_bounded 2 2
           [Samples.sample_job "1"; Samples.sample_job "2"; Samples.sample_job "3"]
           [GetCompletedJobs Samples.all_done Samples.sent_ok;
            AddJob (Samples.sample_job "4");
            GetCompletedJobs Samples.all_done Samples.sent_ok]).
  reflexivity.
Defined.

End JobQueueFacts.

(** ** The token bucket: conservation *)

Section RateLimiterFacts.
Import RateLimiter.
Local Open Scope Q_scope.

Lemma Qnat_S n : Qnat (S n) == Qnat n + 1.
Proof.
  unfold Qnat. rewrite Nat2Z.inj_succ, <- Z.add_1_r, inject_Z_plus. reflexivity.
Qed.

Lemma conserved_init eps burst t0 :
  conserved t0 (Qmax burst 1) (Qmax eps (1 # 10)) 0 (init eps burst t0).
Proof.
  unfold conserved, init; simpl. change (Qnat 0) with 0.
  pose proof (Q.le_max_l burst 1). pose proof (Q.le_max_r burst 1).
  pose proof (Q.le_max_r eps (1 # 10)).
  repeat split; lra.
Qed.

Lemma attempt_last_update now s : last_update (attempt now s).2 = now.
Proof. unfold attempt. destruct (Qle_bool 1 _); reflexivity. Qed.

(** One attempt keeps the invariant; a success is paid for by a token. *)
Lemma attempt_conserved t0 B R n now s :
  conserved t0 B R n s -> last_update s <= now ->
  conserved t0 B R (if (attempt now s).1 then S n else n) (attempt now s).2.
Proof.
  intros (HB & HE & HR & H1 & H2) Hnow. unfold attempt. rewrite HB, HE.
  set (add := (now - last_update s) * R).
  assert (0 <= add) as Hadd by (apply Qmult_le_0_compat; lra).
  pose proof (Q.le_min_r B (tokens s + add)) as Hmin.
  destruct (Qle_bool 1 _) eqn:Hok; simpl; unfold conserved; simpl.
  - apply Qle_bool_iff in Hok. rewrite Qnat_S. unfold add in *.
    repeat split; auto; lra.
  - unfold add in *. repeat split; auto; lra.
Qed.

Lemma successes_cons r rs n :
  (n + successes (r :: rs) = (if r then S n else n) + successes rs)%nat.
Proof. unfold successes; simpl. destruct r; simpl; lia. Qed.

(** The attempts of several threads, in the order the lock lets them in. *)
Lemma attempts_conserved t0 B R nows : forall n s lo,
  conserved t0 B R n s -> last_update s <= lo -> nondecreasing_from lo nows ->
  conserved t0 B R (n + successes (attempts nows s).1) (attempts nows s).2.
Proof.
  induction nows as [|now nows IH]; intros n s lo Hc Hlo Hmono; simpl.
  - unfold successes; simpl. rewrite Nat.add_0_r. exact Hc.
  - destruct Hmono as [Hle Hmono].
    pose proof (attempt_conserved t0 B R n now s Hc ltac:(lra)) as Hc1.
    pose proof (attempt_last_update now s) as Hlast.
    destruct (attempt now s) as [ok s1]; simpl in *.
    specialize (IH _ s1 now Hc1 ltac:(rewrite Hlast; lra) Hmono).
    destruct (attempts nows s1) as [oks s2]; simpl in *.
    rewrite successes_cons. exact IH.
Qed.

(** What one call leaves behind: the invariant with one more success if it
    returned [True], and a clock that is still ahead of the last refill. *)
Lemma acquire_loop_conserved t0 T B R start timeout :
  forall k clock n s lo r s' rest,
  (length clock <= k)%nat ->
  conserved t0 B R n s -> last_update s <= lo -> lo <= t0 + T ->
  nondecreasing_from lo clock -> Forall (fun c => c <= t0 + T) clock ->
  acquire_loop start timeout clock s = Some (r, s', rest) ->
  conserved t0 B R (if r then S n else n) s' /\
  exists lo', last_update s' <= lo' /\ lo' <= t0 + T /\
              nondecreasing_from lo' rest /\ Forall (fun c => c <= t0 + T) rest.
Proof.
  induction k as [|k IH]; intros clock n s lo r s' rest Hk Hc Hlo HloT Hmono Hall.
  - destruct clock; [discriminate|simpl in Hk; lia].
  - destruct clock as [|c clock1]; [discriminate|]. simpl.
    destruct Hmono as [Hc1 Hmono]. inversion Hall as [|? ? HcT Hall1]; subst.
    destruct (Qle_bool timeout (c - start)).
    + intros [= <- <- <-]. split; [exact Hc|].
      exists c. repeat split; auto; lra.
    + destruct clock1 as [|now clock2]; [discriminate|].
      destruct Hmono as [Hnow Hmono]. inversion Hall1 as [|? ? HnowT Hall2]; subst.
      pose proof (attempt_conserved t0 B R n now s Hc ltac:(lra)) as Hc1'.
      pose proof (attempt_last_update now s) as Hlast.
      destruct (attempt now s) as [ok s1]; simpl in *.
      destruct ok.
      * intros [= <- <- <-]. split; [exact Hc1'|].
        exists now. repeat split; auto; rewrite ?Hlast; lra.
      * intros Hrec.
        eapply (IH clock2 n s1 now); eauto; try lia; rewrite ?Hlast; lra.
Qed.

Lemma acquire_all_conserved t0 T B R timeouts : forall clock n s lo rs s' rest,
  conserved t0 B R n s -> last_update s <= lo -> lo <= t0 + T ->
  nondecreasing_from lo clock -> Forall (fun c => c <= t0 + T) clock ->
  acquire_all timeouts clock s = Some (rs, s', rest) ->
  conserved t0 B R (n + successes rs) s' /\ last_update s' <= t0 + T.
Proof.
  induction timeouts as [|timeout timeouts IH];
    intros clock n s lo rs s' rest Hc Hlo HloT Hmono Hall; simpl.
  - intros [= <- <- <-]. unfold successes; simpl. rewrite Nat.add_0_r.
    split; [exact Hc|lra].
  - unfold acquire. destruct clock as [|start clock1]; [discriminate|].
    destruct Hmono as [Hs Hmono]. inversion Hall as [|? ? HsT Hall1]; subst.
    destruct (acquire_loop start timeout clock1 s) as [[[r s1] clock2]|] eqn:Hloop;
      [|discriminate].
    eapply (acquire_loop_conserved t0 T B R start timeout (length clock1) clock1 n s start)
      in Hloop as (Hc1 & lo' & Hlo1 & Hlo1T & Hmono1 & Hall2); eauto; try lra.
    destruct (acquire_all timeouts clock2 s1) as [[[rs' s2] clock3]|] eqn:Hrest;
      [|discriminate].
    intros [= <- <- <-].
    eapply IH in Hrest as [Hc2 Hl2]; eauto.
    split; [|exact Hl2]. rewrite successes_cons. exact Hc2.
Qed.

(** C2. A limiter created at time [t0] with rate argument [eps] and burst
    argument [burst] has rate R = max(eps, 0.1) and capacity
    B = max(burst, 1). Over any sequence of [acquire] calls whose clock
    readings never run backwards and stay within [t0, t0 + T], the number of
    calls that return [True] is at most B + R * T. *)
Theorem acquire_conservation (eps burst t0 T : Q) (timeouts clock : list Q)
    (rs : list bool) (s' : RateLimiter.t) (rest : list Q) :
  0 <= T ->
  nondecreasing_from t0 clock ->
  Forall (fun c => c <= t0 + T) clock ->
  acquire_all timeouts clock (init eps burst t0) = Some (rs, s', rest) ->
  Qnat (successes rs) <= Qmax burst 1 + Qmax eps (1 # 10) * T.
Proof.
  intros HT Hmono Hall Hrun.
  eapply (acquire_all_conserved t0 T _ _ timeouts clock 0 _ t0) in Hrun
    as [(_ & _ & HR & _ & Hn) Hlast]; eauto using conserved_init; simpl; try lra.
  simpl in Hn.
  assert (Qmax eps (1 # 10) * (last_update s' - t0) <= Qmax eps (1 # 10) * T).
  { rewrite !(Qmult_comm (Qmax eps (1 # 10))). apply Qmult_le_compat_r; lra. }
  lra.
Qed.

(** Rate 1, burst 2, three calls within one second: two succeed at once,
    the third after its wait. *)
Lemma acquire_conservation_witness :
  Qnat (successes [true; true; true]) <= Qmax 2 1 + Qmax 1 (1 # 10) * 1.
Proof.
  eapply (acquire_conservation 1 2 0 1 [2; 2; 2]
            [0; 0; 0; 0; 0; 0; 0; 0; 0; 1; 1] [true; true; true]).
  - vm_compute. discriminate.
  - simpl. repeat split; vm_compute; discriminate.
  - repeat constructor; vm_compute; discriminate.
  - vm_compute. reflexivity.
Defined.

End RateLimiterFacts.

(** ** The spintax pass *)

Section SpintaxFacts.
Import Text Spintax.

Lemma ascii_eqb_eq a b : ascii_eqb a b = true <-> a = b.
Proof. apply Ascii.eqb_eq. Qed.

Lemma strip_prefix_Some p : forall s r,
  strip_prefix p s = Some r -> s = p +:+ r.
Proof.
  induction p as [|a p IH]; intros s r; simpl.
  - intros [= ->]. reflexivity.
  - destruct s as [|b s]; [discriminate|].
    destruct (ascii_eqb a b) eqn:E; [|discriminate].
    apply ascii_eqb_eq in E as ->. intros H. apply IH in H. rewrite H. reflexivity.
Qed.

(** Replacing a piece of text by itself changes nothing. *)
Lemma replace_first_same old : forall s, replace_first old old s = s.
Proof.
  induction s as [|c s IH]; simpl.
  - destruct (strip_prefix old "") eqn:E; [|reflexivity].
    symmetry. apply strip_prefix_Some, E.
  - destruct (strip_prefix old (String c s)) eqn:E.
    + symmetry. apply strip_prefix_Some, E.
    + f_equal. exact IH.
Qed.

Lemma spintax_step_no_pipe text w before body rest :
  search text = Some (before, body, rest) ->
  contains_char "|" body = false ->
  spintax_step text w = Some (text, w).
Proof.
  intros Hs Hp. unfold spintax_step. rewrite Hs, Hp, replace_first_same.
  reflexivity.
Qed.

Lemma spintax_loop_no_pipe n text w before body rest :
  search text = Some (before, body, rest) ->
  contains_char "|" body = false ->
  spintax_loop n text w = (text, w).
Proof.
  intros Hs Hp. induction n as [|n IH]; simpl; [reflexivity|].
  rewrite (spintax_step_no_pipe _ _ _ _ _ Hs Hp). exact IH.
Qed.

(** When the leftmost innermost brace pair holds no pipe, every turn of the
    loop finds that same pair again: the whole text comes back as it went
    in, whatever follows the pair. *)
Lemma process_spintax_stuck text w before body rest :
  search text = Some (before, body, rest) ->
  contains_char "|" body = false ->
  process_spintax_in_text text w = (text, w).
Proof.
  intros Hs Hp. unfold process_spintax_in_text.
  destruct (_ || _); [reflexivity|].
  eapply spintax_loop_no_pipe; eauto.
Qed.

(** C3, at the failing input: the choice [{Hello|Hi}] that follows the
    pipe-less pair [{Note}] is never resolved. *)
Theorem spintax_after_plain_braces_unresolved (w : World) :
  process_spintax_in_text "{Note} {Hello|Hi}" w = ("{Note} {Hello|Hi}", w).
Proof.
  eapply process_spintax_stuck; reflexivity.
Qed.

End SpintaxFacts.

(** ** The dynamic-tag pass *)

Section TagFacts.
Import Text Tags TagSpec.

Lemma app_cons c s t : String c s +:+ t = String c (s +:+ t).
Proof. reflexivity. Qed.

Lemma app_nil_l t : "" +:+ t = t.
Proof. reflexivity. Qed.

Lemma app_assoc_s a : forall b c, (a +:+ b) +:+ c = a +:+ (b +:+ c).
Proof.
  induction a as [|x a IH]; intros b c; [reflexivity|].
  rewrite !app_cons, IH. reflexivity.
Qed.

Lemma length_app_s a : forall b,
  String.length (a +:+ b) = (String.length a + String.length b)%nat.
Proof.
  induction a as [|x a IH]; intros b; [reflexivity|].
  rewrite app_cons. simpl. rewrite IH. reflexivity.
Qed.

Lemma app_inv_tail_s t : forall a b, a +:+ t = b +:+ t -> a = b.
Proof.
  induction a as [|x a IH]; intros [|y b] H.
  - reflexivity.
  - apply (f_equal String.length) in H.
    rewrite app_nil_l, app_cons in H. simpl in H. rewrite length_app_s in H. lia.
  - apply (f_equal String.length) in H.
    rewrite app_nil_l, app_cons in H. simpl in H. rewrite length_app_s in H. lia.
  - rewrite !app_cons in H. injection H as -> H. f_equal. apply IH, H.
Qed.

Lemma strip_prefix_app p : forall x r y,
  strip_prefix p x = Some r -> strip_prefix p (x +:+ y) = Some (r +:+ y).
Proof.
  induction p as [|a p IH]; intros x r y; simpl.
  - intros [= ->]. reflexivity.
  - destruct x as [|b x]; [discriminate|]. rewrite app_cons.
    destruct (ascii_eqb a b); [|discriminate]. apply IH.
Qed.

Lemma tag_body_eq s :
  tag_body s =
  match strip_prefix tag_close s with
  | Some rest => Some ("", rest)
  | None =>
      match s with
      | "" => None
      | String c s' =>
          if ascii_eqb c "010" then None
          else match tag_body s' with
               | Some (body, rest) => Some (String c body, rest)
               | None => None
               end
      end
  end.
Proof. destruct s; reflexivity. Qed.

Lemma tag_body_spec : forall s body rest,
  tag_body s = Some (body, rest) -> s = body +:+ tag_close +:+ rest.
Proof.
  induction s as [|c s IH]; intros body rest; rewrite tag_body_eq.
  - discriminate.
  - destruct (strip_prefix tag_close (String c s)) as [r|] eqn:Hp.
    + intros [= <- <-]. apply strip_prefix_Some in Hp. exact Hp.
    + destruct (ascii_eqb c "010"); [discriminate|].
      destruct (tag_body s) as [[b r0]|]; [|discriminate].
      intros [= <- <-]. rewrite app_cons. f_equal. apply IH. reflexivity.
Qed.

(** The content of a match, read back by the replacer's own pattern, is the
    content the outer pattern saw. *)
Lemma tag_body_round : forall s body rest,
  tag_body s = Some (body, rest) ->
  tag_body (body +:+ tag_close) = Some (body, "").
Proof.
  induction s as [|c s IH]; intros body rest; rewrite tag_body_eq.
  - discriminate.
  - destruct (strip_prefix tag_close (String c s)) as [r|] eqn:Hp.
    + intros [= <- <-]. reflexivity.
    + destruct (ascii_eqb c "010") eqn:Hnl; [discriminate|].
      destruct (tag_body s) as [[b r0]|] eqn:Hb; [|discriminate].
      intros [= <- <-]. rewrite app_cons, tag_body_eq.
      destruct (strip_prefix tag_close (String c (b +:+ tag_close))) as [r1|] eqn:Hp1.
      * apply (strip_prefix_app _ _ _ r0) in Hp1.
        rewrite app_cons, app_assoc_s in Hp1.
        apply tag_body_spec in Hb. rewrite <- Hb in Hp1. congruence.
      * rewrite Hnl. erewrite IH by reflexivity. reflexivity.
Qed.

Lemma match_tag_at_content s c :
  match_tag_at s = Some (tag_open +:+ c +:+ tag_close) ->
  tag_content (tag_open +:+ c +:+ tag_close) = Some c.
Proof.
  unfold match_tag_at. destruct (starts_with token_tag s); [discriminate|].
  destruct (strip_prefix tag_open s) as [s'|]; [|discriminate].
  destruct (tag_body s') as [[body rest]|] eqn:Hb; [|discriminate].
  intros [= H]. apply String.app_inj, app_inv_tail_s in H. subst body.
  unfold tag_content.
  change (strip_prefix tag_open (tag_open +:+ c +:+ tag_close))
    with (Some (c +:+ tag_close)).
  cbv beta iota. rewrite (tag_body_round _ _ _ Hb). reflexivity.
Qed.

Lemma eqb_false_of_not_in key name :
  In name basic_tag_names -> ~ recognized key -> String.eqb key name = false.
Proof.
  intros Hin Hnot. apply String.eqb_neq. intros ->. apply Hnot. left. exact Hin.
Qed.

Lemma all_chars_nalus_1 c : is_nalus c = true ->
  nalus_charset (String c "").
Proof. intros H. split; [left; reflexivity|]. simpl. rewrite H. reflexivity. Qed.

Lemma all_chars_nalus_2 c d : is_nalus c = true -> is_nalus d = true ->
  nalus_charset (String c (String d "")).
Proof.
  intros H1 H2. split; [right; reflexivity|]. simpl. rewrite H1, H2. reflexivity.
Qed.

Lemma parse_length_sound kind cs rest k c n :
  parse_length kind cs rest = Some (k, c, n) ->
  k = kind /\ c = cs /\
  exists ds, rest = "_" +:+ ds /\ is_empty ds = false /\
             all_chars is_digit ds = true /\ n = int_of_digits ds.
Proof.
  unfold parse_length. destruct rest as [|u ds]; [discriminate|].
  destruct (ascii_eqb u "_") eqn:Hu; [|discriminate].
  destruct (is_empty ds) eqn:He; [discriminate|].
  destruct (all_chars is_digit ds) eqn:Hd; [|discriminate].
  simpl. intros [= <- <- <-]. apply ascii_eqb_eq in Hu as ->.
  repeat split; eauto.
Qed.

(** What the pattern of the variable-length tags accepts. *)
Lemma parse_var_len_sound key kind cs n :
  parse_var_len key = Some (kind, cs, n) ->
  exists ds, key = kind +:+ cs +:+ "_" +:+ ds /\
    (kind = "rnd" \/ kind = "bnd") /\ nalus_charset cs /\
    is_empty ds = false /\ all_chars is_digit ds = true /\
    n = int_of_digits ds.
Proof.
  unfold parse_var_len.
  destruct key as [|k1 [|k2 [|k3 rest]]]; try discriminate.
  destruct (String.eqb _ "rnd" || String.eqb _ "bnd") eqn:Hk; [|discriminate].
  assert (String k1 (String k2 (String k3 "")) = "rnd" \/
          String k1 (String k2 (String k3 "")) = "bnd") as Hkind.
  { apply orb_prop in Hk as [H|H]; apply String.eqb_eq in H; auto. }
  destruct rest as [|c1 rest1]; [discriminate|].
  destruct (is_nalus c1) eqn:H1; [|discriminate].
  destruct rest1 as [|c2 rest2]; [discriminate|].
  destruct (is_nalus c2) eqn:H2.
  - intros (-> & -> & ds & -> & He & Hd & ->)%parse_length_sound.
    exists ds. split; [reflexivity|]. split; [exact Hkind|].
    split; [apply all_chars_nalus_2; assumption|]. auto.
  - intros (-> & -> & ds & Hr & He & Hd & ->)%parse_length_sound.
    exists ds. rewrite Hr. split; [reflexivity|]. split; [exact Hkind|].
    split; [apply all_chars_nalus_1; assumption|]. auto.
Qed.

Lemma basic_tag_names_eqb key :
  ~ recognized key ->
  String.eqb key "ide" = false /\ String.eqb key "date" = false /\
  String.eqb key "tag" = false /\ String.eqb key "rnd" = false /\
  String.eqb key "fromname" = false /\ String.eqb key "subject" = false /\
  String.eqb key "to" = false /\ String.eqb key "name" = false /\
  String.eqb key "smtp" = false /\ String.eqb key "smtp_name" = false.
Proof.
  intros H. repeat split; apply eqb_false_of_not_in; auto; simpl; tauto.
Qed.

(** C6, amended. An occurrence {{[c]}} found by the tag pattern is replaced
    by itself, and neither the cache nor the environment changes, unless
    its content c, with the surrounding white space removed, is one of the
    ten named generators or reads rnd<cs>_<N> or bnd<cs>_<N> with <cs> any
    one or two letters among n, a, l, u, s and N a decimal number in
    (0, 1024]. *)
Theorem unrecognized_tag_left_unchanged (ctx : list (string * string))
    (s c : string) (st : ResolveState) :
  match_tag_at s = Some (tag_open +:+ c +:+ tag_close) ->
  ~ recognized (strip c) ->
  let r := dynamic_tag_replacer_func ctx (tag_open +:+ c +:+ tag_close) st in
  r.1 = tag_open +:+ c +:+ tag_close /\
  boundary_tag_cache r.2 = boundary_tag_cache st /\
  world r.2 = world st.
Proof.
  intros Hm Hnot r. subst r. unfold dynamic_tag_replacer_func.
  change (String.eqb (tag_open +:+ c +:+ tag_close) token_tag) with false.
  cbv beta iota. rewrite (match_tag_at_content _ _ Hm).
  destruct (basic_tag_names_eqb _ Hnot)
    as (-> & -> & -> & -> & -> & -> & -> & -> & -> & ->).
  destruct (parse_var_len (strip c)) as [[[kind cs] n]|] eqn:Hp;
    [|repeat split].
  destruct ((0 <? n)%N && (n <=? 1024)%N) eqn:Hn; [|repeat split].
  exfalso. apply Hnot. right.
  apply parse_var_len_sound in Hp as (ds & Hkey & Hkind & Hcs & He & Hd & ->).
  apply andb_prop in Hn as [H0 H1].
  apply N.ltb_lt in H0. apply N.leb_le in H1.
  exists kind, cs, ds. split; [exact Hkey|]. split; [exact Hkind|].
  split; [exact Hcs|]. auto.
Qed.

Lemma rndnn_not_listed : ~ recognized_as_listed "rndnn_5".
Proof.
  intros [Hin|(kind & cs & ds & Hkey & Hkind & Hcs & _)].
  - simpl in Hin. intuition discriminate.
  - simpl in Hcs.
    destruct Hkind as [-> | ->];
      repeat (destruct Hcs as [<- | Hcs]; [discriminate Hkey|]);
      destruct Hcs.
Qed.

(** C6 as stated fails: rndnn_5 is not a generator of the listed family,
    yet the tag is replaced by five random characters. *)
Lemma listed_family_counterexample :
  ~ unrecognized_left_unchanged recognized_as_listed (fun c => c).
Proof.
  intros H.
  specialize (H [] "{{[rndnn_5]}}" "rndnn_5" sample_state eq_refl rndnn_not_listed).
  vm_compute in H. discriminate H.
Qed.

Lemma hello_not_recognized : ~ recognized "hello".
Proof.
  intros [Hin|(kind & cs & ds & Hkey & Hkind & _)].
  - simpl in Hin. intuition discriminate.
  - destruct Hkind as [-> | ->]; unfold String.append in Hkey;
      simpl in Hkey; discriminate Hkey.
Qed.

Lemma unrecognized_tag_left_unchanged_witness :
  let r := dynamic_tag_replacer_func [] "{{[ hello ]}}" sample_state in
  r.1 = "{{[ hello ]}}" /\
  boundary_tag_cache r.2 = boundary_tag_cache sample_state /\
  world r.2 = world sample_state.
Proof.
  apply (unrecognized_tag_left_unchanged [] "{{[ hello ]}} and more" " hello "
           sample_state).
  - reflexivity.
  - exact hello_not_recognized.
Defined.

End TagFacts.

(** ** The boundary-tag cache *)

Section CacheFacts.
Import Text Tags TagSpec Prepare.

Lemma first_generated_snoc log o :
  first_generated log ->
  (is_boundary_tag (occ_tag o) = true ->
   (forall o', In o' log -> occ_tag o' <> occ_tag o) -> occ_cached o = false) ->
  first_generated (log ++ [o]).
Proof.
  intros Hlog Ho l1 x l2 Heq Hb Hfirst.
  destruct l2 as [|y l2 _] using rev_ind.
  - apply app_inj_tail in Heq as [-> ->]. auto.
  - rewrite app_comm_cons, app_assoc in Heq.
    apply app_inj_tail in Heq as [-> _]. eapply Hlog; eauto.
Qed.

Lemma cache_invariant_empty w : cache_invariant (mkResolveState ∅ w []).
Proof.
  split; [|split]; simpl.
  - intros o [].
  - intros t [v Hv]. rewrite lookup_empty in Hv. discriminate.
  - intros [|x l1] o l2 H; discriminate H.
Qed.

(** A boundary tag: read back when the cache has it, generated and stored
    when it has not. *)
Lemma boundary_value_invariant full n cs st :
  is_boundary_tag full = true ->
  cache_invariant st -> cache_invariant (boundary_value full n cs st).2.
Proof.
  intros Hb (H1 & H2 & H3). unfold boundary_value.
  destruct (boundary_tag_cache st !! full) as [v|] eqn:Hc.
  - simpl. split; [|split]; simpl.
    + intros o [Ho|[<-|[]]]%in_app_or; simpl; auto.
    + intros t Ht. destruct (H2 t Ht) as (o & Ho & <-).
      exists o. split; [apply in_or_app; auto|reflexivity].
    + apply first_generated_snoc; [exact H3|]. simpl. intros _ Hfirst.
      destruct (H2 full) as (o & Ho & Heq); [eauto|].
      exfalso. eapply Hfirst; eauto.
  - destruct (generate_random_string n cs (world st)) as [v w'].
    split; [|split]; simpl.
    + intros o [Ho|[<-|[]]]%in_app_or Hbo; simpl.
      * rewrite lookup_insert_ne; [auto|].
        intros Heq. specialize (H1 o Ho Hbo). rewrite <- Heq in H1. congruence.
      * apply lookup_insert_eq.
    + intros t Ht. destruct (decide (full = t)) as [<-|Hne].
      * exists (mkOccurrence full v false).
        split; [apply in_or_app; right; left; reflexivity|reflexivity].
      * rewrite lookup_insert_ne in Ht by exact Hne.
        destruct (H2 t Ht) as (o & Ho & <-).
        exists o. split; [apply in_or_app; auto|reflexivity].
    + apply first_generated_snoc; [exact H3|]. reflexivity.
Qed.

(** Any other tag leaves the cache alone. *)
Lemma other_value_invariant full v w' st :
  is_boundary_tag full = false ->
  cache_invariant st ->
  cache_invariant
    (mkResolveState (boundary_tag_cache st) w'
       (occurrences st ++ [mkOccurrence full v false])).
Proof.
  intros Hb (H1 & H2 & H3). split; [|split]; simpl.
  - intros o [Ho|[<-|[]]]%in_app_or Hbo; simpl in *; [auto|congruence].
  - intros t Ht. destruct (H2 t Ht) as (o & Ho & <-).
    exists o. split; [apply in_or_app; auto|reflexivity].
  - apply first_generated_snoc; [exact H3|]. reflexivity.
Qed.

Lemma fresh_value_shape full gen st :
  exists v w', fresh_value full gen st =
    (v, mkResolveState (boundary_tag_cache st) w'
          (occurrences st ++ [mkOccurrence full v false])).
Proof. unfold fresh_value. destruct (gen (world st)) as [v w']. eauto. Qed.

Lemma plain_value_shape full value st :
  exists v w', plain_value full value st =
    (v, mkResolveState (boundary_tag_cache st) w'
          (occurrences st ++ [mkOccurrence full v false])).
Proof. unfold plain_value, record_occurrence. eauto. Qed.

(** The replacer goes through the cache exactly for the boundary tags. *)
Lemma replacer_cases ctx full st :
  (is_boundary_tag full = true /\
   exists n cs, dynamic_tag_replacer_func ctx full st = boundary_value full n cs st)
  \/
  (is_boundary_tag full = false /\
   exists v w', dynamic_tag_replacer_func ctx full st =
     (v, mkResolveState (boundary_tag_cache st) w'
           (occurrences st ++ [mkOccurrence full v false]))).
Proof.
  unfold dynamic_tag_replacer_func, is_boundary_tag.
  destruct (String.eqb full token_tag); [left; split; eauto|].
  destruct (tag_content full) as [content|];
    [|right; split; [reflexivity|apply plain_value_shape]].
  simpl.
  repeat match goal with
  | |- context [if String.eqb (strip content) ?name then _ else _] =>
      let E := fresh "E" in
      destruct (String.eqb (strip content) name) eqn:E;
      [apply String.eqb_eq in E; rewrite E; right;
       split; [reflexivity|first [apply fresh_value_shape|apply plain_value_shape]]|]
  end.
  destruct (parse_var_len (strip content)) as [[[kind cs] n]|];
    [|right; split; [reflexivity|apply plain_value_shape]].
  destruct (String.eqb kind "bnd"), ((0 <? n)%N), ((n <=? 1024)%N); simpl;
    first [left; split; [reflexivity|eauto]
          |right; split; [reflexivity|
             first [apply fresh_value_shape|apply plain_value_shape]]].
Qed.

Lemma replacer_invariant ctx full st :
  cache_invariant st -> cache_invariant (dynamic_tag_replacer_func ctx full st).2.
Proof.
  intros Hinv.
  destruct (replacer_cases ctx full st) as [[Hb (n & cs & ->)]|[Hb (v & w' & ->)]].
  - apply boundary_value_invariant; assumption.
  - apply other_value_invariant; assumption.
Qed.

Lemma sub_tags_invariant ctx : forall s skip st,
  cache_invariant st -> cache_invariant (sub_tags ctx skip s st).2.
Proof.
  induction s as [|c s IH]; intros skip st Hinv; simpl; [exact Hinv|].
  destruct skip as [|k]; [|apply IH, Hinv].
  destruct (match_tag_at (String c s)) as [full|].
  - pose proof (replacer_invariant ctx full st Hinv) as H1.
    destruct (dynamic_tag_replacer_func ctx full st) as [v st1]. simpl in H1.
    specialize (IH (String.length full - 1)%nat st1 H1).
    destruct (sub_tags ctx _ s st1) as [out st2]. exact IH.
  - specialize (IH 0%nat st Hinv).
    destruct (sub_tags ctx 0 s st) as [out st1]. exact IH.
Qed.

Lemma resolve_field_invariant ext template row ctx st :
  cache_invariant st -> cache_invariant (resolve_field ext template row ctx st).2.
Proof.
  intros Hinv. unfold resolve_field, _resolve_all_placeholders_and_tags.
  match goal with |- context [sub_tags ctx 0 ?t st] =>
    pose proof (sub_tags_invariant ctx t 0%nat st Hinv) as H;
    destruct (sub_tags ctx 0 t st) as [t' st1] end.
  unfold spintax_in_state.
  destruct (Spintax.process_spintax_in_text t' (world st1)) as [t'' w'].
  exact H.
Qed.

Lemma resolve_headers_invariant ext row ctx : forall lines acc st,
  cache_invariant st ->
  cache_invariant (resolve_headers ext lines row ctx acc st).2.
Proof.
  induction lines as [|line lines IH]; intros acc st Hinv; simpl; [exact Hinv|].
  destruct (split_once ":" (strip line)) as [[name value]|]; [|apply IH, Hinv].
  pose proof (resolve_field_invariant ext (strip value) row ctx st Hinv) as H.
  destruct (resolve_field ext (strip value) row ctx st) as [v st1].
  apply IH, H.
Qed.

Lemma stable_of_invariant st : cache_invariant st -> stable (occurrences st).
Proof.
  intros (H1 & _ & _) o1 o2 Ho1 Ho2 Heq Hb.
  pose proof (H1 o1 Ho1 Hb) as E1.
  rewrite Heq in Hb. pose proof (H1 o2 Ho2 Hb) as E2.
  rewrite Heq in E1. congruence.
Qed.

Lemma first_generated_nil : first_generated [].
Proof. intros [|x l1] o l2 H; discriminate H. Qed.

Lemma stable_nil : stable [].
Proof. intros o1 o2 []. Qed.

(** The occurrences a job reports are those of a state that kept the cache
    invariant from the empty cache on. *)
Lemma create_job_invariant ext to subj from html plain row method cfg ui w :
  let log := (create_fully_prepared_email_job ext to subj from html plain row
                method cfg ui w).2 in
  log = [] \/ exists st, cache_invariant st /\ log = occurrences st.
Proof.
  unfold create_fully_prepared_email_job.
  destruct (fresh_uuid w) as [jid w1].
  destruct cfg as [cfg|]; [|left; reflexivity].
  right.
  pose proof (cache_invariant_empty w1) as H0.
  repeat match goal with
  | H : cache_invariant ?st
    |- context [resolve_field ext ?t ?r ?c ?st] =>
      let H' := fresh "H" in
      pose proof (resolve_field_invariant ext t r c st H) as H';
      destruct (resolve_field ext t r c st) as [? ?]; simpl in H'
  | |- context [match ?o with Some _ => _ | None => _ end] =>
      match type of o with option string => destruct o end
  | |- context [if is_empty ?x then _ else _] => destruct (is_empty x)
  | |- context [if truthy ?x then _ else _] => destruct (truthy x)
  | |- context [if enable_custom_headers ui then _ else _] =>
      destruct (enable_custom_headers ui)
  | H : cache_invariant ?st
    |- context [resolve_headers ext ?l ?r ?c ?a ?st] =>
      let H' := fresh "H" in
      pose proof (resolve_headers_invariant ext r c l a st H) as H';
      destruct (resolve_headers ext l r c a st) as [? ?]; simpl in H'
  end; simpl; eauto.
Qed.

(** C5. Within one call of [create_fully_prepared_email_job], all
    occurrences of one boundary tag, in whatever field, were replaced by
    the same string; and the first occurrence of every boundary tag was
    generated during the call, never read from a cache: the cache of a job
    starts empty, so no value comes from another job. *)
Theorem boundary_tags_stable_within_job (ext : Externals)
    (initial_to_emails_list : list string)
    (subject_template from_name_template : string)
    (body_html_template body_plain_template : option string)
    (row_data_dict : list (string * string)) (send_method_type : string)
    (sender_account_config : option SenderConfig) (ui : HeadersUI) (w : World) :
  let log := (create_fully_prepared_email_job ext initial_to_emails_list
                subject_template from_name_template body_html_template
                body_plain_template row_data_dict send_method_type
                sender_account_config ui w).2 in
  stable log /\ first_generated log.
Proof.
  intros log.
  destruct (create_job_invariant ext initial_to_emails_list subject_template
              from_name_template body_html_template body_plain_template
              row_data_dict send_method_type sender_account_config ui w)
    as [H|(st & Hinv & H)]; fold log in H; rewrite H.
  - split; [apply stable_nil|apply first_generated_nil].
  - split; [apply stable_of_invariant, Hinv|apply Hinv].
Qed.

End CacheFacts.

(** ** A batch thread that is not stopped submits its batch once *)

Section WorkerFacts.
Import JobQueue RunSpec.
Local Open Scope nat_scope.

(** What the executor was given and what still waits make up the same
    list before and after [start_processing]'s loop. *)
Lemma start_loop_conserve n : forall q,
  executor_shutdown q = false ->
  let q' := start_loop n q in
  executor_submitted q' ++ job_queue q' = executor_submitted q ++ job_queue q /\
  executor_shutdown q' = false /\ is_running q' = is_running q /\
  completed_jobs_count q' = completed_jobs_count q /\
  total_jobs_submitted_to_q q' = total_jobs_submitted_to_q q.
Proof.
  induction n as [|n IH]; intros q Hs; simpl; [repeat split; auto|].
  pose proof (IH q Hs) as Hsame. simpl in Hsame.
  destruct (job_queue q) as [|job rest] eqn:Hq; [exact Hsame|].
  destruct (is_running q) eqn:Hr; [|exact Hsame]. clear Hsame.
  unfold executor_submit; simpl. rewrite Hs.
  match goal with |- context [start_loop n ?x] =>
    destruct (IH x) as (H1 & H2 & H3 & H4 & H5); [first [exact Hs|reflexivity]|] end.
  simpl in *. rewrite H1, H2, H3, H4, H5, <- app_assoc. simpl. repeat split.
  exact Hr.
Qed.

Lemma drain_conserve outcome fs : forall q acc,
  executor_shutdown q = false ->
  let r := drain outcome fs q acc in
  executor_submitted r.2 ++ job_queue r.2 = executor_submitted q ++ job_queue q /\
  executor_shutdown r.2 = false /\ is_running r.2 = is_running q /\
  completed_jobs_count r.2 + length acc = completed_jobs_count q + length r.1 /\
  total_jobs_submitted_to_q r.2 = total_jobs_submitted_to_q q.
Proof.
  induction fs as [|f fs IH]; intros q acc Hs; simpl; [repeat split; auto|].
  destruct (pop f (active_futures q)) as [[job rest_active]|]; [|apply IH, Hs].
  simpl. destruct (is_running q) eqn:Hr.
  - destruct (job_queue q) as [|next rest] eqn:Hq.
    + match goal with |- context [drain outcome fs ?x ?a] =>
        destruct (IH x a) as (H1 & H2 & H3 & H4 & H5); [first [exact Hs|reflexivity]|] end.
      simpl in *. rewrite H1, H2, H3, H5, Hq. repeat split; auto.
      rewrite length_app in H4. simpl in H4. lia.
    + unfold executor_submit; simpl. rewrite Hs.
      match goal with |- context [drain outcome fs ?x ?a] =>
        destruct (IH x a) as (H1 & H2 & H3 & H4 & H5); [first [exact Hs|reflexivity]|] end.
      simpl in *. rewrite H1, H2, H3, H5, <- app_assoc. simpl.
      repeat split; auto. rewrite length_app in H4. simpl in H4. lia.
  - match goal with |- context [drain outcome fs ?x ?a] =>
      destruct (IH x a) as (H1 & H2 & H3 & H4 & H5); [first [exact Hs|reflexivity]|] end.
    simpl in *. rewrite H1, H2, H3, H5. repeat split; auto.
    rewrite length_app in H4. simpl in H4. lia.
Qed.

Lemma add_jobs_spec (f : Job -> Job) jobs : forall q,
  let q' := foldl (fun q j => add_job (f j) q) q jobs in
  job_queue q' = job_queue q ++ List.map f jobs /\
  executor_submitted q' = executor_submitted q /\
  executor_shutdown q' = executor_shutdown q /\
  active_futures q' = active_futures q /\
  completed_jobs_count q' = completed_jobs_count q /\
  total_jobs_submitted_to_q q' = total_jobs_submitted_to_q q + length jobs.
Proof.
  induction jobs as [|j jobs IH]; intros q; simpl.
  - rewrite app_nil_r. repeat split; lia.
  - destruct (IH (add_job (f j) q)) as (H1 & H2 & H3 & H4 & H5 & H6).
    rewrite H1, H2, H3, H4, H5, H6. simpl. rewrite <- app_assoc. simpl.
    repeat split; lia.
Qed.

Lemma count_results_completed rs : forall s,
  Worker.completed_in_batch (foldl (fun s r => Worker.count_result r s) s rs)
  = Worker.completed_in_batch s + length rs.
Proof.
  induction rs as [|[[j r] e] rs IH]; intros s; simpl; [lia|].
  rewrite IH. destruct e as [e|]; [simpl; lia|].
  destruct r as [r|]; [|simpl; lia]. destruct (success r); simpl; lia.
Qed.

Lemma is_finished_spec q :
  accounted q -> is_finished q = true ->
  job_queue q = [] /\ completed_jobs_count q = total_jobs_submitted_to_q q.
Proof.
  unfold accounted, weight, is_finished. intros Hacc H.
  apply andb_prop in H as [H Hle]. apply andb_prop in H as [Hq Ha].
  destruct (job_queue q); [|discriminate]. apply Nat.leb_le in Hle.
  simpl in Hacc. split; [reflexivity|lia].
Qed.

Lemma step_job_batch pool done outcome w :
  Worker.job_batch (Worker.step pool done outcome w) = Worker.job_batch w.
Proof.
  unfold Worker.step, Worker.run_setup.
  destruct (Worker.at_phase w); simpl; try reflexivity.
  - destruct (Worker.job_batch w) eqn:Hb; simpl; [exact Hb|].
    destruct (Worker._is_running_batch_thread w); simpl; exact Hb.
  - destruct (Worker._is_running_batch_thread w); [|reflexivity].
    destruct (is_finished _); [reflexivity|].
    destruct (get_completed_jobs _ _ _); reflexivity.
  - destruct (Worker._is_running_batch_thread w); reflexivity.
Qed.

(** A step of a thread that was not told to stop keeps it in order. *)
Lemma step_thread_ok pool done outcome w :
  thread_ok pool w -> thread_ok pool (Worker.step pool done outcome w).
Proof.
  intros [Hrun Hph]. unfold Worker.step.
  destruct (Worker.at_phase w) as [| |rs|] eqn:Hphase.
  - (* Created *)
    destruct Hph as (Hq & Hc & Hf & Hd).
    unfold Worker.run_setup. destruct (Worker.job_batch w) as [|j js] eqn:Hb.
    + unfold Worker.exit, thread_ok, Worker.submitted; simpl.
      rewrite Hq, Hb. simpl. repeat split; eauto.
    + rewrite Hrun, <- Hb.
      destruct (add_jobs_spec (Worker.attach_rate_limiter pool) (Worker.job_batch w)
                  (Worker.job_queue_manager_for_batch w))
        as (A1 & A2 & A3 & A4 & A5 & A6).
      rewrite Hq in A1, A2, A3, A4, A5, A6. simpl in A1, A2, A3, A4, A5, A6.
      remember (foldl _ (init _) (Worker.job_batch w)) as q1 eqn:Hq1.
      rewrite Hq, <- Hq1.
      assert (accounted q1) as Hacc1.
      { unfold accounted, weight. rewrite A1, A4, A5, A6, length_map. simpl. lia. }
      pose proof (accounted_apply q1
                    (StartProcessing (Worker.max_concurrent_tasks_in_batch w)) Hacc1)
        as Hacc.
      destruct (start_loop_conserve
                  (Nat.min (Worker.max_concurrent_tasks_in_batch w)
                     (length (job_queue (set_is_running true q1))))
                  (set_is_running true q1)) as (S1 & S2 & S3 & S4 & S5).
      { simpl. exact A3. }
      simpl in Hacc. unfold start_processing in *.
      simpl in S1, S2, S3, S4, S5, Hacc.
      unfold thread_ok, running_ok, Worker.with_manager. simpl.
      split; [exact Hrun|].
      split; [rewrite S1, A1, A2; reflexivity|].
      split; [exact S2|]. split; [exact S3|]. split; [exact Hacc|].
      split; [rewrite S5, A6; reflexivity|].
      split; [rewrite S4, A5, Hc; reflexivity|].
      split; assumption.
  - (* Looping *)
    destruct Hph as (H1 & H2 & H3 & H4 & H5 & H6 & H7 & H8).
    rewrite Hrun.
    destruct (is_finished (Worker.job_queue_manager_for_batch w)) eqn:Hfin.
    + destruct (is_finished_spec _ H4 Hfin) as [Hq Hc].
      unfold Worker.exit, thread_ok, Worker.submitted; simpl.
      rewrite Hq, app_nil_r in H1.
      repeat split; eauto. eexists. split; [reflexivity|]. lia.
    + unfold get_completed_jobs.
      match goal with |- context [drain outcome ?fs ?q ?a] =>
        pose proof (drain_conserve outcome fs q a H2) as (D1 & D2 & D3 & D4 & D5);
        pose proof (drain_weight outcome fs q a) as [_ Dw];
        destruct (drain outcome fs q a) as [completed q'] end.
      simpl in D1, D2, D3, D4, D5, Dw.
      unfold thread_ok, running_ok, Worker.with_manager. simpl.
      split; [exact Hrun|].
      split; [rewrite D1; exact H1|].
      split; [exact D2|]. split; [rewrite D3; exact H3|].
      split; [unfold accounted in *; rewrite D5; lia|].
      split; [rewrite D5; exact H5|].
      split; [lia|]. split; assumption.
  - (* Polled *)
    destruct Hph as (H1 & H2 & H3 & H4 & H5 & H6 & H7 & H8).
    rewrite Hrun. unfold thread_ok, running_ok; simpl.
    rewrite count_results_completed. repeat split; auto. lia.
  - (* Exited *)
    unfold thread_ok. rewrite Hphase. auto.
Qed.



Lemma step_for_test_email pool done outcome w :
  Worker.for_test_email (Worker.step pool done outcome w)
  = Worker.for_test_email w.
Proof.
  unfold Worker.step, Worker.run_setup.
  destruct (Worker.at_phase w); simpl; try reflexivity.
  - destruct (Worker.job_batch w); simpl; [reflexivity|].
    destruct (Worker._is_running_batch_thread w); reflexivity.
  - destruct (Worker._is_running_batch_thread w); [|reflexivity].
    destruct (is_finished _); [reflexivity|].
    destruct (get_completed_jobs _ _ _); reflexivity.
  - destruct (Worker._is_running_batch_thread w); reflexivity.
Qed.


End WorkerFacts.

(** ** A campaign run: every job is dispatched once *)

Section RunFacts.
Import Campaign RunSpec.
Local Open Scope nat_scope.





Lemma campaign_batch_same w w' :
  Worker.job_batch w' = Worker.job_batch w ->
  Worker.for_test_email w' = Worker.for_test_email w ->
  campaign_batch w' = campaign_batch w.
Proof. unfold campaign_batch. intros -> ->. reflexivity. Qed.








Lemma thread_ok_init pool batch m b : thread_ok pool (Worker.init batch m b).
Proof. unfold thread_ok, Worker.init; simpl. repeat split. Qed.






Lemma stop_declined now s :
  action_stop_queue_processing_and_clear false now s = s.
Proof.
  unfold action_stop_queue_processing_and_clear.
  destruct (nothing_to_stop (app s)); reflexivity.
Qed.

Lemma system_eta s : mkSystem (app s) (threads s) = s.
Proof. destruct s; reflexivity. Qed.

















(** Dispatching touches neither the counters nor the start time. *)
Lemma dispatch_counters now s :
  let s' := dispatch_next_email_batch_to_worker now s in
  total_emails_processed_overall (app s') = total_emails_processed_overall (app s) /\
  total_emails_successful_overall (app s') = total_emails_successful_overall (app s) /\
  overall_processing_start_time (app s') = overall_processing_start_time (app s).
Proof.
  destruct s as [a ths]. unfold dispatch_next_email_batch_to_worker. simpl.
  repeat match goal with
         | |- context [if ?b then _ else _] => destruct b
         end; simpl; repeat split.
Qed.





End RunFacts.

(** ** A confirmed stop *)

Section StopFacts.
Import Campaign RunSpec.
Local Open Scope nat_scope.






Lemma stop_idempotent w : Worker.stop (Worker.stop w) = Worker.stop w.
Proof. reflexivity. Qed.









(** The threads after the loop that signals the workers to stop. *)
Lemma stop_loop_threads l : forall s,
  let s' := foldl (fun s wid => update_thread wid Worker.stop s) s l in
  app s' = app s /\
  forall i w', threads s' !! i = Some w' ->
    exists w, threads s !! i = Some w /\
      ((In i l /\ w' = Worker.stop w) \/ (~ In i l /\ w' = w)).
Proof.
  induction l as [|x l IH]; intros s; simpl.
  - split; [reflexivity|]. intros i w' Hw. exists w'. tauto.
  - destruct (IH (update_thread x Worker.stop s)) as [Ha Ht].
    split.
    { rewrite Ha. unfold update_thread.
      destruct (threads s !! x); reflexivity. }
    intros i w' Hw. destruct (Ht i w' Hw) as (w1 & Hw1 & Hcase).
    unfold update_thread in Hw1.
    destruct (threads s !! x) as [wx|] eqn:Hx; simpl in Hw1.
    + destruct (decide (i = x)) as [->|Hne].
      * rewrite list_lookup_insert_eq in Hw1 by (eapply lookup_lt_Some; eauto).
        injection Hw1 as <-. exists wx. split; [exact Hx|]. left.
        split; [left; reflexivity|].
        destruct Hcase as [[_ ->]|[_ ->]]; reflexivity.
      * rewrite list_lookup_insert_ne in Hw1 by congruence.
        exists w1. split; [exact Hw1|].
        destruct Hcase as [[Hin ->]|[Hnin ->]]; [left|right]; split; auto.
        intros [E|Hin]; [congruence|tauto].
    + exists w1. split; [exact Hw1|].
      destruct Hcase as [[Hin ->]|[Hnin ->]]; [left|right]; split; auto.
      intros [E|Hin]; [|tauto]. subst. congruence.
Qed.

Lemma stop_loop_length l : forall s,
  length (threads (foldl (fun s wid => update_thread wid Worker.stop s) s l))
  = length (threads s).
Proof.
  induction l as [|x l IH]; intros s; simpl; [reflexivity|].
  rewrite IH. unfold update_thread.
  destruct (threads s !! x); simpl; [apply length_insert|reflexivity].
Qed.









(** *** What the executors were given does not change once stopped *)

Lemma log_insert_same (f : Worker.t -> list Job) ths wid w w' :
  ths !! wid = Some w -> f w' = f w ->
  concat (List.map f (<[wid := w']> ths)) = concat (List.map f ths).
Proof.
  intros Hw Hf. f_equal.
  change (f <$> <[wid := w']> ths = f <$> ths).
  rewrite list_fmap_insert, Hf. apply list_insert_id.
  rewrite list_lookup_fmap, Hw. reflexivity.
Qed.

Lemma log_pointwise (f : Worker.t -> list Job) ths ths' :
  length ths' = length ths ->
  (forall i w', ths' !! i = Some w' ->
     exists w, ths !! i = Some w /\ f w' = f w) ->
  concat (List.map f ths') = concat (List.map f ths).
Proof.
  intros Hlen H. f_equal. change (f <$> ths' = f <$> ths).
  apply list_eq. intros i. rewrite !list_lookup_fmap.
  destruct (ths' !! i) as [w'|] eqn:Hw'.
  - destruct (H i w' Hw') as (w & Hw & Hf). rewrite Hw. simpl. congruence.
  - apply lookup_ge_None in Hw'. rewrite Hlen in Hw'.
    apply lookup_ge_None in Hw'. rewrite Hw'. reflexivity.
Qed.

Lemma campaign_submitted_same w w' :
  Worker.submitted w' = Worker.submitted w ->
  Worker.for_test_email w' = Worker.for_test_email w ->
  campaign_submitted w' = campaign_submitted w.
Proof. unfold campaign_submitted. intros -> ->. reflexivity. Qed.

(** The threads after a confirmed stop, one by one. *)
Lemma stop_threads_cases now s :
  nothing_to_stop (app s) = false ->
  let s' := action_stop_queue_processing_and_clear true now s in
  (forall i w', threads s' !! i = Some w' ->
     exists w, threads s !! i = Some w /\ (w' = Worker.stop w \/ w' = w)) /\
  length (threads s') = length (threads s) /\
  transport_log s' = transport_log s /\
  campaign_log s' = campaign_log s.
Proof.
  destruct s as [a ths]. intros Hn. unfold action_stop_queue_processing_and_clear.
  simpl in *. rewrite Hn.
  match goal with |- context [foldl ?f ?s0 ?l] =>
    destruct (stop_loop_threads l s0) as [Ha Ht];
    pose proof (stop_loop_length l s0) as Hlen;
    remember (foldl f s0 l) as s1 eqn:Hs1 end.
  simpl in Ha, Ht, Hlen. unfold transport_log, campaign_log. simpl.
  assert (forall i w', threads s1 !! i = Some w' ->
            exists w, ths !! i = Some w /\ (w' = Worker.stop w \/ w' = w)) as Hc.
  { intros i w' Hw. destruct (Ht i w' Hw) as (w & Hw0 & [[_ E]|[_ E]]);
      exists w; auto. }
  split; [exact Hc|]. split; [exact Hlen|]. split.
  - apply log_pointwise; [exact Hlen|]. intros i w' Hw.
    destruct (Hc i w' Hw) as (w & Hw0 & [->| ->]); exists w; auto.
  - apply log_pointwise; [exact Hlen|]. intros i w' Hw.
    destruct (Hc i w' Hw) as (w & Hw0 & [->| ->]); exists w; auto.
Qed.







(** C9. A run in which a test e-mail is handed to an executor after a
    confirmed stop has returned. The first batch of the sample campaign is
    under way, one job is still to be dispatched, and the success signal of
    the first send waits in the event queue of the main thread. The stop
    empties the queue and both active lists. The signal is delivered
    afterwards: [on_primary_email_success_trigger_test] starts a test e-mail
    worker, and that thread hands its job to its executor. *)
Theorem test_email_sent_after_confirmed_stop :
  let s := run Samples.sample_before_stop Samples.sample_system in
  let s' := step s (StopAndClear true 5) in
  let s'' := run Samples.sample_after_stop s' in
  current_job_index_for_dispatch (app s) < length (email_job_queue (app s)) /\
  List.map job_id (pending_success_signals (app s)) = ["1"] /\
  email_job_queue (app s') = [] /\
  current_job_index_for_dispatch (app s') = 0 /\
  active_batch_send_workers (app s') = [] /\
  active_test_email_workers (app s') = [] /\
  List.map job_id (transport_log s') = ["1"; "2"] /\
  List.map job_id (transport_log s'') = ["1"; "2"; "TEST_0123456789"] /\
  List.map recipients_to_list (skipn 2 (transport_log s''))
  = [["probe@example.org"]].
Proof.
  cbv zeta. split; [vm_compute; lia|]. vm_compute. repeat split.
Qed.

End StopFacts.

(** ** Only jobs with recipients are queued and sent *)

Section PrepareFacts.
Import Prepare Campaign PrepareCampaign.
Local Open Scope nat_scope.

Lemma prepared_ok_report q0 r p :
  is_added r = false -> prepared_ok q0 p -> prepared_ok q0 (report r p).
Proof.
  intros Hr (added & H1 & H2 & H3 & H4). exists added. simpl.
  repeat split; auto.
  rewrite List.filter_app, length_app. simpl. rewrite Hr. simpl. lia.
Qed.

Lemma prepared_ok_with_world q0 w p :
  prepared_ok q0 p -> prepared_ok q0 (with_world w p).
Proof. intros H. exact H. Qed.

Lemma prepared_ok_cycler_taken q0 p :
  prepared_ok q0 p -> prepared_ok q0 (cycler_taken p).
Proof. intros H. exact H. Qed.

Lemma prepared_ok_admission q0 job source_type source_detail row_num p :
  prepared_ok q0 p ->
  prepared_ok q0 (admission job source_type source_detail row_num p).
Proof.
  intros H. unfold admission. destruct job as [job|].
  - destruct (recipients_to_list job) as [|r rs] eqn:Hr.
    + apply prepared_ok_report; [reflexivity|exact H].
    + destruct H as (added & H1 & H2 & H3 & H4).
      eexists (added ++ [_]). simpl. split; [|split; [|split]].
      * rewrite H1, app_assoc. reflexivity.
      * rewrite length_app, H2. simpl. lia.
      * apply Forall_app. split; [exact H3|]. constructor; [|constructor].
        unfold has_recipients. simpl. rewrite Hr. discriminate.
      * rewrite List.filter_app, !length_app. simpl. lia.
  - apply prepared_ok_report; [reflexivity|exact H].
Qed.

(** A job whose final recipient list is empty is reported and nothing
    else: the queue and the count stay as they are. *)
Lemma admission_rejects job source_type source_detail row_num p :
  recipients_to_list job = [] ->
  admission (Some job) source_type source_detail row_num p
  = report (EmptyRecipientsRejected row_num) p.
Proof. intros H. unfold admission. rewrite H. reflexivity. Qed.

Variable ext : Externals.

Lemma prepared_ok_row q0 ui m senders subjects from_names cleaned fieldnames
    custom_to row_num row p p' :
  prepared_ok q0 p ->
  prepare_row ext ui m senders subjects from_names cleaned fieldnames custom_to
    row_num row p = Some p' ->
  prepared_ok q0 p'.
Proof.
  intros H. unfold prepare_row.
  destruct (any_value_stripped _) as [[|]|]; [|intros [= <-]|discriminate].
  - destruct (data_dict _ _ _ _) as [d|]; [|discriminate].
    destruct (cycle_next _ _) as [cfg|]; [|discriminate].
    destruct (_resolve_all_placeholders_and_tags _ _ _ _ _) as [to st].
    destruct (is_nil _ && negb custom_to).
    + intros [= <-]. apply prepared_ok_report; [reflexivity|exact H].
    + destruct (create_fully_prepared_email_job _ _ _ _ _ _ _ _ _ _ _)
        as [[job w'] occ].
      intros [= <-]. apply prepared_ok_admission. exact H.
  - apply prepared_ok_report; [reflexivity|exact H].
Qed.

Lemma prepared_ok_rows q0 ui m senders subjects from_names cleaned fieldnames
    custom_to rows : forall row_num p,
  prepared_ok q0 p ->
  prepared_ok q0
    (prepare_rows ext ui m senders subjects from_names cleaned fieldnames
       custom_to row_num rows p).
Proof.
  induction rows as [|row rows IH]; intros row_num p H; simpl; [exact H|].
  destruct (prepare_row _ _ _ _ _ _ _ _ _ _ _ _) as [p'|] eqn:Hrow.
  - apply IH. eapply prepared_ok_row; eauto.
  - apply prepared_ok_report; [reflexivity|exact H].
Qed.

Lemma prepared_ok_start q w : prepared_ok q (mkProgress q 0 0 w []).
Proof.
  exists []. simpl. rewrite app_nil_r. repeat split. constructor.
Qed.

Lemma prepare_progress_ok ui w a :
  prepared_ok (email_job_queue a) (prepare_progress ext ui w a).
Proof.
  unfold prepare_progress. pose proof (prepared_ok_start (email_job_queue a) w) as H0.
  destruct (senders_to_cycle a) as [senders|]; [|exact H0].
  destruct (negb _ && negb _ && negb _); [exact H0|].
  destruct (data_source ui) as [| |fieldnames rows].
  - destruct (cycle_next senders 0) as [cfg|]; [|exact H0].
    destruct (is_nil _ && negb _); [exact H0|].
    destruct (create_fully_prepared_email_job _ _ _ _ _ _ _ _ _ _ _)
      as [[job w'] occ].
    apply prepared_ok_admission. exact H0.
  - exact H0.
  - destruct (negb _ && negb _); [exact H0|].
    destruct (is_nil fieldnames); [exact H0|].
    destruct (negb (existsb _ _)); [exact H0|].
    apply prepared_ok_rows. exact H0.
Qed.

(** *** The jobs of the system keep their recipients *)

Lemma start_loop_forall (P : Job -> Prop) n : forall q,
  Forall P (JobQueue.job_queue q) -> Forall P (JobQueue.executor_submitted q) ->
  Forall P (JobQueue.job_queue (JobQueue.start_loop n q)) /\
  Forall P (JobQueue.executor_submitted (JobQueue.start_loop n q)).
Proof.
  induction n as [|n IH]; intros q Hq Hs; simpl; [auto|].
  destruct (JobQueue.job_queue q) as [|job rest] eqn:E; [apply IH; rewrite ?E; auto|].
  destruct (JobQueue.is_running q); [|apply IH; rewrite ?E; auto].
  apply Forall_cons in Hq as [Hjob Hrest].
  unfold JobQueue.executor_submit. simpl.
  destruct (JobQueue.executor_shutdown q); simpl; [auto|].
  apply IH; simpl; [exact Hrest|].
  apply Forall_app. split; [exact Hs|]. constructor; [exact Hjob|constructor].
Qed.

Lemma drain_forall (P : Job -> Prop) outcome fs : forall q acc,
  Forall P (JobQueue.job_queue q) -> Forall P (JobQueue.executor_submitted q) ->
  Forall P (JobQueue.job_queue (JobQueue.drain outcome fs q acc).2) /\
  Forall P (JobQueue.executor_submitted (JobQueue.drain outcome fs q acc).2).
Proof.
  induction fs as [|f fs IH]; intros q acc Hq Hs; simpl; [auto|].
  destruct (JobQueue.pop f (JobQueue.active_futures q)) as [[job rest_active]|];
    [|apply IH; assumption].
  simpl. destruct (JobQueue.is_running q); [|apply IH; assumption].
  destruct (JobQueue.job_queue q) as [|next rest] eqn:E;
    [apply IH; simpl; rewrite ?E; auto|].
  apply Forall_cons in Hq as [Hnext Hrest].
  unfold JobQueue.executor_submit. simpl.
  destruct (JobQueue.executor_shutdown q); simpl.
  - split; [|exact Hs]. apply Forall_app. split; [exact Hrest|].
    constructor; [exact Hnext|constructor].
  - apply IH; simpl; [exact Hrest|].
    apply Forall_app. split; [exact Hs|]. constructor; [exact Hnext|constructor].
Qed.

Lemma attach_has_recipients pool j :
  has_recipients j -> has_recipients (Worker.attach_rate_limiter pool j).
Proof.
  unfold has_recipients, Worker.attach_rate_limiter. intros H.
  destruct (String.eqb _ _); [|exact H].
  destruct (nickname j); [|exact H].
  destruct (negb _ && _); exact H.
Qed.

Lemma step_has_recipients pool done outcome w :
  thread_has_recipients w ->
  thread_has_recipients (Worker.step pool done outcome w).
Proof.
  unfold thread_has_recipients, Worker.submitted. intros (Hb & Hq & Hs).
  unfold Worker.step, Worker.run_setup.
  destruct (Worker.at_phase w).
  - destruct (Worker.job_batch w) as [|j js] eqn:E; simpl; [rewrite E; auto|].
    destruct (Worker._is_running_batch_thread w); simpl; rewrite E; [|auto].
    split; [exact Hb|].
    destruct (add_jobs_spec (Worker.attach_rate_limiter pool) (j :: js)
                (Worker.job_queue_manager_for_batch w)) as (A1 & A2 & _).
    simpl in A1, A2.
    unfold JobQueue.start_processing.
    apply start_loop_forall.
    + change (JobQueue.job_queue (JobQueue.set_is_running true ?q))
        with (JobQueue.job_queue q).
      rewrite A1. apply Forall_app. split; [exact Hq|].
      change (Forall has_recipients
                (List.map (Worker.attach_rate_limiter pool) (j :: js))).
      apply List.Forall_map. eapply Forall_impl; [exact Hb|].
      intros x Hx. apply attach_has_recipients, Hx.
    + change (JobQueue.executor_submitted (JobQueue.set_is_running true ?q))
        with (JobQueue.executor_submitted q).
      rewrite A2. exact Hs.
  - destruct (Worker._is_running_batch_thread w); simpl; [|auto].
    destruct (JobQueue.is_finished _); simpl; [auto|].
    unfold JobQueue.get_completed_jobs.
    match goal with |- context [JobQueue.drain outcome ?fs ?q ?a] =>
      pose proof (drain_forall has_recipients outcome fs q a Hq Hs) as [D1 D2];
      destruct (JobQueue.drain outcome fs q a) as [completed q'] end.
    simpl in *. auto.
  - destruct (Worker._is_running_batch_thread w); simpl; auto.
  - auto.
Qed.

Lemma recipients_app_frame a a' ths :
  system_has_recipients (mkSystem a ths) ->
  email_job_queue a' = email_job_queue a ->
  system_has_recipients (mkSystem a' ths).
Proof. intros [H1 H2] E. split; simpl in *; [rewrite E|]; assumption. Qed.

Lemma recipients_dispatch now s :
  system_has_recipients s ->
  system_has_recipients (dispatch_next_email_batch_to_worker now s).
Proof.
  destruct s as [a ths]. intros H. pose proof H as [Hq Ht].
  unfold dispatch_next_email_batch_to_worker. simpl in *.
  repeat match goal with
         | |- context [if ?b then _ else _] => destruct b
         end; try exact H;
    try (apply (recipients_app_frame a); [exact H|reflexivity]).
  split; simpl; [exact Hq|].
  apply Forall_app. split; [exact Ht|]. constructor; [|constructor].
  unfold thread_has_recipients, Worker.submitted. simpl.
  split; [|split; constructor].
  unfold slice. apply Forall_take, Forall_drop, Hq.
Qed.

Lemma start_reset_queue now a :
  email_job_queue (start_reset now a) = email_job_queue a.
Proof.
  unfold start_reset. simpl.
  repeat match goal with
         | |- context [if ?b then _ else _] => destruct b
         end; reflexivity.
Qed.

Lemma recipients_step s e :
  system_has_recipients s -> system_has_recipients (step s e).
Proof.
  intros H. pose proof H as [Hq Ht].
  destruct e as [now|now|confirm now|now|wid done outcome|wid now|uuid]; simpl.
  - unfold action_start_queue_processing.
    destruct (start_refused (app s)); [exact H|].
    apply recipients_dispatch.
    apply (recipients_app_frame (app s)); [|apply start_reset_queue].
    rewrite system_eta. exact H.
  - destruct s as [a ths]. unfold action_toggle_pause_resume_queue. simpl.
    repeat match goal with
           | |- context [if ?b then _ else _] => destruct b
           end; try exact H;
      apply (recipients_app_frame a); try exact H; reflexivity.
  - destruct confirm; [|rewrite stop_declined; exact H].
    destruct (nothing_to_stop (app s)) eqn:Hn.
    { unfold action_stop_queue_processing_and_clear. rewrite Hn. exact H. }
    destruct (stop_threads_cases now s Hn) as (Hc & _).
    split.
    + unfold action_stop_queue_processing_and_clear. rewrite Hn. simpl.
      constructor.
    + apply Forall_lookup. intros i w' Hw.
      destruct (Hc i w' Hw) as (w & Hw0 & Hcase).
      pose proof (proj1 (Forall_lookup _ _) Ht i w Hw0) as Hok.
      destruct Hcase as [->| ->]; exact Hok.
  - apply recipients_dispatch, H.
  - unfold worker_step.
    destruct (threads s !! wid) as [w|] eqn:Hw; [|exact H].
    split; simpl; [exact Hq|].
    apply Forall_insert; [exact Ht|]. apply step_has_recipients.
    eapply Forall_lookup in Ht; eauto.
  - unfold deliver_finished.
    destruct (threads s !! wid) as [w|] eqn:Hw; [|exact H].
    destruct (Worker.finished_signal w) as [[ok st]|]; [|exact H].
    destruct (Worker.signal_delivered w); [exact H|].
    unfold update_thread. rewrite Hw.
    assert (Forall thread_has_recipients
              (<[wid := Worker.mark_delivered w]> (threads s))) as Ht'.
    { apply Forall_insert; [exact Ht|].
      exact (proj1 (Forall_lookup _ _) Ht wid w Hw). }
    destruct (Worker.for_test_email w).
    + split; simpl; assumption.
    + unfold on_batch_worker_finished. simpl.
      repeat match goal with
             | |- context [if ?b then _ else _] => destruct b
             end; split; simpl; assumption.
  - unfold deliver_success.
    destruct (pending_success_signals (app s)) as [|job rest]; [exact H|].
    unfold on_primary_email_success_trigger_test. cbv zeta. simpl.
    match goal with |- context [if ?c then _ else _] => destruct c end.
    + unfold dispatch_single_test_email. split; simpl; [exact Hq|].
      apply Forall_app. split; [exact Ht|]. constructor; [|constructor].
      unfold thread_has_recipients, Worker.submitted. simpl.
      split; [|split; constructor].
      constructor; [|constructor]. unfold has_recipients. simpl. discriminate.
    + split; simpl; assumption.
Qed.

Lemma recipients_act s x :
  system_has_recipients s -> system_has_recipients (act ext s x).
Proof.
  intros H. destruct x as [ui w|e]; simpl; [|apply recipients_step, H].
  destruct H as [Hq Ht]. split; simpl; [|exact Ht].
  destruct (prepare_progress_ok ui w (app s)) as (added & -> & _ & Hadd & _).
  apply Forall_app. split; assumption.
Qed.

Lemma recipients_run_actions xs : forall s,
  system_has_recipients s -> system_has_recipients (run_actions ext xs s).
Proof.
  induction xs as [|x xs IH]; intros s H; simpl; [exact H|].
  apply IH, recipients_act, H.
Qed.

Lemma recipients_transport_log s :
  system_has_recipients s -> Forall has_recipients (transport_log s).
Proof.
  intros [_ Ht]. unfold transport_log.
  induction Ht as [|w ws Hw _ IH]; simpl; [constructor|].
  apply Forall_app. split; [apply Hw|exact IH].
Qed.

(** C8. What [action_prepare_campaign_and_add_to_queue] appends to the
    queue are jobs with a non-empty final recipient list, as many as it
    counts and reports as added; a prepared job whose final recipient list
    is empty is reported and changes neither the queue nor the count; and in
    every system reached from an empty queue and no threads by preparations
    and events, every job in the queue and every job that an executor was
    given has a non-empty recipient list. *)
Theorem only_jobs_with_recipients_are_queued :
  (forall ui w a,
     let p := prepare_progress ext ui w a in
     exists added,
       email_job_queue (action_prepare_campaign_and_add_to_queue ext ui w a)
       = email_job_queue a ++ added /\
       prepared_jobs_count_this_action p = length added /\
       Forall has_recipients added /\
       length (List.filter is_added (reports p)) = length added) /\
  (forall job source_type source_detail row_num p,
     recipients_to_list job = [] ->
     let p' := admission (Some job) source_type source_detail row_num p in
     queue_now p' = queue_now p /\
     prepared_jobs_count_this_action p' = prepared_jobs_count_this_action p /\
     reports p' = reports p ++ [EmptyRecipientsRejected row_num]) /\
  (forall xs a,
     email_job_queue a = [] ->
     let s := run_actions ext xs (mkSystem a []) in
     Forall has_recipients (email_job_queue (app s)) /\
     Forall has_recipients (transport_log s)).
Proof.
  split; [|split].
  - intros ui w a p. exact (prepare_progress_ok ui w a).
  - intros job st sd n p Hr p'. subst p'. rewrite admission_rejects by exact Hr.
    repeat split.
  - intros xs a Ha s.
    assert (system_has_recipients s) as Hs.
    { apply recipients_run_actions. split; simpl; [rewrite Ha|]; constructor. }
    split; [apply Hs|apply recipients_transport_log, Hs].
Qed.

End PrepareFacts.

Section PrepareExamples.
Import Prepare Campaign PrepareCampaign Samples.

(** Two rows are prepared; the second, whose final recipient list is
    empty, is rejected; the job of the first is sent. *)
Lemma only_jobs_with_recipients_are_queued_witness :
  (let p := prepare_progress sample_externals sample_ui TagSpec.sample_world
              sample_empty_app in
   reports p = [JobAdded 1; EmptyRecipientsRejected 2] /\
   prepared_jobs_count_this_action p = 1%nat /\
   List.map recipients_to_list (queue_now p) = [["ann@example.org"]]) /\
  (let s := run_actions sample_externals sample_actions
              (mkSystem sample_empty_app []) in
   List.map recipients_to_list (transport_log s) = [["ann@example.org"]] /\
   Forall has_recipients (transport_log s)).
Proof.
  split; [vm_compute; repeat split|].
  split; [vm_compute; reflexivity|].
  apply (proj2 (proj2 (only_jobs_with_recipients_are_queued sample_externals))
           sample_actions sample_empty_app).
  reflexivity.
Defined.

End PrepareExamples.

(** ** The token bucket: bounds, grants and refusals *)

Section RateLimiterBounds.
Import RateLimiter.
Local Open Scope Q_scope.

(** A property that every attempt made at or after the last refill keeps
    is kept by a whole call of [acquire] on a clock that does not run
    backwards. *)
Lemma acquire_loop_keeps (P : RateLimiter.t -> Prop) start timeout :
  (forall now s, P s -> last_update s <= now -> P (attempt now s).2) ->
  forall k clock s lo r s' rest,
  (length clock <= k)%nat ->
  P s -> last_update s <= lo -> nondecreasing_from lo clock ->
  acquire_loop start timeout clock s = Some (r, s', rest) ->
  P s' /\ exists lo', last_update s' <= lo' /\ nondecreasing_from lo' rest.
Proof.
  intros Hstep. induction k as [|k IH]; intros clock s lo r s' rest Hk HP Hlo Hmono.
  - destruct clock; [discriminate|simpl in Hk; lia].
  - destruct clock as [|c clock1]; [discriminate|]. simpl.
    destruct Hmono as [Hc1 Hmono].
    destruct (Qle_bool timeout (c - start)).
    + intros [= <- <- <-]. split; [exact HP|]. exists c. split; [lra|exact Hmono].
    + destruct clock1 as [|now clock2]; [discriminate|].
      destruct Hmono as [Hnow Hmono].
      pose proof (Hstep now s HP ltac:(lra)) as HP1.
      pose proof (attempt_last_update now s) as Hlast.
      destruct (attempt now s) as [ok s1]; simpl in *.
      destruct ok.
      * intros [= <- <- <-]. split; [exact HP1|].
        exists now. split; [rewrite Hlast; lra|exact Hmono].
      * intros Hrec. eapply (IH clock2 s1 now); eauto; try lia.
        rewrite Hlast. lra.
Qed.

Lemma acquire_all_keeps (P : RateLimiter.t -> Prop) :
  (forall now s, P s -> last_update s <= now -> P (attempt now s).2) ->
  forall timeouts clock s lo rs s' rest,
  P s -> last_update s <= lo -> nondecreasing_from lo clock ->
  acquire_all timeouts clock s = Some (rs, s', rest) -> P s'.
Proof.
  intros Hstep.
  induction timeouts as [|timeout timeouts IH];
    intros clock s lo rs s' rest HP Hlo Hmono; simpl.
  - intros [= <- <- <-]. exact HP.
  - unfold acquire. destruct clock as [|start clock1]; [discriminate|].
    destruct Hmono as [Hs Hmono].
    destruct (acquire_loop start timeout clock1 s) as [[[r s1] clock2]|] eqn:Hloop;
      [|discriminate].
    eapply (acquire_loop_keeps P start timeout Hstep (length clock1) clock1 s start)
      in Hloop as (HP1 & lo' & Hlo1 & Hmono1); eauto; try lra.
    destruct (acquire_all timeouts clock2 s1) as [[[rs' s2] clock3]|] eqn:Hrest;
      [|discriminate].
    intros [= <- <- <-]. eapply IH; eauto.
Qed.

(** The bucket neither overflows nor goes into debt. *)
Lemma attempt_within_capacity now s :
  (0 <= tokens s /\ tokens s <= burst_size s /\
   0 <= emails_per_second s) ->
  last_update s <= now ->
  let s' := (attempt now s).2 in
  0 <= tokens s' /\ tokens s' <= burst_size s' /\
  0 <= emails_per_second s'.
Proof.
  intros (H0 & HB & HE) Hnow. unfold attempt.
  set (add := (now - last_update s) * emails_per_second s).
  assert (0 <= add) as Hadd by (apply Qmult_le_0_compat; lra).
  pose proof (Q.le_min_l (burst_size s) (tokens s + add)) as Hl.
  assert (0 <= Qmin (burst_size s) (tokens s + add)) as Hmin.
  { apply Q.min_glb; lra. }
  destruct (Qle_bool 1 _) eqn:Hok; simpl.
  - apply Qle_bool_iff in Hok. repeat split; lra.
  - repeat split; lra.
Qed.

(** X2. A limiter created with a burst argument that is not negative
    never holds fewer than 0 tokens or more than its capacity
    max(burst, 1), after any sequence of [acquire] calls on a clock that
    does not run backwards. *)
Theorem tokens_stay_within_capacity (eps burst t0 : Q) (timeouts clock : list Q)
    (rs : list bool) (s' : RateLimiter.t) (rest : list Q) :
  0 <= burst ->
  nondecreasing_from t0 clock ->
  acquire_all timeouts clock (init eps burst t0) = Some (rs, s', rest) ->
  0 <= tokens s' /\ tokens s' <= Qmax burst 1 /\ burst_size s' = Qmax burst 1.
Proof.
  intros Hb Hmono Hrun.
  pose proof (acquire_all_keeps
                (fun s => (0 <= tokens s /\ tokens s <= burst_size s /\
                           0 <= emails_per_second s) /\
                          burst_size s = Qmax burst 1)) as H.
  eapply H in Hrun; [| |split| |exact Hmono].
  - destruct Hrun as [(H0 & H1 & _) HB]. rewrite HB in H1. auto.
  - intros now s [Hin HB] Hnow. split.
    + apply attempt_within_capacity; assumption.
    + unfold attempt. destruct (Qle_bool 1 _); exact HB.
  - unfold init; simpl.
    pose proof (Q.le_max_l burst 1). pose proof (Q.le_max_r eps (1 # 10)).
    repeat split; lra.
  - reflexivity.
  - simpl. lra.
Qed.

Lemma tokens_stay_within_capacity_witness :
  0 <= tokens (mk 1 2 0 1) /\ tokens (mk 1 2 0 1) <= Qmax 2 1 /\
  burst_size (mk 1 2 0 1) = Qmax 2 1.
Proof.
  apply (tokens_stay_within_capacity 1 2 0 [2; 2; 2]
           [0; 0; 0; 0; 0; 0; 0; 0; 0; 1; 1] [true; true; true]
           (mk 1 2 0 1) []).
  - vm_compute. discriminate.
  - simpl. repeat split; vm_compute; discriminate.
  - vm_compute. reflexivity.
Defined.

(** X3. A call of [acquire] whose time-out is zero or negative returns
    [False] after reading the clock twice and leaves the limiter as it
    was, even when tokens are available. *)
Theorem acquire_without_time_refuses (timeout start c : Q) (rest : list Q)
    (s : RateLimiter.t) :
  timeout <= 0 -> start <= c ->
  acquire timeout (start :: c :: rest) s = Some (false, s, rest).
Proof.
  intros Ht Hc. simpl.
  assert (Qle_bool timeout (c - start) = true) as ->
    by (apply Qle_bool_iff; lra).
  reflexivity.
Qed.

Lemma acquire_without_time_refuses_witness :
  acquire 0 [5; 5; 6] (init 1 5 0) = Some (false, init 1 5 0, [6]).
Proof.
  apply (acquire_without_time_refuses 0 5 5 [6] (init 1 5 0));
    vm_compute; discriminate.
Defined.

(** X4. When the refill since the last update brings the bucket to at least
    one token, the capacity is at least one and the time-out has not run
    out, [acquire] returns [True] at its first attempt, takes exactly one
    token from the refilled bucket and records the time of the attempt. *)
Theorem acquire_grants_when_token_due (timeout start c now : Q) (rest : list Q)
    (s : RateLimiter.t) :
  c - start < timeout ->
  1 <= burst_size s ->
  1 <= tokens s + (now - last_update s) * emails_per_second s ->
  exists s',
    acquire timeout (start :: c :: now :: rest) s = Some (true, s', rest) /\
    tokens s' ==
      Qmin (burst_size s)
        (tokens s + (now - last_update s) * emails_per_second s) - 1 /\
    last_update s' = now /\
    burst_size s' = burst_size s /\ emails_per_second s' = emails_per_second s.
Proof.
  intros Ht HB Hdue. simpl.
  assert (Qle_bool timeout (c - start) = false) as ->.
  { destruct (Qle_bool timeout (c - start)) eqn:E; [|reflexivity].
    apply Qle_bool_iff in E. lra. }
  unfold attempt.
  assert (Qle_bool 1
            (Qmin (burst_size s)
               (tokens s + (now - last_update s) * emails_per_second s)) = true)
    as ->.
  { apply Qle_bool_iff. apply Q.min_glb; assumption. }
  eexists. split; [reflexivity|]. simpl. repeat split; reflexivity.
Qed.

Lemma acquire_grants_when_token_due_witness :
  exists s',
    acquire 30 [10; 10; 10] (mk 2 5 0 (19 # 2)) = Some (true, s', []) /\
    tokens s' ==
      Qmin 5 (0 + (10 - (19 # 2)) * 2) - 1 /\
    last_update s' = 10 /\
    burst_size s' = 5 /\ emails_per_second s' = 2.
Proof.
  apply (acquire_grants_when_token_due 30 10 10 10 [] (mk 2 5 0 (19 # 2)));
    vm_compute; try reflexivity; discriminate.
Defined.

Lemma acquire_loop_never_grants start timeout :
  forall k clock s r s' rest,
  (length clock <= k)%nat ->
  burst_size s < 1 ->
  acquire_loop start timeout clock s = Some (r, s', rest) ->
  r = false /\ burst_size s' < 1.
Proof.
  induction k as [|k IH]; intros clock s r s' rest Hk HB.
  - destruct clock; [discriminate|simpl in Hk; lia].
  - destruct clock as [|c clock1]; [discriminate|]. simpl.
    destruct (Qle_bool timeout (c - start)).
    + intros [= <- <- <-]. auto.
    + destruct clock1 as [|now clock2]; [discriminate|].
      unfold attempt.
      destruct (Qle_bool 1 _) eqn:Hok.
      * apply Qle_bool_iff in Hok.
        pose proof (Q.le_min_l (burst_size s)
                      (tokens s + (now - last_update s) * emails_per_second s)).
        lra.
      * intros Hrec. apply (IH clock2 _ r s' rest) in Hrec.
        -- exact Hrec.
        -- simpl in Hk. lia.
        -- simpl. exact HB.
Qed.

(** X5. A limiter whose [burst_size] is below 1 (the attribute can be set
    so when the server list is loaded again) never grants: every
    [acquire] that returns, returns [False]. *)
Theorem capacity_below_one_never_grants (timeouts clock : list Q)
    (s : RateLimiter.t) (rs : list bool) (s' : RateLimiter.t) (rest : list Q) :
  burst_size s < 1 ->
  acquire_all timeouts clock s = Some (rs, s', rest) ->
  successes rs = 0%nat.
Proof.
  revert clock s rs s' rest.
  induction timeouts as [|timeout timeouts IH]; intros clock s rs s' rest HB; simpl.
  - intros [= <- <- <-]. reflexivity.
  - unfold acquire. destruct clock as [|start clock1]; [discriminate|].
    destruct (acquire_loop start timeout clock1 s) as [[[r s1] clock2]|] eqn:Hloop;
      [|discriminate].
    apply (acquire_loop_never_grants start timeout (length clock1)) in Hloop
      as [-> HB1]; [|lia|exact HB].
    destruct (acquire_all timeouts clock2 s1) as [[[rs' s2] clock3]|] eqn:Hrest;
      [|discriminate].
    intros [= <- <- <-]. apply (IH _ _ _ _ _ HB1) in Hrest.
    unfold successes in *. simpl. exact Hrest.
Qed.

Lemma capacity_below_one_never_grants_witness :
  successes [false; false] = 0%nat.
Proof.
  eapply (capacity_below_one_never_grants [1; 1]
            [0; 0; 100; 100; 101; 101; 200; 200; 202] (mk 10 0 0 0)
            [false; false]).
  - vm_compute. reflexivity.
  - vm_compute. reflexivity.
Defined.

Lemma attempts_last_update_bound bound nows : forall s lo,
  last_update s <= bound -> nondecreasing_from lo nows ->
  Forall (fun c => c <= bound) nows ->
  last_update (attempts nows s).2 <= bound.
Proof.
  induction nows as [|now nows IH]; intros s lo Hs Hm Ha; simpl; [exact Hs|].
  destruct Hm as [_ Hm]. inversion Ha as [|? ? HnowT Ha1]; subst.
  pose proof (attempt_last_update now s) as Hl.
  destruct (attempt now s) as [ok s1]; simpl in *.
  specialize (IH s1 now ltac:(rewrite Hl; exact HnowT) Hm Ha1).
  destruct (attempts nows s1) as [oks s2]; simpl in *. exact IH.
Qed.

(** X6. The bound of the token bucket holds for threads that share a
    limiter: in whatever order the lock lets their attempts in, at clock
    readings within [t0, t0 + T] that do not run backwards, at most
    max(burst, 1) + max(eps, 0.1) * T attempts succeed. *)
Theorem shared_limiter_conservation (eps burst t0 T : Q) (nows : list Q) :
  0 <= T ->
  nondecreasing_from t0 nows ->
  Forall (fun c => c <= t0 + T) nows ->
  Qnat (successes (attempts nows (init eps burst t0)).1)
  <= Qmax burst 1 + Qmax eps (1 # 10) * T.
Proof.
  intros HT Hmono Hall.
  pose proof (attempts_conserved t0 (Qmax burst 1) (Qmax eps (1 # 10)) nows 0
                (init eps burst t0) t0 (conserved_init eps burst t0)
                ltac:(simpl; lra) Hmono) as (_ & _ & HR & _ & Hn).
  simpl in Hn.
  pose proof (attempts_last_update_bound (t0 + T) nows (init eps burst t0) t0
                ltac:(simpl; lra) Hmono Hall) as Hlast.
  assert (Qmax eps (1 # 10)
          * (last_update (attempts nows (init eps burst t0)).2 - t0)
          <= Qmax eps (1 # 10) * T).
  { rewrite !(Qmult_comm (Qmax eps (1 # 10))). apply Qmult_le_compat_r; lra. }
  lra.
Qed.

Lemma shared_limiter_conservation_witness :
  Qnat (successes (attempts [0; 0; 0; 1; 1] (init 1 2 0)).1)
  <= Qmax 2 1 + Qmax 1 (1 # 10) * 1.
Proof.
  apply (shared_limiter_conservation 1 2 0 1 [0; 0; 0; 1; 1]).
  - vm_compute. discriminate.
  - simpl. repeat split; vm_compute; discriminate.
  - repeat constructor; vm_compute; discriminate.
Defined.

End RateLimiterBounds.


(** ** The queue manager: order, shutdown, progress and polling *)

Section JobQueueHistories.
Import JobQueue QueueSpec.

Lemma start_loop_fifo n q :
  executor_shutdown q = false ->
  executor_shutdown (start_loop n q) = false /\
  executor_submitted (start_loop n q) ++ job_queue (start_loop n q)
  = executor_submitted q ++ job_queue q.
Proof.
  revert q. induction n as [|n IH]; intros q Hs; simpl; [auto|].
  destruct (job_queue q) as [|job rest] eqn:Hq.
  - destruct (IH q Hs) as [H1 H2]. rewrite Hq in H2. auto.
  - destruct (is_running q).
    + unfold executor_submit; simpl. rewrite Hs.
      match goal with |- context [start_loop n ?x] =>
        destruct (IH x) as [H1 H2]; [first [exact Hs|reflexivity]|] end.
      split; [exact H1|]. rewrite H2. simpl. rewrite <- app_assoc. reflexivity.
    + destruct (IH q Hs) as [H1 H2]. rewrite Hq in H2. auto.
Qed.

Lemma drain_fifo outcome fs q acc :
  executor_shutdown q = false ->
  executor_shutdown (drain outcome fs q acc).2 = false /\
  executor_submitted (drain outcome fs q acc).2
    ++ job_queue (drain outcome fs q acc).2
  = executor_submitted q ++ job_queue q.
Proof.
  revert q acc. induction fs as [|f fs IH]; intros q acc Hs; simpl; [auto|].
  destruct (pop f (active_futures q)) as [[job rest_active]|]; [|apply IH, Hs].
  simpl. destruct (is_running q).
  - destruct (job_queue q) as [|next rest] eqn:Hq.
    + match goal with |- context [drain outcome fs ?x ?a] =>
        destruct (IH x a) as [H1 H2]; [first [exact Hs|reflexivity]|] end.
      split; [exact H1|]. rewrite H2. simpl. rewrite Hq. reflexivity.
    + unfold executor_submit; simpl. rewrite Hs.
      match goal with |- context [drain outcome fs ?x ?a] =>
        destruct (IH x a) as [H1 H2]; [first [exact Hs|reflexivity]|] end.
      split; [exact H1|]. rewrite H2. simpl. rewrite <- app_assoc. reflexivity.
  - match goal with |- context [drain outcome fs ?x ?a] =>
      destruct (IH x a) as [H1 H2]; [first [exact Hs|reflexivity]|] end.
    split; [exact H1|]. rewrite H2. reflexivity.
Qed.

Lemma apply_fifo q o :
  executor_shutdown q = false -> is_stop o = false ->
  executor_shutdown (apply q o) = false /\
  executor_submitted (apply q o) ++ job_queue (apply q o)
  = executor_submitted q ++ job_queue q ++ added_jobs [o].
Proof.
  intros Hs Ho. destruct o as [j|m|d r| |]; simpl in *; try discriminate.
  - auto.
  - rewrite app_nil_r. unfold start_processing.
    apply (start_loop_fifo _ (set_is_running true q)). exact Hs.
  - rewrite app_nil_r. unfold get_completed_jobs. apply drain_fifo. exact Hs.
  - rewrite app_nil_r. auto.
Qed.

Lemma added_jobs_cons o ops :
  added_jobs (o :: ops) = added_jobs [o] ++ added_jobs ops.
Proof. destruct o; reflexivity. Qed.

Lemma run_fifo ops q :
  executor_shutdown q = false ->
  forallb (fun o => negb (is_stop o)) ops = true ->
  executor_shutdown (run ops q) = false /\
  executor_submitted (run ops q) ++ job_queue (run ops q)
  = executor_submitted q ++ job_queue q ++ added_jobs ops.
Proof.
  revert q. induction ops as [|o ops IH]; intros q Hs Hops.
  - simpl. rewrite app_nil_r. auto.
  - simpl in Hops. apply andb_prop in Hops as [Ho Hops].
    apply negb_true_iff in Ho.
    destruct (apply_fifo q o Hs Ho) as [H1 H2].
    destruct (IH (apply q o) H1 Hops) as [H3 H4].
    change (run (o :: ops) q) with (run ops (apply q o)).
    split; [exact H3|]. rewrite H4, app_assoc, H2, (added_jobs_cons o ops).
    rewrite <- !app_assoc. reflexivity.
Qed.

(** The executor refuses work once it was shut down. *)
Lemma start_loop_shutdown n q :
  executor_shutdown q = true ->
  executor_shutdown (start_loop n q) = true /\
  executor_submitted (start_loop n q) = executor_submitted q.
Proof.
  revert q. induction n as [|n IH]; intros q Hs; simpl; [auto|].
  destruct (job_queue q) as [|job rest]; [apply IH, Hs|].
  destruct (is_running q); [|apply IH, Hs].
  unfold executor_submit; simpl. rewrite Hs. simpl. auto.
Qed.

Lemma drain_shutdown outcome fs q acc :
  executor_shutdown q = true ->
  executor_shutdown (drain outcome fs q acc).2 = true /\
  executor_submitted (drain outcome fs q acc).2 = executor_submitted q.
Proof.
  revert q acc. induction fs as [|f fs IH]; intros q acc Hs; simpl; [auto|].
  destruct (pop f (active_futures q)) as [[job rest_active]|]; [|apply IH, Hs].
  simpl. destruct (is_running q).
  - destruct (job_queue q) as [|next rest].
    + match goal with |- context [drain outcome fs ?x ?a] =>
        destruct (IH x a) as [H1 H2]; [first [exact Hs|reflexivity]|] end. auto.
    + unfold executor_submit; simpl. rewrite Hs. simpl. auto.
  - match goal with |- context [drain outcome fs ?x ?a] =>
      destruct (IH x a) as [H1 H2]; [first [exact Hs|reflexivity]|] end. auto.
Qed.

Lemma apply_shutdown q o :
  executor_shutdown q = true ->
  executor_shutdown (apply q o) = true /\
  executor_submitted (apply q o) = executor_submitted q.
Proof.
  intros Hs. destruct o as [j|m|d r| |]; simpl; auto.
  - unfold start_processing.
    apply (start_loop_shutdown _ (set_is_running true q)). exact Hs.
  - unfold get_completed_jobs. apply drain_shutdown. exact Hs.
Qed.

Lemma run_shutdown ops q :
  executor_shutdown q = true ->
  executor_shutdown (run ops q) = true /\
  executor_submitted (run ops q) = executor_submitted q.
Proof.
  revert q. induction ops as [|o ops IH]; intros q Hs; [simpl; auto|].
  destruct (apply_shutdown q o Hs) as [H1 H2].
  destruct (IH (apply q o) H1) as [H3 H4].
  change (run (o :: ops) q) with (run ops (apply q o)).
  split; [exact H3|]. rewrite H4. exact H2.
Qed.

(** The total only counts [add_job] calls. *)
Lemma start_loop_total n q :
  total_jobs_submitted_to_q (start_loop n q) = total_jobs_submitted_to_q q.
Proof. apply start_loop_weight. Qed.

Lemma apply_total q o :
  total_jobs_submitted_to_q (apply q o)
  = total_jobs_submitted_to_q q + length (added_jobs [o]).
Proof.
  destruct o as [j|m|d r| |]; simpl; try lia.
  - unfold start_processing. rewrite (proj1 (start_loop_weight _ _)). simpl. lia.
  - unfold get_completed_jobs. rewrite (proj1 (drain_weight _ _ _ _)). lia.
Qed.

Lemma run_total ops q :
  total_jobs_submitted_to_q (run ops q)
  = total_jobs_submitted_to_q q + length (added_jobs ops).
Proof.
  revert q. induction ops as [|o ops IH]; intros q; [simpl; lia|].
  change (run (o :: ops) q) with (run ops (apply q o)).
  rewrite IH, apply_total, (added_jobs_cons o ops), length_app. lia.
Qed.

(** Polling: the entry of a done future is found and removed. *)
Lemma pop_sublist f a j rest :
  pop f a = Some (j, rest) -> sublist rest a.
Proof.
  revert j rest. induction a as [|[g k] a IH]; intros j rest; simpl; [discriminate|].
  destruct (Nat.eqb f g).
  - intros [= <- <-]. apply sublist_cons. reflexivity.
  - destruct (pop f a) as [[j' a'']|]; [|discriminate].
    intros [= <- <-]. apply sublist_skip. eapply IH. reflexivity.
Qed.

Lemma pop_first_of_sublist f j ps a :
  NoDup (List.map fst a) -> sublist ((f, j) :: ps) a ->
  exists rest, pop f a = Some (j, rest) /\ sublist ps rest.
Proof.
  induction a as [|[g k] a IH]; intros Hnd Hsub.
  - apply sublist_nil_r in Hsub. discriminate.
  - simpl in Hnd. apply NoDup_cons in Hnd as [Hg Hnd]. simpl.
    apply sublist_cons_r in Hsub as [Hsub|(ps' & Heq & Hsub)].
    + assert (Hin : (f, j) ∈ a).
      { eapply sublist_subseteq; [exact Hsub|]. left. }
      destruct (Nat.eqb_spec f g) as [->|Hne].
      * exfalso. apply Hg. apply (list_elem_of_fmap_2 fst) in Hin. exact Hin.
      * destruct (IH Hnd Hsub) as (rest & Hp & Hs). rewrite Hp.
        eexists; split; [reflexivity|]. apply sublist_cons. exact Hs.
    + injection Heq as -> -> ->. rewrite Nat.eqb_refl.
      eexists; split; [reflexivity|]. exact Hsub.
Qed.

Lemma fresh_after_pop_submit (rest a : list (Future * Job)) n (next : Job) :
  sublist rest a ->
  NoDup (List.map fst a) ->
  Forall (fun f => f < n) (List.map fst a) ->
  NoDup (List.map fst (rest ++ [(n, next)])) /\
  Forall (fun f => f < S n) (List.map fst (rest ++ [(n, next)])).
Proof.
  intros Hsub Hnd Hb.
  assert (Hsub' : sublist (List.map fst rest) (List.map fst a))
    by (apply (fmap_sublist (fst : Future * Job -> Future)), Hsub).
  assert (Hb' : Forall (fun f => f < n) (List.map fst rest)).
  { apply Forall_forall. intros x Hx.
    eapply (proj1 (Forall_forall _ _) Hb), sublist_subseteq, Hx. exact Hsub'. }
  rewrite List.map_app. simpl. split.
  - apply NoDup_app. split; [eapply sublist_NoDup; eauto|].
    split; [|apply NoDup_singleton].
    intros x Hx Hx'. apply list_elem_of_singleton in Hx'. subst x.
    apply (proj1 (Forall_forall _ _) Hb') in Hx. lia.
  - apply Forall_app. split.
    + eapply Forall_impl; [exact Hb'|]. simpl. intros; lia.
    + repeat constructor.
Qed.

Lemma fresh_after_pop (rest a : list (Future * Job)) n :
  sublist rest a ->
  NoDup (List.map fst a) ->
  Forall (fun f => f < n) (List.map fst a) ->
  NoDup (List.map fst rest) /\ Forall (fun f => f < n) (List.map fst rest).
Proof.
  intros Hsub Hnd Hb.
  assert (Hsub' : sublist (List.map fst rest) (List.map fst a))
    by (apply (fmap_sublist (fst : Future * Job -> Future)), Hsub).
  split; [eapply sublist_NoDup; eauto|].
  apply Forall_forall. intros x Hx.
  eapply (proj1 (Forall_forall _ _) Hb), sublist_subseteq, Hx. exact Hsub'.
Qed.

Lemma start_loop_fresh n q :
  executor_shutdown q = false -> futures_fresh q ->
  futures_fresh (start_loop n q).
Proof.
  revert q. induction n as [|n IH]; intros q Hs Hf; simpl; [exact Hf|].
  destruct (job_queue q) as [|job rest]; [apply IH; assumption|].
  destruct (is_running q); [|apply IH; assumption].
  unfold executor_submit; simpl. rewrite Hs.
  apply IH; [first [exact Hs|reflexivity]|].
  destruct Hf as [Hnd Hb]. unfold futures_fresh; simpl.
  rewrite length_app; simpl. rewrite Nat.add_1_r.
  apply (fresh_after_pop_submit _ (active_futures q)); auto.
Qed.

Lemma drain_fresh outcome fs q acc :
  executor_shutdown q = false -> futures_fresh q ->
  futures_fresh (drain outcome fs q acc).2.
Proof.
  revert q acc. induction fs as [|f fs IH]; intros q acc Hs Hf; simpl; [exact Hf|].
  destruct (pop f (active_futures q)) as [[job rest_active]|] eqn:Hpop;
    [|apply IH; assumption].
  apply pop_sublist in Hpop. destruct Hf as [Hnd Hb].
  simpl. destruct (is_running q).
  - destruct (job_queue q) as [|next rest].
    + apply IH; [first [exact Hs|reflexivity]|]. unfold futures_fresh; simpl.
      eapply fresh_after_pop; eauto.
    + unfold executor_submit; simpl. rewrite Hs.
      apply IH; [first [exact Hs|reflexivity]|]. unfold futures_fresh; simpl.
      rewrite length_app; simpl. rewrite Nat.add_1_r.
      apply (fresh_after_pop_submit _ (active_futures q)); auto.
  - apply IH; [first [exact Hs|reflexivity]|]. unfold futures_fresh; simpl.
    eapply fresh_after_pop; eauto.
Qed.

Lemma apply_fresh q o :
  executor_shutdown q = false -> is_stop o = false -> futures_fresh q ->
  futures_fresh (apply q o).
Proof.
  intros Hs Ho Hf. destruct o as [j|m|d r| |]; simpl in *; try discriminate.
  - exact Hf.
  - unfold start_processing.
    apply (start_loop_fresh _ (set_is_running true q)); [exact Hs|exact Hf].
  - unfold get_completed_jobs. apply drain_fresh; assumption.
  - exact Hf.
Qed.

Lemma run_fresh ops q :
  executor_shutdown q = false ->
  forallb (fun o => negb (is_stop o)) ops = true ->
  futures_fresh q -> futures_fresh (run ops q).
Proof.
  revert q. induction ops as [|o ops IH]; intros q Hs Hops Hf; [exact Hf|].
  simpl in Hops. apply andb_prop in Hops as [Ho Hops].
  apply negb_true_iff in Ho.
  change (run (o :: ops) q) with (run ops (apply q o)).
  apply IH; [apply apply_fifo; assumption|exact Hops|].
  apply apply_fresh; assumption.
Qed.

Lemma filter_sublist {A} (p : A -> bool) (l : list A) :
  sublist (List.filter p l) l.
Proof.
  induction l as [|x l IH]; simpl; [constructor|].
  destruct (p x); [apply sublist_skip|apply sublist_cons]; exact IH.
Qed.

Lemma filter_keys (done : Future -> bool) (a : list (Future * Job)) :
  List.filter done (List.map fst a)
  = List.map fst (List.filter (fun p => done p.1) a).
Proof.
  induction a as [|[f j] a IH]; simpl; [reflexivity|].
  destruct (done f); simpl; rewrite IH; reflexivity.
Qed.

Lemma drain_reports outcome ps q acc :
  executor_shutdown q = false -> futures_fresh q ->
  sublist ps (active_futures q) ->
  (drain outcome (List.map fst ps) q acc).1
  = acc ++ List.map (fun p => result_tuple p.2 (outcome p.1)) ps /\
  completed_jobs_count (drain outcome (List.map fst ps) q acc).2
  = completed_jobs_count q + length ps.
Proof.
  revert q acc. induction ps as [|[f j] ps IH]; intros q acc Hs Hf Hsub.
  - simpl. rewrite app_nil_r. split; [reflexivity|lia].
  - simpl.
    destruct Hf as [Hnd Hb].
    destruct (pop_first_of_sublist f j ps _ Hnd Hsub) as (rest_active & Hpop & Hsub').
    rewrite Hpop. pose proof (pop_sublist _ _ _ _ Hpop) as Hrest. simpl.
    destruct (is_running q).
    + destruct (job_queue q) as [|next rest].
      * match goal with |- context [drain outcome _ ?x ?a] =>
          destruct (IH x a) as (H1 & H2) end.
        { first [exact Hs|reflexivity]. }
        { unfold futures_fresh; simpl. eapply fresh_after_pop; eauto. }
        { exact Hsub'. }
        rewrite H1, H2. simpl. rewrite <- app_assoc. simpl.
        split; [reflexivity|lia].
      * unfold executor_submit; simpl. rewrite Hs.
        match goal with |- context [drain outcome _ ?x ?a] =>
          destruct (IH x a) as (H1 & H2) end.
        { first [exact Hs|reflexivity]. }
        { unfold futures_fresh; simpl. rewrite length_app; simpl.
          rewrite Nat.add_1_r.
          apply (fresh_after_pop_submit _ (active_futures q)); auto. }
        { simpl. apply sublist_inserts_r. exact Hsub'. }
        rewrite H1, H2. simpl. rewrite <- app_assoc. simpl.
        split; [reflexivity|lia].
    + match goal with |- context [drain outcome _ ?x ?a] =>
        destruct (IH x a) as (H1 & H2) end.
      { first [exact Hs|reflexivity]. }
      { unfold futures_fresh; simpl. eapply fresh_after_pop; eauto. }
      { exact Hsub'. }
      rewrite H1, H2. simpl. rewrite <- app_assoc. simpl.
      split; [reflexivity|lia].
Qed.

Lemma pop_not_in f a j rest :
  NoDup (List.map fst a) -> pop f a = Some (j, rest) ->
  f ∉ List.map fst rest.
Proof.
  revert j rest. induction a as [|[g k] a IH]; intros j rest Hnd; simpl;
    [discriminate|].
  simpl in Hnd. apply NoDup_cons in Hnd as [Hg Hnd].
  destruct (Nat.eqb_spec f g) as [->|Hne].
  - intros [= <- <-]. exact Hg.
  - destruct (pop f a) as [[j' a'']|] eqn:Hp; [|discriminate].
    intros [= <- <-]. simpl. intros Hin. apply elem_of_cons in Hin as [?|Hin];
      [congruence|]. eapply IH; eauto.
Qed.

Lemma pop_none f a : pop f a = None -> f ∉ List.map fst a.
Proof.
  induction a as [|[g k] a IH]; simpl; [intros _ H; inversion H|].
  destruct (Nat.eqb_spec f g) as [->|Hne]; [discriminate|].
  destruct (pop f a) as [[j' a'']|]; [discriminate|].
  intros _ Hin. apply elem_of_cons in Hin as [?|Hin]; [congruence|].
  apply IH; auto.
Qed.

(** A poll only adds futures that the executor makes during the poll. *)
Lemma drain_keys outcome fs q acc k :
  k ∈ List.map fst (active_futures (drain outcome fs q acc).2) ->
  k ∈ List.map fst (active_futures q) \/ length (executor_submitted q) <= k.
Proof.
  revert q acc. induction fs as [|f fs IH]; intros q acc; simpl; [auto|].
  destruct (pop f (active_futures q)) as [[job rest_active]|] eqn:Hpop;
    [|apply IH].
  apply pop_sublist in Hpop.
  assert (Hk : forall x, x ∈ List.map fst rest_active ->
                         x ∈ List.map fst (active_futures q)).
  { intros x. apply sublist_subseteq, (fmap_sublist (fst : Future * Job -> Future)), Hpop. }
  simpl. destruct (is_running q).
  - destruct (job_queue q) as [|next rest].
    + intros H. apply IH in H as [H|H]; simpl in H; auto.
    + unfold executor_submit; simpl. destruct (executor_shutdown q); simpl.
      * auto.
      * intros H. apply IH in H as [H|H]; simpl in H.
        -- rewrite List.map_app in H. apply elem_of_app in H as [H|H]; auto.
           simpl in H. apply list_elem_of_singleton in H. subst k. right. lia.
        -- rewrite length_app in H. simpl in H. right. lia.
  - intros H. apply IH in H as [H|H]; simpl in H; auto.
Qed.

Lemma drain_submitted_grows outcome fs q acc :
  length (executor_submitted q)
  <= length (executor_submitted (drain outcome fs q acc).2).
Proof.
  revert q acc. induction fs as [|f fs IH]; intros q acc; simpl; [lia|].
  destruct (pop f (active_futures q)) as [[job rest_active]|]; [|apply IH].
  simpl. destruct (is_running q).
  - destruct (job_queue q) as [|next rest].
    + etrans; [|apply IH]. simpl. lia.
    + unfold executor_submit; simpl. destruct (executor_shutdown q); simpl; [lia|].
      etrans; [|apply IH]. simpl. rewrite length_app. lia.
  - etrans; [|apply IH]. simpl. lia.
Qed.

Lemma drain_removes outcome fs q acc f :
  executor_shutdown q = false -> futures_fresh q ->
  f ∈ fs -> f < length (executor_submitted q) ->
  f ∉ List.map fst (active_futures (drain outcome fs q acc).2).
Proof.
  revert q acc. induction fs as [|g fs IH]; intros q acc Hs Hf Hin Hlt.
  - inversion Hin.
  - simpl. destruct (decide (f = g)) as [->|Hne].
    + destruct (pop g (active_futures q)) as [[job rest_active]|] eqn:Hpop.
      * pose proof (pop_not_in _ _ _ _ (proj1 Hf) Hpop) as Hout.
        simpl. destruct (is_running q).
        -- destruct (job_queue q) as [|next rest].
           ++ intros H. apply drain_keys in H as [H|H]; simpl in H; [auto|lia].
           ++ unfold executor_submit; simpl. rewrite Hs.
              intros H. apply drain_keys in H as [H|H]; simpl in H.
              ** rewrite List.map_app in H. apply elem_of_app in H as [H|H]; auto.
                 simpl in H. apply list_elem_of_singleton in H. lia.
              ** rewrite length_app in H. simpl in H. lia.
        -- intros H. apply drain_keys in H as [H|H]; simpl in H; [auto|lia].
      * apply pop_none in Hpop.
        intros H. apply drain_keys in H as [H|H]; [auto|lia].
    + apply elem_of_cons in Hin as [?|Hin]; [congruence|].
      destruct (pop g (active_futures q)) as [[job rest_active]|] eqn:Hpop;
        [|apply IH; assumption].
      apply pop_sublist in Hpop. destruct Hf as [Hnd Hb].
      simpl. destruct (is_running q).
      * destruct (job_queue q) as [|next rest].
        -- apply IH; auto. unfold futures_fresh; simpl.
           eapply fresh_after_pop; eauto.
        -- unfold executor_submit; simpl. rewrite Hs.
           apply IH; auto.
           ++ unfold futures_fresh; simpl. rewrite length_app; simpl.
              rewrite Nat.add_1_r.
              apply (fresh_after_pop_submit _ (active_futures q)); auto.
           ++ simpl. rewrite length_app. lia.
      * apply IH; auto. unfold futures_fresh; simpl.
        eapply fresh_after_pop; eauto.
Qed.

Lemma fresh_init w : futures_fresh (init w).
Proof. split; simpl; constructor. Qed.

(** X7. The executor receives the jobs in the order in which [add_job]
    handed them in: as long as [stop] was not called, the jobs given to the
    executor followed by the jobs still waiting in the internal queue are
    exactly the jobs added, in order; no job is lost, repeated or
    overtaken. *)
Theorem jobs_reach_executor_in_order w ops :
  forallb (fun o => negb (is_stop o)) ops = true ->
  executor_submitted (run ops (init w)) ++ job_queue (run ops (init w))
  = added_jobs ops.
Proof.
  intros Hops. destruct (run_fifo ops (init w) eq_refl Hops) as [_ H].
  exact H.
Qed.

Lemma jobs_reach_executor_in_order_witness :
  let ops := sample_ops (Samples.sample_job "1") (Samples.sample_job "2")
                        (Samples.sample_job "3") in
  executor_submitted (run ops (init 2)) ++ job_queue (run ops (init 2))
  = [Samples.sample_job "1"; Samples.sample_job "2"; Samples.sample_job "3"].
Proof.
  apply (jobs_reach_executor_in_order 2
           (sample_ops (Samples.sample_job "1") (Samples.sample_job "2")
                       (Samples.sample_job "3"))).
  reflexivity.
Defined.

(** X8. After [stop] the executor is given nothing more, whatever is
    called afterwards: jobs added later, a new [start_processing] and later
    polls leave the list of jobs handed to the executor as it was. *)
Theorem nothing_submitted_after_stop q ops :
  executor_submitted (run ops (stop q)) = executor_submitted q.
Proof.
  destruct (run_shutdown ops (stop q) eq_refl) as [_ H]. exact H.
Qed.

(** X9. The progress triple is consistent after any history of calls:
    completed plus active never exceeds the total, and the total is the
    number of [add_job] calls. *)
Theorem progress_consistent w ops :
  let '(completed, active, total) := get_progress (run ops (init w)) in
  completed + active <= total /\ total = length (added_jobs ops).
Proof.
  unfold get_progress.
  pose proof (accounted_run ops (init w) (accounted_init w)) as Ha.
  pose proof (run_total ops (init w)) as Ht. simpl in Ht.
  unfold accounted, weight in Ha.
  destruct (Nat.eqb_spec (total_jobs_submitted_to_q (run ops (init w))) 0) as [E|E].
  - split; [lia|]. lia.
  - split; lia.
Qed.

(** X10. A poll reports every future that is done exactly once: the
    results are the entries of the done futures, in the order of the
    dictionary, each with the job it was made for; the completed count grows
    by their number, and none of these futures is active afterwards, so a
    later poll cannot report it again. *)
Theorem poll_reports_done_futures_once w ops done outcome :
  forallb (fun o => negb (is_stop o)) ops = true ->
  let q := run ops (init w) in
  let q' := (get_completed_jobs done outcome q).2 in
  (get_completed_jobs done outcome q).1 = reported done outcome q /\
  completed_jobs_count q'
  = completed_jobs_count q + length (reported done outcome q) /\
  forall f, done f = true -> f ∈ List.map fst (active_futures q) ->
            f ∉ List.map fst (active_futures q').
Proof.
  intros Hops q q'.
  destruct (run_fifo ops (init w) eq_refl Hops) as [Hs _].
  pose proof (run_fresh ops (init w) eq_refl Hops (fresh_init w)) as Hf.
  fold q in Hs, Hf.
  unfold q', get_completed_jobs, reported, done_pairs.
  rewrite filter_keys.
  destruct (drain_reports outcome
              (List.filter (fun p => done p.1) (active_futures q)) q []
              Hs Hf (filter_sublist _ _)) as [H1 H2].
  split; [exact H1|]. split; [rewrite H2, length_map; reflexivity|].
  intros f Hd Hin. rewrite <- filter_keys.
  apply drain_removes; auto.
  - apply list_elem_of_In, List.filter_In. split; [|exact Hd].
    apply list_elem_of_In, Hin.
  - exact (proj1 (Forall_forall _ _) (proj2 Hf) f Hin).
Qed.

Lemma poll_reports_done_futures_once_witness :
  let ops := [AddJob (Samples.sample_job "1"); AddJob (Samples.sample_job "2");
              StartProcessing 2; AddJob (Samples.sample_job "3")] in
  let done := fun f => Nat.eqb f 0 in
  let outcome := fun _ : Future => Returned None in
  let q := run ops (init 2) in
  let q' := (get_completed_jobs done outcome q).2 in
  (get_completed_jobs done outcome q).1 = reported done outcome q /\
  completed_jobs_count q'
  = completed_jobs_count q + length (reported done outcome q) /\
  forall f, done f = true -> f ∈ List.map fst (active_futures q) ->
            f ∉ List.map fst (active_futures q').
Proof.
  apply (poll_reports_done_futures_once 2
           [AddJob (Samples.sample_job "1"); AddJob (Samples.sample_job "2");
            StartProcessing 2; AddJob (Samples.sample_job "3")]).
  reflexivity.
Defined.

End JobQueueHistories.


(** ** The batch thread: its statistics and its termination *)

Section WorkerHistories.
Import JobQueue RunSpec QueueSpec WorkerSpec.
Local Open Scope nat_scope.

Lemma drain_counts outcome fs : forall q acc,
  completed_jobs_count (drain outcome fs q acc).2 + length acc
  = completed_jobs_count q + length (drain outcome fs q acc).1.
Proof.
  induction fs as [|f fs IH]; intros q acc; simpl; [lia|].
  destruct (pop f (active_futures q)) as [[job rest_active]|]; [|apply IH].
  simpl. destruct (is_running q).
  - destruct (job_queue q) as [|next rest].
    + match goal with |- context [drain outcome fs ?x ?a] =>
        pose proof (IH x a) as H end.
      rewrite length_app in H. simpl in H. lia.
    + unfold executor_submit; simpl. destruct (executor_shutdown q); simpl.
      * rewrite length_app. simpl. lia.
      * match goal with |- context [drain outcome fs ?x ?a] =>
          pose proof (IH x a) as H end.
        rewrite length_app in H. simpl in H. lia.
  - match goal with |- context [drain outcome fs ?x ?a] =>
      pose proof (IH x a) as H end.
    rewrite length_app in H. simpl in H. lia.
Qed.

Lemma count_results_sound rs : forall s,
  Worker.successful_in_batch s + Worker.failed_in_batch s
    = Worker.completed_in_batch s ->
  let s' := foldl (fun s r => Worker.count_result r s) s rs in
  Worker.successful_in_batch s' + Worker.failed_in_batch s'
    = Worker.completed_in_batch s' /\
  Worker.total_jobs_in_batch s' = Worker.total_jobs_in_batch s.
Proof.
  induction rs as [|[[j r] e] rs IH]; intros s Hs; simpl; [auto|].
  match goal with |- context [foldl _ ?x rs] =>
    destruct (IH x) as [H1 H2] end.
  - destruct e as [e|]; [simpl; lia|].
    destruct r as [r|]; [|simpl; lia]. destruct (success r); simpl; lia.
  - split; [exact H1|]. simpl in H2. rewrite H2.
    destruct e as [e|]; [reflexivity|].
    destruct r as [r|]; [|reflexivity]. destruct (success r); reflexivity.
Qed.

Lemma start_loop_completed n : forall q,
  completed_jobs_count (start_loop n q) = completed_jobs_count q.
Proof.
  induction n as [|n IH]; intros q; simpl; [reflexivity|].
  destruct (job_queue q); [apply IH|].
  destruct (is_running q); [|apply IH].
  unfold executor_submit; simpl. destruct (executor_shutdown q); simpl;
    [reflexivity|]. rewrite IH. reflexivity.
Qed.

Lemma sound_init batch m ft : sound (Worker.init batch m ft).
Proof.
  unfold sound, pending, accounted, weight; simpl.
  repeat split; try lia. intros ok st H. discriminate.
Qed.

Lemma sound_exit ok w : sound w -> sound (Worker.exit ok w).
Proof.
  unfold sound, pending, accounted, weight, Worker.exit; simpl.
  intros (H1 & H2 & H3 & H4 & H5 & H6 & H7 & H8).
  repeat split; try lia.
  - intros H. discriminate.
  - intros H. congruence.
  - intros ok' st [= _ <-]. reflexivity.
Qed.

Lemma sound_step pool done outcome w :
  sound w -> sound (Worker.step pool done outcome w).
Proof.
  intros Hs. unfold Worker.step.
  destruct (Worker.at_phase w) as [| |rs|] eqn:Hphase.
  - unfold Worker.run_setup.
    destruct (Worker.job_batch w) as [|j js] eqn:Hb; [apply sound_exit, Hs|].
    destruct (Worker._is_running_batch_thread w); [|apply sound_exit, Hs].
    rewrite <- Hb.
    destruct Hs as (H1 & H2 & H3 & H4 & H5 & H6 & H7 & H8).
    specialize (H6 Hphase). unfold pending in H3. rewrite Hphase in H3.
    assert (H7' : Worker.finished_signal w = None)
      by (apply H7; rewrite Hphase; discriminate).
    destruct (add_jobs_spec (Worker.attach_rate_limiter pool) (Worker.job_batch w)
                (Worker.job_queue_manager_for_batch w))
      as (A1 & A2 & A3 & A4 & A5 & A6).
    remember (foldl _ (Worker.job_queue_manager_for_batch w) (Worker.job_batch w))
      as q1 eqn:Hq1.
    assert (accounted q1) as Hacc1.
    { unfold accounted, weight in *. rewrite A1, A4, A5, A6, length_app, length_map.
      lia. }
    pose proof (accounted_apply q1
                  (StartProcessing (Worker.max_concurrent_tasks_in_batch w)) Hacc1)
      as Hacc.
    pose proof (apply_total q1
                  (StartProcessing (Worker.max_concurrent_tasks_in_batch w)))
      as Htot.
    simpl in Hacc, Htot.
    assert (Hcnt : completed_jobs_count
                     (start_processing (Worker.max_concurrent_tasks_in_batch w) q1)
                   = completed_jobs_count q1).
    { unfold start_processing. rewrite start_loop_completed. reflexivity. }
    unfold sound, pending, Worker.with_manager; simpl.
    repeat split; try assumption; try lia; try (intros; congruence).
  - destruct (Worker._is_running_batch_thread w); [|apply sound_exit, Hs].
    destruct (is_finished _); [apply sound_exit, Hs|].
    destruct Hs as (H1 & H2 & H3 & H4 & H5 & H6 & H7 & H8).
    unfold pending in H3. rewrite Hphase in H3.
    assert (H7' : Worker.finished_signal w = None)
      by (apply H7; rewrite Hphase; discriminate).
    pose proof (accounted_apply (Worker.job_queue_manager_for_batch w)
                  (GetCompletedJobs done outcome) H4) as Hacc.
    pose proof (apply_total (Worker.job_queue_manager_for_batch w)
                  (GetCompletedJobs done outcome)) as Htot.
    simpl in Hacc, Htot. unfold get_completed_jobs in *.
    match goal with |- context [drain outcome ?fs ?q ?a] =>
      pose proof (drain_counts outcome fs q a) as Hc;
      destruct (drain outcome fs q a) as [completed q'] end.
    simpl in Hc, Hacc, Htot.
    unfold sound, pending, Worker.with_manager; simpl.
    repeat split; try assumption; try lia; try (intros; congruence).
  - destruct (Worker._is_running_batch_thread w); [|apply sound_exit, Hs].
    destruct Hs as (H1 & H2 & H3 & H4 & H5 & H6 & H7 & H8).
    unfold pending in H3. rewrite Hphase in H3.
    assert (H7' : Worker.finished_signal w = None)
      by (apply H7; rewrite Hphase; discriminate).
    destruct (count_results_sound rs (Worker.batch_stats w) H2) as [C1 C2].
    pose proof (count_results_completed rs (Worker.batch_stats w)) as C3.
    unfold sound, pending; simpl.
    repeat split; try assumption; try lia; try (intros; congruence).
  - exact Hs.
Qed.

Lemma sound_stop w : sound w -> sound (Worker.stop w).
Proof.
  unfold sound, pending, accounted, weight, Worker.stop; simpl.
  intros (H1 & H2 & H3 & H4 & H5 & H6 & H7 & H8).
  repeat split; assumption.
Qed.

Lemma sound_history pool cs : forall w, sound w -> sound (history pool cs w).
Proof.
  induction cs as [|c cs IH]; intros w Hs; [exact Hs|].
  simpl. apply IH. destruct c; [apply sound_step|apply sound_stop]; exact Hs.
Qed.

Lemma history_job_batch pool cs : forall w,
  Worker.job_batch (history pool cs w) = Worker.job_batch w.
Proof.
  induction cs as [|c cs IH]; intros w; [reflexivity|].
  simpl. rewrite IH. destruct c; [apply step_job_batch|reflexivity].
Qed.

(** X11. The statistics of a batch thread add up, whatever the futures
    answer and whenever the main thread calls [stop]: the successful and the
    failed sends together are the completed ones, the completed ones never
    exceed the size of the batch, and the statistics carried by the
    finished signal are those of the thread. *)
Theorem batch_statistics_add_up pool batch m ft cs :
  let w := history pool cs (Worker.init batch m ft) in
  stats_add_up (Worker.batch_stats w) /\
  Worker.total_jobs_in_batch (Worker.batch_stats w) = length batch /\
  forall ok st, Worker.finished_signal w = Some (ok, st) -> stats_add_up st.
Proof.
  intros w.
  pose proof (sound_history pool cs _ (sound_init batch m ft)) as Hs.
  pose proof (history_job_batch pool cs (Worker.init batch m ft)) as Hb.
  fold w in Hs, Hb. simpl in Hb.
  destruct Hs as (H1 & H2 & H3 & H4 & H5 & H6 & H7 & H8).
  assert (Hadd : stats_add_up (Worker.batch_stats w)).
  { unfold stats_add_up. split; [exact H2|].
    unfold accounted, weight in H4. lia. }
  split; [exact Hadd|]. split; [rewrite H1, Hb; reflexivity|].
  intros ok st Hsig. rewrite (H8 ok st Hsig). exact Hadd.
Qed.

Lemma start_loop_weight_eq n : forall q,
  executor_shutdown q = false -> weight (start_loop n q) = weight q.
Proof.
  induction n as [|n IH]; intros q Hs; simpl; [reflexivity|].
  destruct (job_queue q) as [|job rest] eqn:Hq; [apply IH, Hs|].
  destruct (is_running q); [|apply IH, Hs].
  unfold executor_submit; simpl. rewrite Hs.
  rewrite IH; [|reflexivity]. unfold weight; simpl.
  rewrite Hq, length_app. simpl. lia.
Qed.

Lemma drain_weight_eq outcome fs : forall q acc,
  executor_shutdown q = false -> weight (drain outcome fs q acc).2 = weight q.
Proof.
  induction fs as [|f fs IH]; intros q acc Hs; simpl; [reflexivity|].
  destruct (pop f (active_futures q)) as [[job rest_active]|] eqn:Hpop;
    [|apply IH, Hs].
  apply pop_length in Hpop. simpl. destruct (is_running q).
  - destruct (job_queue q) as [|next rest] eqn:Hq.
    + rewrite IH; [|exact Hs]. unfold weight; simpl. rewrite Hq, Hpop. simpl. lia.
    + unfold executor_submit; simpl. rewrite Hs.
      rewrite IH; [|reflexivity]. unfold weight; simpl.
      rewrite Hq, Hpop, length_app. simpl. lia.
  - rewrite IH; [|exact Hs]. unfold weight; simpl. rewrite Hpop. lia.
Qed.

Lemma drain_busy outcome fs : forall q acc,
  is_running q = true -> executor_shutdown q = false ->
  (job_queue q <> [] -> active_futures q <> []) ->
  job_queue (drain outcome fs q acc).2 <> [] ->
  active_futures (drain outcome fs q acc).2 <> [].
Proof.
  induction fs as [|f fs IH]; intros q acc Hr Hs Hb; simpl; [exact Hb|].
  destruct (pop f (active_futures q)) as [[job rest_active]|];
    [|apply IH; assumption].
  simpl. rewrite Hr.
  destruct (job_queue q) as [|next rest] eqn:Hq.
  - apply IH; simpl; auto; try (rewrite ?Hq; congruence).
  - unfold executor_submit; simpl. rewrite Hs.
    apply IH; simpl; auto; try (intros _; destruct rest_active; discriminate).
Qed.

Lemma start_loop_active_grows n : forall q,
  length (active_futures q) <= length (active_futures (start_loop n q)).
Proof.
  induction n as [|n IH]; intros q; simpl; [lia|].
  destruct (job_queue q); [apply IH|].
  destruct (is_running q); [|apply IH].
  unfold executor_submit; simpl. destruct (executor_shutdown q); simpl; [lia|].
  etrans; [|apply IH]. simpl. rewrite length_app. lia.
Qed.

Lemma start_loop_busy n q :
  is_running q = true -> executor_shutdown q = false ->
  0 < n -> job_queue q <> [] ->
  active_futures (start_loop n q) <> [].
Proof.
  intros Hr Hs Hn Hq. destruct n as [|n]; [lia|]. simpl.
  destruct (job_queue q) as [|job rest]; [congruence|].
  rewrite Hr. unfold executor_submit; simpl. rewrite Hs.
  match goal with |- context [start_loop n ?x] =>
    pose proof (start_loop_active_grows n x) as H end.
  intros E. rewrite E in H. simpl in H. rewrite length_app in H. simpl in H. lia.
Qed.

Lemma progressing_poll done outcome q :
  progressing q -> progressing (get_completed_jobs done outcome q).2.
Proof.
  intros (Hr & Hs & Hf & Hw & Hb). unfold get_completed_jobs.
  match goal with |- context [drain outcome ?fs q ?a] =>
    pose proof (drain_conserve outcome fs q a Hs) as (D1 & D2 & D3 & D4 & D5);
    pose proof (drain_weight_eq outcome fs q a Hs) as Dw;
    pose proof (drain_fresh outcome fs q a Hs Hf) as Df;
    pose proof (drain_busy outcome fs q a Hr Hs Hb) as Db end.
  simpl in D1, D2, D3, D4, D5.
  repeat split; try assumption; try apply Df; congruence.
Qed.

Lemma filter_all {A} (p : A -> bool) (l : list A) :
  (forall x, p x = true) -> List.filter p l = l.
Proof.
  intros Hp. induction l as [|x l IH]; simpl; [reflexivity|].
  rewrite Hp, IH. reflexivity.
Qed.

(** When every future is done, a poll completes all the active ones. *)
Lemma poll_all_done done outcome q :
  (forall f, done f = true) -> progressing q ->
  completed_jobs_count (get_completed_jobs done outcome q).2
  = completed_jobs_count q + length (active_futures q).
Proof.
  intros Hd (Hr & Hs & Hf & Hw & Hb). unfold get_completed_jobs.
  rewrite filter_all by exact Hd.
  destruct (drain_reports outcome (active_futures q) q [] Hs Hf) as [_ H];
    [reflexivity|exact H].
Qed.

Lemma not_finished_active q :
  progressing q -> is_finished q = false -> active_futures q <> [].
Proof.
  intros (Hr & Hs & Hf & Hw & Hb) Hfin Ha.
  destruct (job_queue q) as [|j js] eqn:Hq.
  - unfold is_finished in Hfin. rewrite Hq, Ha in Hfin. simpl in Hfin.
    unfold weight in Hw. rewrite Hq, Ha in Hw. simpl in Hw.
    apply Nat.leb_gt in Hfin. lia.
  - apply Hb; [discriminate|exact Ha].
Qed.

Lemma steps_exited pool done outcome n : forall w,
  Worker.at_phase w = Worker.Exited -> steps pool done outcome n w = w.
Proof.
  induction n as [|n IH]; intros w He; simpl; [reflexivity|].
  assert (Hw : Worker.step pool done outcome w = w)
    by (unfold Worker.step; rewrite He; reflexivity).
  rewrite Hw. apply IH, He.
Qed.

Lemma looping_terminates pool done outcome :
  (forall f, done f = true) ->
  forall k w,
    thread_ok pool w -> Worker.at_phase w = Worker.Looping ->
    progressing (Worker.job_queue_manager_for_batch w) ->
    total_jobs_submitted_to_q (Worker.job_queue_manager_for_batch w)
      - completed_jobs_count (Worker.job_queue_manager_for_batch w) <= k ->
    Worker.at_phase (steps pool done outcome (2 * k + 1) w) = Worker.Exited /\
    thread_ok pool (steps pool done outcome (2 * k + 1) w).
Proof.
  intros Hd. induction k as [|k IH]; intros w Hok Hph Hp Hk.
  - pose proof (step_thread_ok pool done outcome w Hok) as Hok'.
    simpl. unfold Worker.step in *. rewrite Hph in *.
    destruct Hok as [Hrun Hrest]. rewrite Hrun in *.
    destruct (is_finished (Worker.job_queue_manager_for_batch w)) eqn:Hfin.
    + split; [reflexivity|exact Hok'].
    + exfalso. pose proof (not_finished_active _ Hp Hfin) as Ha.
      destruct Hp as (Hr & Hs & Hf & Hw & Hb). unfold weight in Hw.
      destruct (active_futures (Worker.job_queue_manager_for_batch w));
        [congruence|]. simpl in Hw. lia.
  - replace (2 * S k + 1) with (S (S (2 * k + 1))) by lia.
    pose proof (step_thread_ok pool done outcome w Hok) as Hok1.
    pose proof (step_thread_ok pool done outcome _ Hok1) as Hok2.
    simpl steps.
    remember (Worker.step pool done outcome w) as w1 eqn:Hw1.
    remember (Worker.step pool done outcome w1) as w2 eqn:Hw2.
    unfold Worker.step in Hw1. rewrite Hph in Hw1.
    destruct Hok as [Hrun Hrest]. rewrite Hrun in Hw1.
    destruct (is_finished (Worker.job_queue_manager_for_batch w)) eqn:Hfin.
    + assert (He : Worker.at_phase w1 = Worker.Exited) by (subst w1; reflexivity).
      assert (E2 : w2 = w1).
      { subst w2. unfold Worker.step. rewrite He. reflexivity. }
      rewrite E2 in *. rewrite steps_exited by exact He. auto.
    + pose proof (progressing_poll done outcome _ Hp) as Hp'.
      pose proof (poll_all_done done outcome _ Hd Hp) as Hc.
      pose proof (not_finished_active _ Hp Hfin) as Ha.
      pose proof (apply_total (Worker.job_queue_manager_for_batch w)
                    (GetCompletedJobs done outcome)) as Ht. simpl in Ht.
      destruct (get_completed_jobs done outcome
                  (Worker.job_queue_manager_for_batch w)) as [completed q'] eqn:Hg.
      simpl in Hp', Hc, Ht.
      assert (Hph1 : Worker.at_phase w1 = Worker.Polled completed)
        by (subst w1; reflexivity).
      assert (Hrun1 : Worker._is_running_batch_thread w1 = true)
        by (subst w1; exact Hrun).
      assert (Hq1 : Worker.job_queue_manager_for_batch w1 = q')
        by (subst w1; reflexivity).
      unfold Worker.step in Hw2. rewrite Hph1, Hrun1 in Hw2.
      apply IH.
      * exact Hok2.
      * subst w2. reflexivity.
      * subst w2. simpl. rewrite Hq1. exact Hp'.
      * subst w2. simpl. rewrite Hq1.
        destruct (active_futures (Worker.job_queue_manager_for_batch w));
          [congruence|]. simpl in Hc. lia.
Qed.

Lemma steps_job_batch pool done outcome n : forall w,
  Worker.job_batch (steps pool done outcome n w) = Worker.job_batch w.
Proof.
  induction n as [|n IH]; intros w; simpl; [reflexivity|].
  rewrite IH. apply step_job_batch.
Qed.

(** X12. A batch thread returns: if its batch is not empty, at least one
    send may run at a time, the thread is not stopped and every future is
    done whenever the thread polls, then after at most two steps per job
    (and two more) the thread has left [run], has emitted its finished
    signal with the success flag set, its statistics count every job of the
    batch as completed, and its executor was given the whole batch, each
    job once, in order. *)
Theorem batch_thread_returns pool batch m ft done outcome :
  batch <> [] -> 0 < m -> (forall f, done f = true) ->
  let w := steps pool done outcome (2 * length batch + 2)
             (Worker.init batch m ft) in
  Worker.at_phase w = Worker.Exited /\
  Worker.submitted w = List.map (Worker.attach_rate_limiter pool) batch /\
  exists st, Worker.finished_signal w = Some (true, st) /\
             Worker.completed_in_batch st = length batch.
Proof.
  intros Hb Hm Hd.
  replace (2 * length batch + 2) with (S (2 * length batch + 1)) by lia.
  simpl steps.
  pose proof (thread_ok_init pool batch m ft) as Hok0.
  pose proof (step_thread_ok pool done outcome _ Hok0) as Hok1.
  pose proof (step_job_batch pool done outcome (Worker.init batch m ft)) as Hjb.
  remember (Worker.step pool done outcome (Worker.init batch m ft)) as w1 eqn:Hw1.
  unfold Worker.step, Worker.run_setup in Hw1. simpl in Hw1.
  destruct batch as [|j js] eqn:Ebatch; [congruence|]. rewrite <- Ebatch in *.
  assert (Hw1' : w1 = Worker.with_manager
            (start_processing m
               (foldl (fun q j => add_job (Worker.attach_rate_limiter pool j) q)
                      (init m) batch))
            Worker.Looping (Worker.init batch m ft)).
  { rewrite Hw1, Ebatch. reflexivity. }
  clear Hw1.
  destruct (add_jobs_spec (Worker.attach_rate_limiter pool) batch (init m))
    as (A1 & A2 & A3 & A4 & A5 & A6).
  remember (foldl _ (init m) batch) as q1 eqn:Hq1. simpl in A1, A2, A3, A4, A5, A6.
  assert (Hlen : 0 < length (job_queue q1)).
  { rewrite A1, length_map, Ebatch. simpl. lia. }
  assert (Hp : progressing (start_processing m q1)).
  { unfold start_processing.
    destruct (start_loop_conserve
                (Nat.min m (length (job_queue (set_is_running true q1))))
                (set_is_running true q1) A3) as (S1 & S2 & S3 & S4 & S5).
    split; [exact S3|]. split; [exact S2|].
    split.
    { apply start_loop_fresh; [exact A3|]. unfold futures_fresh; simpl.
      rewrite A4. split; constructor. }
    split.
    { rewrite start_loop_weight_eq by exact A3. rewrite S5.
      unfold weight; simpl. rewrite A4, A5, A6, A1, length_map. simpl. lia. }
    intros _. apply start_loop_busy; simpl; auto.
    - lia.
    - destruct (job_queue q1); [simpl in Hlen; lia|discriminate]. }
  destruct (looping_terminates pool done outcome Hd (length batch) w1 Hok1)
    as [He Hok].
  - rewrite Hw1'. reflexivity.
  - rewrite Hw1'. exact Hp.
  - rewrite Hw1'. simpl.
    pose proof (apply_total q1 (StartProcessing m)) as Ht. simpl in Ht.
    rewrite Ht, A6. simpl. lia.
  - intros w. subst w. split; [exact He|].
    assert (Hjb' : Worker.job_batch
                     (steps pool done outcome (2 * length batch + 1) w1) = batch).
    { rewrite steps_job_batch, Hjb. reflexivity. }
    destruct Hok as [_ Hok]. rewrite He in Hok. rewrite Hjb' in Hok. exact Hok.
Qed.

Lemma batch_thread_returns_witness :
  let w := steps ∅ Samples.all_done Samples.sent_ok 6
             (Worker.init [Samples.sample_job "1"; Samples.sample_job "2"] 1 false) in
  Worker.at_phase w = Worker.Exited /\
  Worker.submitted w
  = List.map (Worker.attach_rate_limiter ∅)
      [Samples.sample_job "1"; Samples.sample_job "2"] /\
  exists st, Worker.finished_signal w = Some (true, st) /\
             Worker.completed_in_batch st = 2.
Proof.
  apply (batch_thread_returns ∅
           [Samples.sample_job "1"; Samples.sample_job "2"] 1 false
           Samples.all_done Samples.sent_ok).
  - discriminate.
  - lia.
  - reflexivity.
Defined.





End WorkerHistories.


(** ** The spintax pass: what it leaves alone and what it resolves *)

Section SpintaxMore.
Import Text Spintax.

Lemma ascii_eqb_refl a : ascii_eqb a a = true.
Proof. apply Ascii.eqb_refl. Qed.

Lemma ascii_eqb_sym a b : ascii_eqb a b = ascii_eqb b a.
Proof. apply Ascii.eqb_sym. Qed.

Lemma contains_char_cons c a s :
  contains_char c (String a s) = ascii_eqb c a || contains_char c s.
Proof. reflexivity. Qed.

Lemma contains_char_app c a : forall b,
  contains_char c (a +:+ b) = contains_char c a || contains_char c b.
Proof.
  induction a as [|x a IH]; intros b; [reflexivity|].
  rewrite app_cons, !contains_char_cons, IH, orb_assoc. reflexivity.
Qed.

Lemma brace_body_spec : forall s body rest,
  brace_body s = Some (body, rest) ->
  s = body +:+ "}" +:+ rest /\
  contains_char "{" body = false /\ contains_char "}" body = false.
Proof.
  induction s as [|a s IH]; intros body rest; simpl; [discriminate|].
  destruct (ascii_eqb a "}") eqn:E1.
  - intros [= <- <-]. apply ascii_eqb_eq in E1 as ->. auto.
  - destruct (ascii_eqb a "{") eqn:E2; [discriminate|].
    destruct (brace_body s) as [[b r]|] eqn:Hb; [|discriminate].
    intros [= <- <-]. destruct (IH _ _ eq_refl) as (H1 & H2 & H3).
    rewrite app_cons, !contains_char_cons, H2, H3.
    rewrite (ascii_eqb_sym "{" a), (ascii_eqb_sym "}" a), E1, E2.
    split; [f_equal; exact H1|auto].
Qed.

Lemma brace_body_complete rest : forall body,
  contains_char "{" body = false -> contains_char "}" body = false ->
  brace_body (body +:+ "}" +:+ rest) = Some (body, rest).
Proof.
  induction body as [|a body IH]; intros H1 H2; [reflexivity|].
  rewrite contains_char_cons in H1, H2.
  apply orb_false_iff in H1 as [A1 B1]. apply orb_false_iff in H2 as [A2 B2].
  rewrite app_cons. simpl.
  rewrite (ascii_eqb_sym a "}"), A2, (ascii_eqb_sym a "{"), A1, IH by assumption.
  reflexivity.
Qed.

Lemma search_spec : forall s before body rest,
  search s = Some (before, body, rest) ->
  s = before +:+ "{" +:+ body +:+ "}" +:+ rest /\
  contains_char "{" body = false /\ contains_char "}" body = false.
Proof.
  induction s as [|a s IH]; intros before body rest; simpl; [discriminate|].
  assert (Hlater :
    match search s with
    | Some (before0, body0, rest0) => Some (String a before0, body0, rest0)
    | None => None
    end = Some (before, body, rest) ->
    String a s = before +:+ "{" +:+ body +:+ "}" +:+ rest /\
    contains_char "{" body = false /\ contains_char "}" body = false).
  { destruct (search s) as [[[b0 body0] r0]|]; [|discriminate].
    intros [= <- <- <-]. destruct (IH _ _ _ eq_refl) as (H1 & H2 & H3).
    rewrite app_cons. split; [f_equal; exact H1|auto]. }
  destruct (ascii_eqb a "{") eqn:E; [|exact Hlater].
  destruct (brace_body s) as [[b r]|] eqn:Hb; [|exact Hlater].
  intros [= <- <- <-]. apply ascii_eqb_eq in E as ->.
  destruct (brace_body_spec _ _ _ Hb) as (H1 & H2 & H3).
  rewrite app_nil_l, app_cons, app_nil_l. split; [f_equal; exact H1|auto].
Qed.

Lemma search_none : forall s, contains_char "{" s = false -> search s = None.
Proof.
  induction s as [|a s IH]; intros H; [reflexivity|].
  rewrite contains_char_cons in H. apply orb_false_iff in H as [A B].
  simpl. rewrite (ascii_eqb_sym a "{"), A, IH by exact B. reflexivity.
Qed.

Lemma search_complete body rest s' : forall before,
  contains_char "{" before = false ->
  brace_body s' = Some (body, rest) ->
  search (before +:+ "{" +:+ s') = Some (before, body, rest).
Proof.
  induction before as [|a before IH]; intros H Hb.
  - rewrite app_nil_l, app_cons, app_nil_l. simpl. rewrite Hb. reflexivity.
  - rewrite contains_char_cons in H. apply orb_false_iff in H as [A B].
    rewrite app_cons. simpl.
    rewrite (ascii_eqb_sym a "{"), A, IH by assumption. reflexivity.
Qed.

Lemma search_pair before body rest :
  contains_char "{" before = false ->
  contains_char "{" body = false -> contains_char "}" body = false ->
  search (before +:+ "{" +:+ body +:+ "}" +:+ rest) = Some (before, body, rest).
Proof.
  intros H1 H2 H3. apply search_complete; [exact H1|].
  apply brace_body_complete; assumption.
Qed.

(** X14. A text without a pipe character comes back from the spintax pass
    as it went in, and no random draw is made: braces that hold no choice
    are never rewritten. *)
Theorem text_without_pipe_unchanged (text : string) (w : World) :
  contains_char "|" text = false ->
  process_spintax_in_text text w = (text, w).
Proof.
  intros Hp. destruct (search text) as [[[before body] rest]|] eqn:Hs.
  - eapply process_spintax_stuck; [exact Hs|].
    destruct (search_spec _ _ _ _ Hs) as (E & _ & _).
    rewrite E, !contains_char_app in Hp.
    apply orb_false_iff in Hp as [_ Hp]. apply orb_false_iff in Hp as [_ Hp].
    apply orb_false_iff in Hp as [Hp _]. exact Hp.
  - unfold process_spintax_in_text. destruct (_ || _); [reflexivity|].
    simpl. unfold spintax_step. rewrite Hs. reflexivity.
Qed.

Lemma text_without_pipe_unchanged_witness :
  process_spintax_in_text "a {plain} text" TagSpec.sample_world
  = ("a {plain} text", TagSpec.sample_world).
Proof.
  apply (text_without_pipe_unchanged "a {plain} text" TagSpec.sample_world).
  reflexivity.
Defined.

(** X15. A brace pair that holds no pipe, and before which no brace opens,
    blocks the pass: every turn of the loop finds this pair again, so the
    text comes back unchanged whatever follows the pair, choices
    included. *)
Theorem pipeless_pair_blocks_later_choices (before body rest : string)
    (w : World) :
  contains_char "{" before = false ->
  contains_char "{" body = false -> contains_char "}" body = false ->
  contains_char "|" body = false ->
  process_spintax_in_text (before +:+ "{" +:+ body +:+ "}" +:+ rest) w
  = (before +:+ "{" +:+ body +:+ "}" +:+ rest, w).
Proof.
  intros H1 H2 H3 H4.
  eapply process_spintax_stuck; [apply search_pair; assumption|exact H4].
Qed.

Lemma pipeless_pair_blocks_later_choices_witness :
  process_spintax_in_text
    ("Dear " +:+ "{" +:+ "friend" +:+ "}" +:+ ", {buy|order} {now|today}")
    TagSpec.sample_world
  = ("Dear " +:+ "{" +:+ "friend" +:+ "}" +:+ ", {buy|order} {now|today}",
     TagSpec.sample_world).
Proof.
  apply (pipeless_pair_blocks_later_choices "Dear " "friend"
           ", {buy|order} {now|today}" TagSpec.sample_world); reflexivity.
Defined.

Lemma replace_first_eq old new s :
  replace_first old new s =
  match strip_prefix old s with
  | Some rest => new +:+ rest
  | None =>
      match s with
      | "" => ""
      | String c s' => String c (replace_first old new s')
      end
  end.
Proof. destruct s; reflexivity. Qed.

Lemma strip_prefix_cons a p b s :
  strip_prefix (String a p) (String b s)
  = if ascii_eqb a b then strip_prefix p s else None.
Proof. reflexivity. Qed.

Lemma strip_prefix_self p : forall r, strip_prefix p (p +:+ r) = Some r.
Proof.
  induction p as [|a p IH]; intros r; [reflexivity|].
  rewrite app_cons. simpl. rewrite ascii_eqb_refl. apply IH.
Qed.

Lemma replace_first_at x new rest : forall before,
  contains_char "{" before = false ->
  replace_first ("{" +:+ x) new (before +:+ ("{" +:+ x) +:+ rest)
  = before +:+ new +:+ rest.
Proof.
  induction before as [|a before IH]; intros H.
  - rewrite !app_nil_l, replace_first_eq.
    rewrite strip_prefix_self. reflexivity.
  - rewrite contains_char_cons in H. apply orb_false_iff in H as [A B].
    change (String a before +:+ ("{" +:+ x) +:+ rest)
      with (String a (before +:+ ("{" +:+ x) +:+ rest)).
    change (String a before +:+ new +:+ rest)
      with (String a (before +:+ new +:+ rest)).
    rewrite replace_first_eq.
    assert (Hn : strip_prefix ("{" +:+ x)
                   (String a (before +:+ ("{" +:+ x) +:+ rest)) = None).
    { change ("{" +:+ x) with (String "{"%char x).
      rewrite strip_prefix_cons, A. reflexivity. }
    rewrite Hn, IH by exact B. reflexivity.
Qed.

Lemma lstrip_keeps_out c : forall s,
  contains_char c s = false -> contains_char c (lstrip s) = false.
Proof.
  induction s as [|a s IH]; intros H; [reflexivity|].
  simpl. destruct (is_space a); [|exact H].
  rewrite contains_char_cons in H. apply orb_false_iff in H as [_ B]. auto.
Qed.

Lemma rstrip_keeps_out c : forall s,
  contains_char c s = false -> contains_char c (rstrip s) = false.
Proof.
  induction s as [|a s IH]; intros H; [reflexivity|].
  rewrite contains_char_cons in H. apply orb_false_iff in H as [A B].
  simpl. destruct (is_space a && is_empty (rstrip s)); [reflexivity|].
  rewrite contains_char_cons, A, IH by exact B. reflexivity.
Qed.

Lemma strip_keeps_out c s :
  contains_char c s = false -> contains_char c (strip s) = false.
Proof. intros H. apply rstrip_keeps_out, lstrip_keeps_out, H. Qed.

Lemma split_on_keeps_out c d : forall s,
  contains_char c s = false ->
  Forall (fun o => contains_char c o = false) (split_on d s).
Proof.
  induction s as [|a s IH]; intros H; simpl.
  - repeat constructor.
  - rewrite contains_char_cons in H. apply orb_false_iff in H as [A B].
    specialize (IH B). destruct (ascii_eqb d a).
    + constructor; [reflexivity|exact IH].
    + destruct (split_on d s) as [|o os].
      * repeat constructor. rewrite contains_char_cons, A. reflexivity.
      * inversion IH; subst. constructor; [|assumption].
        rewrite contains_char_cons, A. assumption.
Qed.

Lemma nth_keeps_out c (l : list string) : forall i,
  Forall (fun o => contains_char c o = false) l ->
  contains_char c (nth i l "") = false.
Proof.
  induction l as [|o l IH]; intros i H; destruct i; simpl; try reflexivity.
  - inversion H; assumption.
  - apply IH. inversion H; assumption.
Qed.

(** X16. A single choice is resolved: in a text whose only brace pair
    holds options separated by pipes, the pair is
    replaced by one of the options, stripped of surrounding white space,
    picked by a single random draw; the text around it is kept. *)
Theorem single_choice_resolved (before body rest : string) (w : World) :
  contains_char "{" before = false ->
  contains_char "{" body = false -> contains_char "}" body = false ->
  contains_char "|" body = true ->
  contains_char "{" rest = false ->
  let options_list := List.map strip (split_on "|" body) in
  process_spintax_in_text (before +:+ "{" +:+ body +:+ "}" +:+ rest) w
  = (before
       +:+ nth (rand w (pos w) mod length options_list) options_list ""
       +:+ rest,
     advance w).
Proof.
  intros H1 H2 H3 H4 H5 options_list.
  set (chosen := nth (rand w (pos w) mod length options_list) options_list "").
  assert (Hc : contains_char "{" chosen = false).
  { apply nth_keeps_out. unfold options_list.
    apply List.Forall_map.
    eapply List.Forall_impl; [|apply split_on_keeps_out; exact H2].
    intros o Ho. apply strip_keeps_out, Ho. }
  assert (Hstep : spintax_step (before +:+ "{" +:+ body +:+ "}" +:+ rest) w
                  = Some (before +:+ chosen +:+ rest, advance w)).
  { unfold spintax_step. rewrite (search_pair _ _ _ H1 H2 H3), H4.
    unfold random_choice. fold options_list. fold chosen.
    unfold group0. f_equal. f_equal.
    rewrite <- (replace_first_at (body +:+ "}") chosen rest before H1).
    rewrite !app_assoc_s. reflexivity. }
  assert (Hstep2 : spintax_step (before +:+ chosen +:+ rest) (advance w) = None).
  { unfold spintax_step. rewrite search_none; [reflexivity|].
    rewrite !contains_char_app, H1, Hc, H5. reflexivity. }
  unfold process_spintax_in_text.
  assert (Hq : is_empty (before +:+ "{" +:+ body +:+ "}" +:+ rest)
               || negb (contains_char "{" (before +:+ "{" +:+ body +:+ "}" +:+ rest))
               = false).
  { rewrite !contains_char_app. simpl contains_char at 2.
    rewrite orb_true_r. simpl. rewrite orb_false_r.
    destruct before; reflexivity. }
  rewrite Hq. cbn [spintax_loop]. rewrite Hstep. cbn [spintax_loop].
  rewrite Hstep2. reflexivity.
Qed.

Lemma single_choice_resolved_witness :
  process_spintax_in_text ("Hi " +:+ "{" +:+ "Ann | Bob" +:+ "}" +:+ "!")
    TagSpec.sample_world
  = ("Hi " +:+ "Bob" +:+ "!", advance TagSpec.sample_world).
Proof.
  apply (single_choice_resolved "Hi " "Ann | Bob" "!" TagSpec.sample_world);
    reflexivity.
Defined.

End SpintaxMore.


(** ** Random strings, dynamic tags and recipient lists *)

Section TagsMore.
Import Text Tags TagSpec TextSpec.

Lemma random_chars_spec chars : forall n w,
  chars <> [] ->
  String.length (random_chars n chars w).1 = n /\
  pos (random_chars n chars w).2 = (pos w + n)%nat /\
  all_chars (fun c => existsb (ascii_eqb c) chars) (random_chars n chars w).1
  = true.
Proof.
  intros n w Hne. revert w. induction n as [|n IH]; intros w; simpl.
  - repeat split. lia.
  - destruct (IH (advance w)) as (H1 & H2 & H3).
    destruct (random_chars n chars (advance w)) as [s w2] eqn:E.
    simpl in *. split; [lia|]. split; [lia|].
    rewrite H3, andb_true_r. apply existsb_exists.
    exists (nth (rand w (pos w) mod length chars) chars "000"%char).
    split; [|apply ascii_eqb_refl].
    apply nth_In. apply Nat.mod_upper_bound.
    destruct chars; [congruence|simpl; lia].
Qed.

Lemma existsb_list_ascii c : forall s,
  existsb (ascii_eqb c) (String.list_ascii_of_string s) = contains_char c s.
Proof.
  induction s as [|a s IH]; [reflexivity|].
  simpl. rewrite IH. reflexivity.
Qed.

Lemma all_chars_ext (p q : ascii -> bool) :
  (forall c, p c = q c) -> forall s, all_chars p s = all_chars q s.
Proof.
  intros H. induction s as [|a s IH]; [reflexivity|].
  simpl. rewrite H, IH. reflexivity.
Qed.

Lemma char_sets_not_empty key cs : CHAR_SETS key = Some cs -> is_empty cs = false.
Proof.
  unfold CHAR_SETS.
  repeat match goal with |- context [String.eqb key ?k] =>
    destruct (String.eqb key k); [intros [= <-]; reflexivity|] end.
  discriminate.
Qed.

Lemma generate_random_string_spec n key w :
  String.length (generate_random_string n key w).1 = n /\
  pos (generate_random_string n key w).2 = (pos w + n)%nat /\
  all_chars
    (fun c => contains_char c (charset_of key))
    (generate_random_string n key w).1 = true.
Proof.
  unfold generate_random_string.
  unfold charset_of.
  set (chars := match CHAR_SETS key with Some cs => cs | None => alnum end).
  assert (Hne : is_empty chars = false).
  { unfold chars. destruct (CHAR_SETS key) eqn:E; [|reflexivity].
    eapply char_sets_not_empty, E. }
  rewrite Hne.
  destruct (random_chars_spec (String.list_ascii_of_string chars) n w)
    as (H1 & H2 & H3).
  { destruct chars; [discriminate|]. simpl. discriminate. }
  split; [exact H1|]. split; [exact H2|].
  rewrite <- H3. apply all_chars_ext. intros c. symmetry.
  apply existsb_list_ascii.
Qed.

(** X17. [generate_random_string(length, key)] returns exactly [length]
    characters, every one of them taken from the character set of the key
    (the alphanumeric set when the key is unknown), and makes exactly
    [length] random draws. *)
Theorem random_string_length_and_alphabet (n : nat) (key : string) (w : World) :
  let '(s, w') := generate_random_string n key w in
  String.length s = n /\
  all_chars
    (fun c => contains_char c (charset_of key))
    s = true /\
  pos w' = (pos w + n)%nat.
Proof.
  destruct (generate_random_string_spec n key w) as (H1 & H2 & H3).
  destruct (generate_random_string n key w) as [s w']. simpl in *. auto.
Qed.

Lemma contains_eq p s :
  contains p s =
  starts_with p s || match s with "" => false | String _ s' => contains p s' end.
Proof. destruct s; reflexivity. Qed.

Lemma starts_with_app p r : starts_with p (p +:+ r) = true.
Proof. unfold starts_with. rewrite strip_prefix_self. reflexivity. Qed.

Lemma no_opener_no_match c s :
  contains tag_open (String c s) = false -> match_tag_at (String c s) = None.
Proof.
  intros H. rewrite contains_eq in H. apply orb_false_iff in H as [H1 H2].
  unfold match_tag_at.
  destruct (starts_with token_tag (String c s)) eqn:Et.
  - exfalso. unfold starts_with in Et.
    destruct (strip_prefix token_tag (String c s)) as [r|] eqn:Ep; [|discriminate].
    apply strip_prefix_Some in Ep.
    change (token_tag +:+ r) with (String "#" (tag_open +:+ ("token]}}" +:+ r))) in Ep.
    injection Ep as _ Es. rewrite contains_eq, Es, starts_with_app in H2.
    discriminate.
  - unfold starts_with in H1.
    destruct (strip_prefix tag_open (String c s)); [discriminate|reflexivity].
Qed.

Lemma sub_tags_no_opener ctx : forall s st,
  contains tag_open s = false -> sub_tags ctx 0 s st = (s, st).
Proof.
  induction s as [|c s IH]; intros st H; [reflexivity|].
  simpl sub_tags. rewrite (no_opener_no_match c s H).
  rewrite contains_eq in H. apply orb_false_iff in H as [_ H].
  rewrite IH by exact H. reflexivity.
Qed.

(** X18. A text in which the tag opener [{{[] does not occur passes the
    dynamic-tag pass unchanged: nothing is replaced, no random draw is
    made and the boundary-tag cache of the job is not touched. *)
Theorem text_without_tag_opener_unchanged (ctx : list (string * string))
    (s : string) (st : ResolveState) :
  contains tag_open s = false -> sub_tags ctx 0 s st = (s, st).
Proof. apply sub_tags_no_opener. Qed.

Lemma text_without_tag_opener_unchanged_witness :
  sub_tags [] 0 "Hello {{name}}, see {[x]}" sample_state
  = ("Hello {{name}}, see {[x]}", sample_state).
Proof.
  apply (text_without_tag_opener_unchanged [] "Hello {{name}}, see {[x]}"
           sample_state).
  reflexivity.
Defined.

Lemma all_chars_impl (p q : ascii -> bool) :
  (forall c, p c = true -> q c = true) ->
  forall s, all_chars p s = true -> all_chars q s = true.
Proof.
  intros H. induction s as [|a s IH]; [reflexivity|].
  simpl. intros [Ha Hs]%andb_prop. rewrite (H a Ha), (IH Hs). reflexivity.
Qed.

Lemma all_chars_app p a : forall b,
  all_chars p (a +:+ b) = all_chars p a && all_chars p b.
Proof.
  induction a as [|x a IH]; intros b; [reflexivity|].
  rewrite app_cons. simpl. rewrite IH, andb_assoc. reflexivity.
Qed.

Lemma digit_tag_key_char c : is_digit c = true -> tag_key_char c = true.
Proof.
  intros H. unfold tag_key_char.
  assert (Hs : is_space c = false).
  { unfold is_digit in H. unfold is_space.
    apply andb_prop in H as [H1 H2].
    apply Nat.leb_le in H1. apply Nat.leb_le in H2.
    apply orb_false_iff. split; apply andb_false_iff; right;
      apply Nat.leb_gt; lia. }
  rewrite Hs.
  destruct (ascii_eqb c "]") eqn:E1;
    [apply ascii_eqb_eq in E1; subst c; discriminate H|].
  destruct (ascii_eqb c "010") eqn:E2;
    [apply ascii_eqb_eq in E2; subst c; discriminate H|].
  reflexivity.
Qed.

Lemma nalus_tag_key_char c : is_nalus c = true -> tag_key_char c = true.
Proof.
  unfold is_nalus. simpl. intros H.
  repeat (apply orb_prop in H as [H|H];
          [apply ascii_eqb_eq in H; subst c; reflexivity|]).
  discriminate.
Qed.

Lemma tag_body_complete rest : forall body,
  all_chars tag_key_char body = true ->
  tag_body (body +:+ tag_close +:+ rest) = Some (body, rest).
Proof.
  induction body as [|c body IH]; intros H.
  - rewrite app_nil_l, tag_body_eq, strip_prefix_self. reflexivity.
  - simpl in H. apply andb_prop in H as [Hc Hb].
    unfold tag_key_char in Hc.
    apply andb_prop in Hc as [Hc Hnl]. apply andb_prop in Hc as [_ Hbr].
    apply negb_true_iff in Hnl. apply negb_true_iff in Hbr.
    rewrite app_cons, tag_body_eq.
    change tag_close with (String "]" "}}") at 1.
    rewrite strip_prefix_cons, (ascii_eqb_sym "]" c), Hbr, Hnl, IH by exact Hb.
    reflexivity.
Qed.

Lemma rstrip_no_space : forall s,
  all_chars tag_key_char s = true -> rstrip s = s.
Proof.
  induction s as [|c s IH]; intros H; [reflexivity|].
  simpl in H. apply andb_prop in H as [Hc Hs].
  unfold tag_key_char in Hc.
  apply andb_prop in Hc as [Hc _]. apply andb_prop in Hc as [Hc _].
  apply negb_true_iff in Hc.
  simpl. rewrite Hc, IH by exact Hs. reflexivity.
Qed.

Lemma lstrip_no_space s :
  all_chars tag_key_char s = true -> lstrip s = s.
Proof.
  destruct s as [|c s]; [reflexivity|]. simpl. intros H.
  apply andb_prop in H as [Hc _]. unfold tag_key_char in Hc.
  apply andb_prop in Hc as [Hc _]. apply andb_prop in Hc as [Hc _].
  apply negb_true_iff in Hc. rewrite Hc. reflexivity.
Qed.

Lemma strip_no_space s : all_chars tag_key_char s = true -> strip s = s.
Proof.
  intros H. unfold strip. rewrite (lstrip_no_space s H). apply rstrip_no_space, H.
Qed.

Lemma replacer_rnd ctx key cs n st :
  all_chars tag_key_char key = true ->
  (String.eqb key "ide" = false /\ String.eqb key "date" = false /\
   String.eqb key "tag" = false /\ String.eqb key "rnd" = false /\
   String.eqb key "fromname" = false /\ String.eqb key "subject" = false /\
   String.eqb key "to" = false /\ String.eqb key "name" = false /\
   String.eqb key "smtp" = false /\ String.eqb key "smtp_name" = false) ->
  parse_var_len key = Some ("rnd", cs, n) ->
  (0 <? n)%N && (n <=? 1024)%N = true ->
  dynamic_tag_replacer_func ctx (tag_open +:+ key +:+ tag_close) st
  = fresh_value (tag_open +:+ key +:+ tag_close)
      (generate_random_string (N.to_nat n) cs) st.
Proof.
  intros Hk (E1 & E2 & E3 & E4 & E5 & E6 & E7 & E8 & E9 & E10) Hp Hn.
  unfold dynamic_tag_replacer_func.
  change (String.eqb (tag_open +:+ key +:+ tag_close) token_tag) with false.
  cbv beta iota. unfold tag_content.
  change (strip_prefix tag_open (tag_open +:+ key +:+ tag_close))
    with (Some (key +:+ tag_close)).
  cbv beta iota.
  pose proof (tag_body_complete "" key Hk) as Hb.
  change (key +:+ tag_close +:+ "") with (key +:+ tag_close) in Hb.
  rewrite Hb, (strip_no_space key Hk).
  rewrite E1, E2, E3, E4, E5, E6, E7, E8, E9, E10, Hp, Hn.
  reflexivity.
Qed.

Lemma parse_length_complete kind cs ds :
  is_empty ds = false -> all_chars is_digit ds = true ->
  parse_length kind cs (String "_" ds) = Some (kind, cs, int_of_digits ds).
Proof.
  intros He Hd. unfold parse_length.
  rewrite ascii_eqb_refl, He, Hd. reflexivity.
Qed.

(** X19. A tag [{{[rnd<cs>_<N>]}}], with <cs> one or two letters among n, a,
    l, u, s and N a decimal number in (0, 1024], is replaced by exactly N
    characters of the character set <cs> (the alphanumeric set when <cs>
    is not a key of [CHAR_SETS]); the boundary-tag cache is not touched. *)
Theorem rnd_tag_has_requested_length (ctx : list (string * string))
    (cs ds : string) (st : ResolveState) :
  nalus_charset cs ->
  is_empty ds = false -> all_chars is_digit ds = true ->
  (0 < int_of_digits ds <= 1024)%N ->
  let r := dynamic_tag_replacer_func ctx
             (tag_open +:+ ("rnd" +:+ cs +:+ "_" +:+ ds) +:+ tag_close) st in
  String.length r.1 = N.to_nat (int_of_digits ds) /\
  all_chars (fun c => contains_char c (charset_of cs)) r.1 = true /\
  boundary_tag_cache r.2 = boundary_tag_cache st.
Proof.
  intros [Hlen Hcs] He Hd [Hlo Hhi] r.
  assert (Hn : (0 <? int_of_digits ds)%N && (int_of_digits ds <=? 1024)%N = true).
  { apply andb_true_intro. split; [apply N.ltb_lt|apply N.leb_le]; assumption. }
  assert (Hds : all_chars tag_key_char ds = true)
    by (eapply all_chars_impl; [apply digit_tag_key_char|exact Hd]).
  assert (Hr : r = fresh_value
                     (tag_open +:+ ("rnd" +:+ cs +:+ "_" +:+ ds) +:+ tag_close)
                     (generate_random_string (N.to_nat (int_of_digits ds)) cs) st).
  { unfold r. destruct cs as [|c1 [|c2 [|c3 cs]]]; simpl in Hlen;
      try (destruct Hlen; discriminate).
    - simpl in Hcs. rewrite andb_true_r in Hcs.
      apply replacer_rnd; [| |  |exact Hn].
      + change ("rnd" +:+ String c1 "" +:+ "_" +:+ ds)
          with (String "r" (String "n" (String "d" (String c1 (String "_" ds))))).
        cbn [all_chars]. rewrite (nalus_tag_key_char c1 Hcs), Hds. reflexivity.
      + repeat split; reflexivity.
      + change ("rnd" +:+ String c1 "" +:+ "_" +:+ ds)
          with (String "r" (String "n" (String "d" (String c1 (String "_" ds))))).
        unfold parse_var_len.
        change (String.eqb "rnd" "rnd" || String.eqb "rnd" "bnd") with true.
        cbv beta iota. rewrite Hcs.
        change (is_nalus "_") with false. cbv beta iota.
        apply parse_length_complete; assumption.
    - simpl in Hcs. rewrite andb_true_r in Hcs. apply andb_prop in Hcs as [H1 H2].
      apply replacer_rnd; [| |  |exact Hn].
      + change ("rnd" +:+ String c1 (String c2 "") +:+ "_" +:+ ds)
          with (String "r" (String "n" (String "d"
                  (String c1 (String c2 (String "_" ds)))))).
        cbn [all_chars].
        rewrite (nalus_tag_key_char c1 H1), (nalus_tag_key_char c2 H2), Hds.
        reflexivity.
      + repeat split; reflexivity.
      + change ("rnd" +:+ String c1 (String c2 "") +:+ "_" +:+ ds)
          with (String "r" (String "n" (String "d"
                  (String c1 (String c2 (String "_" ds)))))).
        unfold parse_var_len.
        change (String.eqb "rnd" "rnd" || String.eqb "rnd" "bnd") with true.
        cbv beta iota. rewrite H1, H2.
        apply parse_length_complete; assumption. }
  rewrite Hr. unfold fresh_value.
  destruct (generate_random_string_spec (N.to_nat (int_of_digits ds)) cs (world st))
    as (G1 & G2 & G3).
  destruct (generate_random_string _ cs (world st)) as [v w']. simpl in *.
  auto.
Qed.

Lemma rnd_tag_has_requested_length_witness :
  let r := dynamic_tag_replacer_func [] "{{[rndn_6]}}" sample_state in
  String.length r.1 = 6%nat /\
  all_chars (fun c => contains_char c digits) r.1 = true /\
  boundary_tag_cache r.2 = boundary_tag_cache sample_state.
Proof.
  apply (rnd_tag_has_requested_length [] "n" "6" sample_state).
  - split; [left; reflexivity|reflexivity].
  - reflexivity.
  - reflexivity.
  - split; reflexivity || (vm_compute; discriminate).
Defined.

End TagsMore.


(** ** The recipient list of a job *)

Section RecipientsFacts.
Import Text Prepare.
Variable ext : Externals.

Lemma split_runs_pieces (is_delim : ascii -> bool) : forall s prev,
  Forall (fun piece => all_chars (fun c => negb (is_delim c)) piece = true)
         (split_runs is_delim prev s).
Proof.
  induction s as [|c s IH]; intros prev; simpl.
  - repeat constructor.
  - destruct (is_delim c) eqn:Hc.
    + destruct prev; [apply IH|]. constructor; [reflexivity|apply IH].
    + specialize (IH false). destruct (split_runs is_delim false s) as [|w ws].
      * repeat constructor. simpl. rewrite Hc. reflexivity.
      * inversion IH; subst. constructor; [|assumption].
        simpl. rewrite Hc. assumption.
Qed.

Lemma lstrip_keeps_all p : forall s,
  all_chars p s = true -> all_chars p (lstrip s) = true.
Proof.
  induction s as [|a s IH]; intros H; [reflexivity|].
  simpl. destruct (is_space a); [|exact H].
  simpl in H. apply andb_prop in H as [_ H]. auto.
Qed.

Lemma rstrip_keeps_all p : forall s,
  all_chars p s = true -> all_chars p (rstrip s) = true.
Proof.
  induction s as [|a s IH]; intros H; [reflexivity|].
  simpl in H. apply andb_prop in H as [A B].
  simpl. destruct (is_space a && is_empty (rstrip s)); [reflexivity|].
  simpl. rewrite A, IH by exact B. reflexivity.
Qed.

Lemma strip_keeps_all p s :
  all_chars p s = true -> all_chars p (strip s) = true.
Proof. intros H. apply rstrip_keeps_all, lstrip_keeps_all, H. Qed.

Lemma valid_emails_spec : forall cands seen,
  Forall (fun c => all_chars (fun x => negb (is_recipient_delim x)) c = true)
         cands ->
  let r := valid_emails ext cands seen in
  Forall (fun e => email_regex_fullmatch ext e = true /\
                   all_chars (fun x => negb (is_recipient_delim x)) e = true) r /\
  NoDup (List.map lower r) /\
  Forall (fun e => existsb (String.eqb (lower e)) seen = false) r.
Proof.
  induction cands as [|cand cands IH]; intros seen Hc; simpl.
  - repeat split; constructor.
  - inversion Hc as [|? ? Hcand Hrest]; subst.
    destruct (email_regex_fullmatch ext (strip cand)) eqn:Hm; [|apply IH, Hrest].
    destruct (existsb (String.eqb (lower (strip cand))) seen) eqn:Hseen;
      [apply IH, Hrest|].
    destruct (IH (lower (strip cand) :: seen) Hrest) as (H1 & H2 & H3).
    split; [|split].
    + constructor; [|exact H1]. split; [exact Hm|].
      apply strip_keeps_all, Hcand.
    + simpl. apply NoDup_cons. split; [|exact H2].
      intros Hin. apply list_elem_of_In, in_map_iff in Hin as (e & He & Hin).
      apply (proj1 (List.Forall_forall _ _) H3) in Hin. simpl in Hin.
      rewrite He, String.eqb_refl in Hin. discriminate.
    + constructor; [exact Hseen|].
      eapply List.Forall_impl; [|exact H3]. simpl.
      intros e He. apply orb_false_iff in He as [_ He]. exact He.
Qed.

(** X20. [_parse_recipients] returns only addresses that match the e-mail
    pattern in full; none of them holds a comma, a semicolon or white
    space, and no two of them are equal up to the case of their letters.
    An input that is blank gives the empty list. *)
Theorem parsed_recipients_valid_and_distinct (recipients_string_input : string) :
  let r := _parse_recipients ext recipients_string_input in
  Forall (fun e => email_regex_fullmatch ext e = true /\
                   all_chars (fun x => negb (is_recipient_delim x)) e = true) r /\
  NoDup (List.map lower r) /\
  (is_empty (strip recipients_string_input) = true -> r = []).
Proof.
  unfold _parse_recipients.
  destruct (is_empty recipients_string_input
            || is_empty (strip recipients_string_input)) eqn:E; simpl.
  - repeat split; constructor.
  - destruct (valid_emails_spec
                (split_runs is_recipient_delim false recipients_string_input) []
                (split_runs_pieces _ _ _)) as (H1 & H2 & _).
    split; [exact H1|]. split; [exact H2|].
    intros H. rewrite H, orb_true_r in E. discriminate.
Qed.

End RecipientsFacts.


(** ** The pool of rate limiters follows the configured servers *)

Section PoolFacts.
Import LimiterPool.

Lemma sync_loop_dom : forall configs time i pool configured,
  let r := sync_loop configs time i pool configured in
  dom r.1 = dom pool ∪ list_to_set (configured_nicknames configs) /\
  r.2 = configured ∪ list_to_set (configured_nicknames configs).
Proof.
  induction configs as [|c configs IH]; intros time i pool configured; simpl.
  - split; set_solver.
  - destruct (server_nickname c) as [n|]; [|apply IH].
    destruct (Text.is_empty n); [apply IH|].
    match goal with |- context [sync_loop configs time (S i) ?p ?s] =>
      destruct (IH time (S i) p s) as [H1 H2] end.
    simpl. rewrite H1, H2. split; [|set_solver].
    destruct (pool !! n) eqn:E; rewrite dom_insert_L; set_solver.
Qed.

Lemma lookup_foldr_delete (m : gmap string RateLimiter.t) (l : list string) k :
  foldr delete m l !! k = if bool_decide (k ∈ l) then None else m !! k.
Proof.
  induction l as [|x l IH]; simpl; [reflexivity|].
  destruct (decide (k = x)) as [->|Hne].
  - rewrite lookup_delete_eq. rewrite bool_decide_eq_true_2 by set_solver.
    reflexivity.
  - rewrite lookup_delete_ne by congruence. rewrite IH.
    destruct (bool_decide (k ∈ l)) eqn:E.
    + apply bool_decide_eq_true in E.
      rewrite bool_decide_eq_true_2 by set_solver. reflexivity.
    + apply bool_decide_eq_false in E.
      rewrite bool_decide_eq_false_2 by set_solver. reflexivity.
Qed.

Lemma sync_lookup configs time pool k :
  sync_rate_limiters configs time pool !! k =
  if bool_decide (k ∈ configured_nicknames configs)
  then (sync_loop configs time 0 pool ∅).1 !! k
  else None.
Proof.
  unfold sync_rate_limiters.
  destruct (sync_loop_dom configs time 0 pool ∅) as [H1 H2].
  destruct (sync_loop configs time 0 pool ∅) as [pool1 configured] eqn:E.
  simpl in *. rewrite lookup_foldr_delete.
  destruct (bool_decide (k ∈ configured_nicknames configs)) eqn:Ek.
  - apply bool_decide_eq_true in Ek.
    rewrite bool_decide_eq_false_2; [reflexivity|].
    rewrite elem_of_elements, H2. set_solver.
  - apply bool_decide_eq_false in Ek.
    destruct (bool_decide (k ∈ elements (dom pool ∖ configured))) eqn:Ed;
      [reflexivity|].
    apply bool_decide_eq_false in Ed. rewrite elem_of_elements, H2 in Ed.
    apply not_elem_of_dom. rewrite H1. set_solver.
Qed.

(** X21. After the server list is loaded, the pool holds a rate limiter
    for exactly the configured servers that have a nickname: limiters are
    created for the new ones and the limiters of servers that are no longer
    configured are deleted. *)
Theorem pool_follows_configured_servers (configs : list ServerConfig)
    (time : nat -> Q) (pool : gmap string RateLimiter.t) :
  dom (sync_rate_limiters configs time pool)
  = list_to_set (configured_nicknames configs).
Proof.
  apply set_eq. intros k. rewrite elem_of_dom, sync_lookup.
  destruct (sync_loop_dom configs time 0 pool ∅) as [H1 _].
  destruct (bool_decide (k ∈ configured_nicknames configs)) eqn:Ek.
  - apply bool_decide_eq_true in Ek. rewrite <- elem_of_dom, H1. set_solver.
  - apply bool_decide_eq_false in Ek. split; [intros [? ?]; discriminate|].
    set_solver.
Qed.

Lemma sync_loop_not_named n : forall configs time i pool configured,
  n ∉ configured_nicknames configs ->
  (sync_loop configs time i pool configured).1 !! n = pool !! n.
Proof.
  induction configs as [|c configs IH]; intros time i pool configured Hn; simpl;
    [reflexivity|].
  simpl in Hn. destruct (server_nickname c) as [n'|]; [|apply IH, Hn].
  destruct (Text.is_empty n'); [apply IH, Hn|].
  rewrite IH by set_solver.
  assert (n <> n') by set_solver.
  destruct (pool !! n'); rewrite lookup_insert_ne by congruence; reflexivity.
Qed.

Lemma last_config_none n : forall configs,
  last_config n configs = None <-> n ∉ configured_nicknames configs.
Proof.
  induction configs as [|c configs IH]; simpl; [set_solver|].
  destruct (last_config n configs) as [c'|] eqn:E.
  - split; [discriminate|]. intros H. exfalso.
    assert (n ∈ configured_nicknames configs).
    { destruct (decide (n ∈ configured_nicknames configs)); [assumption|].
      apply IH in n0. discriminate. }
    destruct (server_nickname c) as [n'|]; [|auto].
    destruct (Text.is_empty n'); [auto|]. set_solver.
  - destruct IH as [IH _]. specialize (IH eq_refl).
    destruct (server_nickname c) as [n'|]; [|tauto].
    destruct (Text.is_empty n'); simpl; [tauto|].
    destruct (String.eqb n n') eqn:Eq.
    + apply String.eqb_eq in Eq. subst n'. split; [discriminate|set_solver].
    + apply String.eqb_neq in Eq. split; [intros _|reflexivity]. set_solver.
Qed.

Lemma sync_loop_existing n : forall configs time i pool configured l c,
  pool !! n = Some l ->
  last_config n configs = Some c ->
  (sync_loop configs time i pool configured).1 !! n
  = Some (update_limiter c l).
Proof.
  induction configs as [|c0 configs IH]; intros time i pool configured l c Hl Hc;
    simpl in *; [discriminate|].
  destruct (last_config n configs) as [c'|] eqn:E.
  - injection Hc as ->.
    destruct (server_nickname c0) as [n'|]; [|eapply IH; eauto].
    destruct (Text.is_empty n'); [eapply IH; eauto|].
    destruct (decide (n = n')) as [<-|Hne].
    + rewrite Hl.
      erewrite IH; [|apply lookup_insert_eq|reflexivity]. reflexivity.
    + eapply IH; [|reflexivity].
      destruct (pool !! n'); rewrite lookup_insert_ne by congruence; exact Hl.
  - apply last_config_none in E.
    destruct (server_nickname c0) as [n'|]; [|discriminate].
    destruct (Text.is_empty n'); simpl in Hc; [discriminate|].
    destruct (String.eqb n n') eqn:Eq; [|discriminate].
    apply String.eqb_eq in Eq. subst n'.
    injection Hc as ->. rewrite sync_loop_not_named by exact E.
    rewrite Hl, lookup_insert_eq. reflexivity.
Qed.

(** X22. Loading the server list again keeps the state of a limiter that is
    already in the pool: its tokens and the time of its last refill stay,
    and its rate and capacity become those of the last configured server
    with its nickname, as they are, without the lower bounds that the
    constructor applies. *)
Theorem reload_keeps_limiter_state (configs : list ServerConfig)
    (time : nat -> Q) (pool : gmap string RateLimiter.t)
    (n : string) (l : RateLimiter.t) (c : ServerConfig) :
  pool !! n = Some l ->
  last_config n configs = Some c ->
  sync_rate_limiters configs time pool !! n
  = Some (RateLimiter.mk (effective_emails_per_sec c) (burst_allowance c)
            (RateLimiter.tokens l) (RateLimiter.last_update l)).
Proof.
  intros Hl Hc. rewrite sync_lookup.
  rewrite bool_decide_eq_true_2.
  - erewrite sync_loop_existing by eauto. reflexivity.
  - destruct (decide (n ∈ configured_nicknames configs)); [assumption|].
    apply last_config_none in n0. congruence.
Qed.

Lemma reload_keeps_limiter_state_witness :
  sync_rate_limiters sample_servers (fun _ => 9%Q) sample_pool !! "relay"
  = Some (RateLimiter.mk
            (effective_emails_per_sec
               (mkServer (Some "relay") (Some 20%Z) (Some 2%Q) (Some 5%Z)))
            (burst_allowance
               (mkServer (Some "relay") (Some 20%Z) (Some 2%Q) (Some 5%Z)))
            (1 # 2) 7).
Proof.
  apply (reload_keeps_limiter_state sample_servers (fun _ => 9%Q) sample_pool
           "relay" (RateLimiter.mk 1 3 (1 # 2) 7)
           (mkServer (Some "relay") (Some 20%Z) (Some 2%Q) (Some 5%Z))).
  - reflexivity.
  - reflexivity.
Defined.

End PoolFacts.


(** ** The control buttons, the pause and the counters *)

Section ControlFacts.
Import Campaign RunSpec WorkerSpec Controls.
Local Open Scope nat_scope.







Lemma dispatched_jobs_insert ths wid w w' a a' :
  ths !! wid = Some w ->
  Worker.job_batch w' = Worker.job_batch w ->
  Worker.for_test_email w' = Worker.for_test_email w ->
  dispatched_jobs (mkSystem a' (<[wid := w']> ths))
  = dispatched_jobs (mkSystem a ths).
Proof.
  intros Hw Hb Hf. unfold dispatched_jobs. simpl.
  apply (log_insert_same campaign_batch _ _ w); [exact Hw|].
  apply campaign_batch_same; assumption.
Qed.

Lemma dispatched_jobs_update wid f s a' :
  (forall w, Worker.job_batch (f w) = Worker.job_batch w) ->
  (forall w, Worker.for_test_email (f w) = Worker.for_test_email w) ->
  dispatched_jobs (mkSystem a' (threads (update_thread wid f s)))
  = dispatched_jobs s.
Proof.
  intros Hb Hf. unfold update_thread.
  destruct (threads s !! wid) as [w|] eqn:Hw; simpl.
  - rewrite (dispatched_jobs_insert _ _ w _ (app s) a' Hw (Hb w) (Hf w)).
    destruct s; reflexivity.
  - destruct s; reflexivity.
Qed.

Lemma update_thread_app wid f s : app (update_thread wid f s) = app s.
Proof. unfold update_thread. destruct (threads s !! wid); reflexivity. Qed.

Lemma blocked_step s e :
  dispatch_blocked (app s) = true -> bystander_event e = true ->
  dispatch_blocked (app (step s e)) = true /\
  current_job_index_for_dispatch (app (step s e))
  = current_job_index_for_dispatch (app s) /\
  email_job_queue (app (step s e)) = email_job_queue (app s) /\
  dispatched_jobs (step s e) = dispatched_jobs s.
Proof.
  intros Hb He. destruct e as [now|now|confirm now|now|wid done outcome|wid now|uuid];
    simpl in He; try discriminate; simpl.
  - apply negb_true_iff in He. subst confirm. rewrite stop_declined. auto.
  - unfold dispatch_next_email_batch_to_worker.
    unfold dispatch_blocked in Hb. rewrite Hb. auto.
  - unfold worker_step. destruct (threads s !! wid) as [w|] eqn:Hw; [|auto].
    simpl. repeat split; [exact Hb|].
    rewrite (dispatched_jobs_insert _ _ w _ (app s) _ Hw).
    + destruct s; reflexivity.
    + apply step_job_batch.
    + apply step_for_test_email.
  - unfold deliver_finished. destruct (threads s !! wid) as [w|] eqn:Hw; [|auto].
    destruct (Worker.finished_signal w) as [[ok stats]|]; [|auto].
    destruct (Worker.signal_delivered w); [auto|].
    destruct (Worker.for_test_email w).
    + unfold on_test_email_worker_finished. simpl.
      rewrite update_thread_app.
      repeat split; try exact Hb.
      apply dispatched_jobs_update; reflexivity.
    + unfold on_batch_worker_finished. rewrite update_thread_app. simpl.
      unfold dispatch_blocked in Hb.
      assert (Hn : queue_processing_active (app s)
                   && negb (is_paused_flag (app s)) = false).
      { apply orb_prop in Hb as [Hp|Ha].
        - rewrite Hp. apply andb_false_r.
        - apply negb_true_iff in Ha. rewrite Ha. reflexivity. }
      rewrite Hn.
      match goal with |- context [if ?b then _ else _] => destruct b end; simpl.
      * repeat split; apply dispatched_jobs_update; reflexivity.
      * repeat split; try exact Hb; apply dispatched_jobs_update; reflexivity.
  - unfold deliver_success.
    destruct (pending_success_signals (app s)) as [|job rest]; [auto|].
    unfold on_primary_email_success_trigger_test. simpl.
    match goal with |- context [if ?b then _ else _] => destruct b end; simpl.
    + repeat split; try exact Hb.
      unfold dispatched_jobs. simpl. rewrite List.map_app, concat_app. simpl.
      rewrite app_nil_r. reflexivity.
    + repeat split; exact Hb.
Qed.

(** X25. While the campaign is paused, or not active, no job of the queue
    is dispatched: whatever the worker threads and the timers do, until the
    user resumes, starts or stops, the dispatch cursor and the queue stay as
    they are, no new batch thread is given jobs, and dispatching stays
    blocked. *)
Theorem pause_freezes_dispatch (s : System) (evs : list event) :
  dispatch_blocked (app s) = true ->
  forallb bystander_event evs = true ->
  let s' := run evs s in
  dispatch_blocked (app s') = true /\
  current_job_index_for_dispatch (app s')
  = current_job_index_for_dispatch (app s) /\
  email_job_queue (app s') = email_job_queue (app s) /\
  dispatched_jobs s' = dispatched_jobs s.
Proof.
  revert s. induction evs as [|e evs IH]; intros s Hb He; simpl; [auto|].
  simpl in He. apply andb_prop in He as [He Hevs].
  destruct (blocked_step s e Hb He) as (B1 & B2 & B3 & B4).
  destruct (IH (step s e) B1 Hevs) as (I1 & I2 & I3 & I4).
  change (run (e :: evs) s) with (run evs (step s e)).
  repeat split; congruence.
Qed.

Lemma pause_freezes_dispatch_witness :
  let s := run [Start 1; TogglePause 2] Samples.sample_system in
  let s' := run [Samples.thread_step 0; Samples.thread_step 0;
                 Samples.thread_step 0; FinishedSignal 0 3; TimerDispatch 4;
                 PrimarySuccessSignal "0123456789abcdef"] s in
  dispatch_blocked (app s') = true /\
  current_job_index_for_dispatch (app s')
  = current_job_index_for_dispatch (app s) /\
  email_job_queue (app s') = email_job_queue (app s) /\
  dispatched_jobs s' = dispatched_jobs s.
Proof.
  apply (pause_freezes_dispatch
           (run [Start 1; TogglePause 2] Samples.sample_system)
           [Samples.thread_step 0; Samples.thread_step 0;
            Samples.thread_step 0; FinishedSignal 0 3; TimerDispatch 4;
            PrimarySuccessSignal "0123456789abcdef"]).
  - reflexivity.
  - reflexivity.
Defined.

Lemma sound_mark_delivered w : sound w -> sound (Worker.mark_delivered w).
Proof. unfold sound, pending. simpl. tauto. Qed.

Lemma sound_update wid f s :
  (forall w, sound w -> sound (f w)) ->
  Forall sound (threads s) -> Forall sound (threads (update_thread wid f s)).
Proof.
  intros Hf Hs. unfold update_thread.
  destruct (threads s !! wid) as [w|] eqn:Hw; [|exact Hs]. simpl.
  apply Forall_insert; [exact Hs|].
  apply Hf. exact (proj1 (Forall_lookup _ _) Hs wid w Hw).
Qed.

Lemma sound_stop_loop l : forall s,
  Forall sound (threads s) ->
  Forall sound
    (threads (foldl (fun s wid => update_thread wid Worker.stop s) s l)).
Proof.
  induction l as [|x l IH]; intros s Hs; simpl; [exact Hs|].
  apply IH, sound_update; [apply sound_stop|exact Hs].
Qed.

Lemma stop_loop_app l : forall s,
  app (foldl (fun s wid => update_thread wid Worker.stop s) s l) = app s.
Proof.
  induction l as [|x l IH]; intros s; simpl; [reflexivity|].
  rewrite IH. apply update_thread_app.
Qed.

Lemma counters_sound_dispatch now s :
  counters_sound s -> counters_sound (dispatch_next_email_batch_to_worker now s).
Proof.
  intros [Hs Hc]. destruct (dispatch_counters now s) as (D1 & D2 & _).
  split; [|rewrite D1, D2; exact Hc].
  unfold dispatch_next_email_batch_to_worker.
  repeat match goal with
         | |- context [if ?b then _ else _] => destruct b
         end; simpl; try exact Hs.
  all: apply Forall_app; split; [exact Hs|];
    repeat constructor; apply sound_init.
Qed.

Lemma counters_sound_step s e : counters_sound s -> counters_sound (step s e).
Proof.
  intros Hcs. pose proof Hcs as [Hs Hc].
  destruct e as [now|now|confirm now|now|wid done outcome|wid now|uuid]; simpl.
  - unfold action_start_queue_processing.
    destruct (start_refused (app s)); [exact Hcs|].
    apply counters_sound_dispatch. split; [exact Hs|]. simpl.
    unfold start_reset. destruct (app s); simpl in *.
    repeat match goal with
           | |- context [if ?b then _ else _] => destruct b
           end; simpl; lia.
  - unfold action_toggle_pause_resume_queue.
    repeat match goal with
           | |- context [if ?b then _ else _] => destruct b
           end; simpl; try exact Hcs; split; simpl; assumption.
  - unfold action_stop_queue_processing_and_clear.
    destruct (nothing_to_stop (app s)); [exact Hcs|].
    destruct confirm; [|exact Hcs].
    split; simpl.
    + apply sound_stop_loop. exact Hs.
    + rewrite stop_loop_app. simpl. exact Hc.
  - apply counters_sound_dispatch, Hcs.
  - unfold worker_step. destruct (threads s !! wid) as [w|] eqn:Hw; [|exact Hcs].
    split; simpl; [|exact Hc].
    apply Forall_insert; [exact Hs|]. apply sound_step.
    exact (proj1 (Forall_lookup _ _) Hs wid w Hw).
  - unfold deliver_finished. destruct (threads s !! wid) as [w|] eqn:Hw; [|exact Hcs].
    destruct (Worker.finished_signal w) as [[ok stats]|] eqn:Hsig; [|exact Hcs].
    destruct (Worker.signal_delivered w); [exact Hcs|].
    pose proof (sound_update wid Worker.mark_delivered s sound_mark_delivered Hs)
      as Hs'.
    destruct (Worker.for_test_email w).
    + split; simpl; [exact Hs'|]. rewrite update_thread_app. exact Hc.
    + unfold on_batch_worker_finished. rewrite update_thread_app. simpl.
      pose proof (proj1 (Forall_lookup _ _) Hs wid w Hw) as Hw_sound.
      destruct Hw_sound as (_ & H2 & _ & _ & _ & _ & _ & H8).
      rewrite <- (H8 ok stats Hsig) in H2.
      repeat match goal with
             | |- context [if ?b then _ else _] => destruct b
             end; split; simpl; try exact Hs'; lia.
  - unfold deliver_success.
    destruct (pending_success_signals (app s)) as [|job rest]; [exact Hcs|].
    unfold on_primary_email_success_trigger_test. simpl.
    match goal with |- context [if ?b then _ else _] => destruct b end;
      split; simpl; try exact Hs; try exact Hc.
    apply Forall_app. split; [exact Hs|]. repeat constructor. apply sound_init.
Qed.

Lemma counters_sound_run evs : forall s,
  counters_sound s -> counters_sound (run evs s).
Proof.
  induction evs as [|e evs IH]; intros s H; [exact H|].
  apply IH, counters_sound_step, H.
Qed.

Lemma success_rate_bounds a :
  total_emails_successful_overall a <= total_emails_processed_overall a ->
  (0 <= success_rate_overall a /\ success_rate_overall a <= 100)%Q.
Proof.
  intros H. unfold success_rate_overall.
  set (p := Nat.max (total_emails_processed_overall a) 1).
  assert (Hp : (0 < inject_Z (Z.of_nat p))%Q).
  { change 0%Q with (inject_Z 0). rewrite <- Zlt_Qlt. unfold p. lia. }
  assert (Hs : (0 <= inject_Z (Z.of_nat (total_emails_successful_overall a)))%Q).
  { change 0%Q with (inject_Z 0). rewrite <- Zle_Qle. lia. }
  assert (Hle : (inject_Z (Z.of_nat (total_emails_successful_overall a))
                 <= inject_Z (Z.of_nat p))%Q).
  { rewrite <- Zle_Qle. unfold p. lia. }
  assert (H1 : (inject_Z (Z.of_nat (total_emails_successful_overall a))
                / inject_Z (Z.of_nat p) <= 1)%Q).
  { apply Qle_shift_div_r; [exact Hp|]. rewrite Qmult_1_l. exact Hle. }
  assert (H0 : (0 <= inject_Z (Z.of_nat (total_emails_successful_overall a))
                / inject_Z (Z.of_nat p))%Q).
  { apply Qle_shift_div_l; [exact Hp|]. rewrite Qmult_0_l. exact Hs. }
  split; lra.
Qed.

(** X26. The application never counts more successful sends than sends:
    from a start without worker threads, whatever the user, the timers and
    the threads do, the successful counter stays at most the processed
    counter, so the success rate that the statistics display and the final
    summary show lies between 0 and 100 per cent. *)
Theorem success_rate_at_most_100 (a : MailerApp) (evs : list event) :
  total_emails_successful_overall a <= total_emails_processed_overall a ->
  let a' := app (run evs (mkSystem a [])) in
  total_emails_successful_overall a' <= total_emails_processed_overall a' /\
  (0 <= success_rate_overall a' /\ success_rate_overall a' <= 100)%Q.
Proof.
  intros H a'.
  assert (Hcs : counters_sound (run evs (mkSystem a []))).
  { apply counters_sound_run. split; [constructor|exact H]. }
  destruct Hcs as [_ Hc]. split; [exact Hc|].
  apply success_rate_bounds. exact Hc.
Qed.

Lemma success_rate_at_most_100_witness :
  let a' := app (run (Start 1 :: Samples.sample_full_run)
                   (mkSystem Samples.sample_app [])) in
  total_emails_successful_overall a' <= total_emails_processed_overall a' /\
  (0 <= success_rate_overall a' /\ success_rate_overall a' <= 100)%Q.
Proof.
  apply (success_rate_at_most_100 Samples.sample_app
           (Start 1 :: Samples.sample_full_run)).
  simpl. lia.
Defined.

End ControlFacts.


(** ** The lists of senders kept by the managing dialogs *)

Section DialogFacts.
Import Text Dialogs.

Lemma rstrip_idem : forall s, rstrip (rstrip s) = rstrip s.
Proof.
  induction s as [|c s IH]; [reflexivity|].
  simpl. destruct (is_space c && is_empty (rstrip s)) eqn:E; [reflexivity|].
  simpl. rewrite IH, E. reflexivity.
Qed.

Lemma lstrip_head s :
  lstrip s = "" \/ exists c t, lstrip s = String c t /\ is_space c = false.
Proof.
  induction s as [|c s IH]; [left; reflexivity|].
  simpl. destruct (is_space c) eqn:E; [exact IH|].
  right. exists c, s. auto.
Qed.

Lemma strip_idem s : strip (strip s) = strip s.
Proof.
  unfold strip. destruct (lstrip_head s) as [H|(c & t & H & Hc)]; rewrite H.
  - reflexivity.
  - simpl. rewrite Hc. simpl. rewrite Hc. simpl.
    rewrite Hc. simpl. rewrite rstrip_idem. reflexivity.
Qed.

Lemma same_lower_refl a : same_lower a a = true.
Proof. apply String.eqb_refl. Qed.

Lemma same_lower_eq a b : same_lower a b = true <-> lower a = lower b.
Proof. apply String.eqb_eq. Qed.

Lemma replace_first_match_map {A B} (key : A -> B) (p : A -> bool) new l :
  (forall x, In x l -> p x = true -> key x = key new) ->
  List.map key (replace_first_match p new l) = List.map key l.
Proof.
  induction l as [|x l IH]; intros H; simpl; [reflexivity|].
  destruct (p x) eqn:E; simpl.
  - rewrite (H x (or_introl eq_refl) E). reflexivity.
  - rewrite IH; [reflexivity|]. intros y Hy. apply H. right. exact Hy.
Qed.

Lemma replace_first_match_Forall {A} (P : A -> Prop) (p : A -> bool) new l :
  P new -> Forall P l -> Forall P (replace_first_match p new l).
Proof.
  intros Hn. induction 1 as [|x l Hx Hl IH]; simpl; [constructor|].
  destruct (p x); constructor; assumption.
Qed.

Lemma filter_sublist_map {A B} (f : A -> B) (p : A -> bool) l :
  NoDup (List.map f l) -> NoDup (List.map f (List.filter p l)).
Proof.
  intros H. eapply sublist_NoDup; [exact H|].
  apply (fmap_sublist f). apply filter_sublist.
Qed.

Lemma filter_Forall {A} (P : A -> Prop) (p : A -> bool) l :
  Forall P l -> Forall P (List.filter p l).
Proof.
  induction 1 as [|x l Hx Hl IH]; simpl; [constructor|].
  destruct (p x); [constructor|]; assumption.
Qed.

Lemma server_form_valid_details f :
  server_form_valid f = true ->
  let d := get_server_details f in
  is_empty (srv_nickname d) = false /\
  strip (srv_nickname d) = srv_nickname d /\
  is_empty (srv_host d) = false /\
  (1 <= srv_port d <= 65535)%N /\
  ((0 < srv_rate_limit_emails d)%Z -> (0 < srv_rate_limit_seconds d)%Q).
Proof.
  unfold server_form_valid, get_server_details. simpl.
  destruct (is_empty (strip (nickname_input f))) eqn:En; [discriminate|].
  destruct (is_empty (strip (host_input f))) eqn:Eh; [discriminate|].
  destruct (is_empty (strip (port_input f))
            || negb (isdigit (strip (port_input f)))
            || negb ((1 <=? int_of_digits (strip (port_input f)))%N
                     && (int_of_digits (strip (port_input f)) <=? 65535)%N))
    eqn:Ep; [discriminate|].
  destruct ((0 <? rate_limit_emails_spinbox f)%Z
            && Qle_bool (rate_limit_seconds_spinbox f) 0) eqn:Er;
    [discriminate|].
  intros _.
  apply orb_false_iff in Ep as [Ep Hrange]. apply orb_false_iff in Ep as [_ Hd].
  apply negb_false_iff in Hd. apply negb_false_iff in Hrange.
  apply andb_prop in Hrange as [H1 H2].
  apply N.leb_le in H1. apply N.leb_le in H2. rewrite Hd.
  split; [reflexivity|]. split; [apply strip_idem|]. split; [reflexivity|].
  split; [split; assumption|].
  intros Hpos. apply Z.ltb_lt in Hpos. rewrite Hpos in Er. simpl in Er.
  apply Qnot_le_lt. intros Hle. apply Qle_bool_iff in Hle. congruence.
Qed.

Lemma servers_ok_add f servers :
  servers_ok servers -> servers_ok (add_server f servers).
Proof.
  intros [Hnd Hall]. unfold add_server.
  destruct (server_form_valid f) eqn:Hv; [|split; assumption].
  destruct (existsb _ servers) eqn:Hex; [split; assumption|].
  split.
  - rewrite List.map_app. simpl. apply NoDup_app. split; [exact Hnd|].
    split; [|apply NoDup_singleton].
    intros x Hx Hx'. apply list_elem_of_singleton in Hx'. subst x.
    apply list_elem_of_In, in_map_iff in Hx as (s & Hs & Hin).
    assert (existsb (fun s => same_lower (srv_nickname s)
                                (srv_nickname (get_server_details f)))
                    servers = true); [|congruence].
    apply existsb_exists. exists s. split; [exact Hin|].
    apply same_lower_eq. exact Hs.
  - apply Forall_app. split; [exact Hall|]. constructor; [|constructor].
    apply (server_form_valid_details f Hv).
Qed.

Lemma server_edit_form_nickname original f :
  is_empty (srv_nickname original) = false ->
  strip (srv_nickname original) = srv_nickname original ->
  srv_nickname (get_server_details (server_edit_form original f))
  = srv_nickname original.
Proof.
  intros He Hs. unfold server_edit_form. rewrite He. simpl. exact Hs.
Qed.

Lemma servers_ok_edit row f servers :
  servers_ok servers -> servers_ok (edit_server row f servers).
Proof.
  intros [Hnd Hall]. unfold edit_server.
  destruct (servers !! row) as [original|] eqn:Hrow; [|split; assumption].
  destruct (server_form_valid (server_edit_form original f)) eqn:Hv;
    [|split; assumption].
  destruct (proj1 (Forall_lookup _ _) Hall row original Hrow)
    as (He & Hs & _).
  pose proof (server_edit_form_nickname original f He Hs) as Hn.
  split.
  - rewrite replace_first_match_map; [exact Hnd|].
    intros x _ Hx. apply same_lower_eq in Hx. rewrite Hn. exact Hx.
  - apply replace_first_match_Forall; [|exact Hall].
    apply (server_form_valid_details _ Hv).
Qed.

Lemma servers_ok_remove row confirm servers :
  servers_ok servers -> servers_ok (remove_server row confirm servers).
Proof.
  intros [Hnd Hall]. unfold remove_server.
  destruct (servers !! row) as [r|]; [|split; assumption].
  destruct confirm; [|split; assumption].
  split; [apply filter_sublist_map, Hnd|apply filter_Forall, Hall].
Qed.

Lemma servers_ok_manage ops : forall servers,
  servers_ok servers -> servers_ok (manage_servers ops servers).
Proof.
  induction ops as [|o ops IH]; intros servers H; [exact H|].
  apply IH. destruct o; simpl;
    [apply servers_ok_add|apply servers_ok_edit|apply servers_ok_remove];
    exact H.
Qed.

(** X27. The dialog that manages the SMTP servers keeps its list in
    order, whatever the user adds, edits and removes: no two servers of
    the list have the same nickname, even up to the case of the letters;
    every server has a nickname and a host, a port between 1 and 65535,
    and a positive period whenever its rate limit is positive. *)
Theorem managed_servers_have_distinct_nicknames (ops : list server_op)
    (servers : list Server) :
  servers_ok servers -> servers_ok (manage_servers ops servers).
Proof. apply servers_ok_manage. Qed.

Lemma managed_servers_have_distinct_nicknames_witness :
  servers_ok
    (manage_servers
       [AddServer (mkServerForm "relay" "smtp.example.org" "587" "me" "pw"
                     "TLS (STARTTLS)" "" 10 1 5);
        AddServer (mkServerForm " Relay " "other.example.org" "25" "" ""
                     "None" "" 0 1 1);
        EditServer 0 (mkServerForm "renamed" "smtp.example.org" "465" "me" "pw"
                        "SSL" "" 10 1 5);
        RemoveServer 3 true]
       []).
Proof.
  apply (managed_servers_have_distinct_nicknames
           [AddServer (mkServerForm "relay" "smtp.example.org" "587" "me" "pw"
                         "TLS (STARTTLS)" "" 10 1 5);
            AddServer (mkServerForm " Relay " "other.example.org" "25" "" ""
                         "None" "" 0 1 1);
            EditServer 0 (mkServerForm "renamed" "smtp.example.org" "465" "me"
                            "pw" "SSL" "" 10 1 5);
            RemoveServer 3 true]
           []).
  split; constructor.
Defined.

Lemma lower_char_idem c : lower_char (lower_char c) = lower_char c.
Proof. destruct c as [[] [] [] [] [] [] [] []]; reflexivity. Qed.

Lemma lower_char_space c : is_space (lower_char c) = is_space c.
Proof. destruct c as [[] [] [] [] [] [] [] []]; reflexivity. Qed.

Lemma lower_idem : forall s, lower (lower s) = lower s.
Proof.
  induction s as [|c s IH]; [reflexivity|].
  simpl. rewrite lower_char_idem, IH. reflexivity.
Qed.

Lemma is_empty_lower s : is_empty (lower s) = is_empty s.
Proof. destruct s; reflexivity. Qed.

Lemma lstrip_lower : forall s, lstrip (lower s) = lower (lstrip s).
Proof.
  induction s as [|c s IH]; [reflexivity|].
  simpl. rewrite lower_char_space. destruct (is_space c); [exact IH|reflexivity].
Qed.

Lemma rstrip_lower : forall s, rstrip (lower s) = lower (rstrip s).
Proof.
  induction s as [|c s IH]; [reflexivity|].
  simpl. rewrite lower_char_space, IH, is_empty_lower.
  destruct (is_space c && is_empty (rstrip s)); reflexivity.
Qed.

Lemma strip_lower s : strip (lower s) = lower (strip s).
Proof. unfold strip. rewrite lstrip_lower, rstrip_lower. reflexivity. Qed.

Lemma normal_email t :
  lower (strip (lower (strip t))) = lower (strip t).
Proof. rewrite strip_lower, lower_idem, strip_idem. reflexivity. Qed.

Lemma account_form_valid_details f :
  account_form_valid f = true ->
  let d := get_account_details f in
  lower (strip (acc_email d)) = acc_email d /\
  contains_char "@" (acc_email d) = true /\
  strip (acc_nickname d) = acc_nickname d.
Proof.
  unfold account_form_valid, get_account_details. simpl.
  destruct (is_empty (lower (strip (email_input f)))
            || negb (contains_char "@" (lower (strip (email_input f))))
            || _) eqn:E; [discriminate|].
  intros _. apply orb_false_iff in E as [E _]. apply orb_false_iff in E as [_ E].
  apply negb_false_iff in E.
  split; [apply normal_email|]. split; [exact E|apply strip_idem].
Qed.

Lemma given_nicknames_app l1 l2 :
  given_nicknames (l1 ++ l2) = given_nicknames l1 ++ given_nicknames l2.
Proof.
  unfold given_nicknames. rewrite List.filter_app, List.map_app. reflexivity.
Qed.

Lemma given_nicknames_cons a l :
  given_nicknames (a :: l)
  = (if is_empty (acc_nickname a) then [] else [lower (acc_nickname a)])
    ++ given_nicknames l.
Proof.
  unfold given_nicknames. simpl. destruct (is_empty (acc_nickname a)); reflexivity.
Qed.

Lemma given_nicknames_in n l :
  n ∈ given_nicknames l ->
  exists acc, acc ∈ l /\ is_empty (acc_nickname acc) = false /\
              n = lower (acc_nickname acc).
Proof.
  unfold given_nicknames. intros H.
  apply list_elem_of_In, in_map_iff in H as (acc & Hn & Hin).
  apply List.filter_In in Hin as [Hin He]. apply negb_true_iff in He.
  exists acc. split; [apply list_elem_of_In, Hin|]. auto.
Qed.

Lemma given_nicknames_sublist l1 l2 :
  sublist l1 l2 -> sublist (given_nicknames l1) (given_nicknames l2).
Proof.
  induction 1 as [|x l1 l2 H IH|x l1 l2 H IH].
  - constructor.
  - rewrite !given_nicknames_cons. apply sublist_app; [reflexivity|exact IH].
  - rewrite given_nicknames_cons. apply sublist_inserts_l. exact IH.
Qed.

Lemma accounts_ok_add f accounts :
  accounts_ok accounts -> accounts_ok (add_account f accounts).
Proof.
  intros (Hem & Hnick & Hall). unfold add_account.
  destruct (account_form_valid f) eqn:Hv; [|repeat split; assumption].
  pose proof (account_form_valid_details f Hv) as Hdet. simpl in Hdet.
  remember (get_account_details f) as d eqn:Hdd.
  destruct (negb (is_empty (acc_nickname d)) && existsb _ accounts) eqn:Hn;
    [repeat split; assumption|].
  destruct (existsb (fun acc => same_lower (acc_email acc) (acc_email d))
              accounts) eqn:He; [repeat split; assumption|].
  split; [|split].
  - rewrite List.map_app. simpl. apply NoDup_app. split; [exact Hem|].
    split; [|apply NoDup_singleton].
    intros x Hx Hx'. apply list_elem_of_singleton in Hx'. subst x.
    apply list_elem_of_In, in_map_iff in Hx as (a & Ha & Hin).
    assert (existsb (fun acc => same_lower (acc_email acc) (acc_email d))
                    accounts = true); [|congruence].
    apply existsb_exists. exists a. split; [exact Hin|].
    apply same_lower_eq. exact Ha.
  - rewrite given_nicknames_app, given_nicknames_cons.
    change (given_nicknames []) with (@nil string). rewrite app_nil_r.
    destruct (is_empty (acc_nickname d)) eqn:Hd.
    + rewrite app_nil_r. exact Hnick.
    + simpl in Hn. apply NoDup_app. split; [exact Hnick|].
      split; [|apply NoDup_singleton].
      intros x Hx Hx'. apply list_elem_of_singleton in Hx'. subst x.
      apply given_nicknames_in in Hx as (a & Hin & _ & Ha).
      assert (existsb (fun acc => same_lower (acc_nickname acc) (acc_nickname d))
                      accounts = true); [|congruence].
      apply existsb_exists. exists a. split; [apply list_elem_of_In, Hin|].
      apply same_lower_eq. symmetry. exact Ha.
  - apply Forall_app. split; [exact Hall|]. constructor; [|constructor].
    subst d. exact Hdet.
Qed.

Lemma accounts_ok_remove row confirm accounts :
  accounts_ok accounts -> accounts_ok (remove_account row confirm accounts).
Proof.
  intros (Hem & Hnick & Hall). unfold remove_account.
  destruct (accounts !! row) as [r|]; [|repeat split; assumption].
  destruct confirm; [|repeat split; assumption].
  split; [apply filter_sublist_map, Hem|].
  split; [|apply filter_Forall, Hall].
  eapply sublist_NoDup; [exact Hnick|].
  apply given_nicknames_sublist, filter_sublist.
Qed.

Lemma replace_first_match_split {A} (p : A -> bool) new l x :
  In x l -> p x = true ->
  exists l1 y l2,
    l = l1 ++ y :: l2 /\ p y = true /\
    replace_first_match p new l = l1 ++ new :: l2.
Proof.
  induction l as [|z l IH]; intros Hin Hp; [destruct Hin|].
  simpl. destruct (p z) eqn:Ez.
  - exists [], z, l. auto.
  - destruct Hin as [->|Hin]; [congruence|].
    destruct (IH Hin Hp) as (l1 & y & l2 & E & Hy & Hr).
    exists (z :: l1), y, l2. rewrite E at 1. rewrite Hr. auto.
Qed.

Lemma accounts_ok_edit row f accounts :
  accounts_ok accounts -> accounts_ok (edit_account row f accounts).
Proof.
  intros (Hem & Hnick & Hall). unfold edit_account.
  destruct (accounts !! row) as [original|] eqn:Hrow; [|repeat split; assumption].
  destruct (account_form_valid (account_edit_form original f)) eqn:Hv;
    [|repeat split; assumption].
  pose proof (account_form_valid_details _ Hv) as Hdet. simpl in Hdet.
  destruct (proj1 (Forall_lookup _ _) Hall row original Hrow) as (Hnorm & _ & _).
  assert (Hemail : acc_email (get_account_details (account_edit_form original f))
                   = acc_email original) by exact Hnorm.
  remember (get_account_details (account_edit_form original f)) as upd eqn:Hupd.
  destruct (negb (is_empty (acc_nickname upd))
            && negb (same_lower (acc_nickname upd) (acc_nickname original))
            && existsb _ accounts) eqn:Hcond; [repeat split; assumption|].
  assert (Hin : In original accounts).
  { apply list_elem_of_In. eapply list_elem_of_lookup_2, Hrow. }
  split; [|split].
  - rewrite replace_first_match_map; [exact Hem|].
    intros x _ Hx. apply same_lower_eq in Hx. rewrite Hemail. exact Hx.
  - destruct (replace_first_match_split
                (fun acc => same_lower (acc_email acc) (acc_email original))
                upd accounts original Hin (same_lower_refl _))
      as (l1 & y & l2 & E & Hy & Hr).
    rewrite Hr. apply same_lower_eq in Hy.
    rewrite E in Hem, Hnick, Hin, Hcond.
    rewrite List.map_app in Hem. simpl in Hem.
    apply NoDup_app in Hem as (Hem1 & Hem12 & Hem2).
    apply NoDup_cons in Hem2 as [Hy2 Hem2].
    assert (Hyo : y = original).
    { apply in_app_or in Hin as [Hin|[Hin|Hin]]; [|exact Hin|].
      - exfalso. apply (Hem12 (lower (acc_email y))).
        + rewrite Hy. apply list_elem_of_In, in_map_iff. eauto.
        + left.
      - exfalso. apply Hy2. rewrite Hy.
        apply list_elem_of_In, in_map_iff. eauto. }
    subst y.
    assert (Hother : forall acc, acc ∈ l1 ++ l2 ->
              lower (acc_email acc) <> lower (acc_email original)).
    { intros acc Hacc Heq. apply elem_of_app in Hacc as [Hacc|Hacc].
      - apply (Hem12 (lower (acc_email original))); [|left].
        rewrite <- Heq. apply list_elem_of_In, in_map_iff.
        exists acc. split; [reflexivity|apply list_elem_of_In, Hacc].
      - apply Hy2. rewrite <- Heq. apply list_elem_of_In, in_map_iff.
        exists acc. split; [reflexivity|apply list_elem_of_In, Hacc]. }
    rewrite given_nicknames_app, given_nicknames_cons in Hnick |- *.
    apply NoDup_app in Hnick as (N1 & N12 & N2).
    apply NoDup_app in N2 as (No & No2 & N2).
    assert (N12' : forall x, x ∈ given_nicknames l1 -> x ∉ given_nicknames l2).
    { intros x Hx Hx'. apply (N12 x Hx). apply elem_of_app. right. exact Hx'. }
    destruct (is_empty (acc_nickname upd)) eqn:Hue.
    + simpl. apply NoDup_app. repeat split; assumption.
    + simpl in Hcond.
      destruct (same_lower (acc_nickname upd) (acc_nickname original)) eqn:Hsame.
      * apply same_lower_eq in Hsame.
        assert (Hoe : is_empty (acc_nickname original) = false).
        { rewrite <- is_empty_lower, <- Hsame, is_empty_lower. exact Hue. }
        rewrite Hoe in No, No2, N12. rewrite Hsame.
        apply NoDup_app. split; [exact N1|]. split; [exact N12|].
        apply NoDup_app. split; [exact No|]. split; [exact No2|exact N2].
      * simpl in Hcond.
        assert (Hfresh : forall acc, acc ∈ l1 ++ l2 ->
                  lower (acc_nickname acc) <> lower (acc_nickname upd)).
        { intros acc Hacc Heq.
          assert (existsb
                    (fun acc0 =>
                       same_lower (acc_nickname acc0) (acc_nickname upd)
                       && negb (same_lower (acc_email acc0) (acc_email original)))
                    (l1 ++ original :: l2) = true); [|congruence].
          apply existsb_exists. exists acc. split.
          - apply list_elem_of_In. apply elem_of_app in Hacc as [H|H];
              apply elem_of_app; [left|right; right]; exact H.
          - apply andb_true_intro. split; [apply same_lower_eq, Heq|].
            apply negb_true_iff. apply not_true_iff_false. intros Hs.
            apply same_lower_eq in Hs. exact (Hother acc Hacc Hs). }
        apply NoDup_app. split; [exact N1|]. split.
        { intros x Hx Hx'. apply elem_of_app in Hx' as [Hx'|Hx'].
          - apply list_elem_of_singleton in Hx'. subst x.
            apply given_nicknames_in in Hx as (acc & Hacc & _ & Hn).
            apply (Hfresh acc); [apply elem_of_app; left; exact Hacc|].
            symmetry. exact Hn.
          - exact (N12' x Hx Hx'). }
        apply NoDup_app. split; [apply NoDup_singleton|]. split; [|exact N2].
        intros x Hx Hx'. apply list_elem_of_singleton in Hx. subst x.
        apply given_nicknames_in in Hx' as (acc & Hacc & _ & Hn).
        apply (Hfresh acc); [apply elem_of_app; right; exact Hacc|].
        symmetry. exact Hn.
  - apply replace_first_match_Forall; [|exact Hall].
    subst upd. exact Hdet.
Qed.

Lemma accounts_ok_manage ops : forall accounts,
  accounts_ok accounts -> accounts_ok (manage_accounts ops accounts).
Proof.
  induction ops as [|o ops IH]; intros accounts H; [exact H|].
  apply IH. destruct o; simpl;
    [apply accounts_ok_add|apply accounts_ok_edit|apply accounts_ok_remove];
    exact H.
Qed.

(** X28. The dialog that manages the Apps Script accounts keeps its list
    in order, whatever the user adds, edits and removes: no two accounts
    have the same e-mail address and no two have the same nickname, both up
    to the case of the letters (an account may have no nickname); every
    address is kept in lower case, without surrounding white space, and
    holds an at sign. *)
Theorem managed_accounts_have_distinct_emails (ops : list account_op)
    (accounts : list Account) :
  accounts_ok accounts -> accounts_ok (manage_accounts ops accounts).
Proof. apply accounts_ok_manage. Qed.

Lemma managed_accounts_have_distinct_emails_witness :
  accounts_ok
    (manage_accounts
       [AddAccount (mkAccountForm "Main" " Me@Example.org "
                      "https://script.google.com/macros/s/abc/exec" "Me");
        AddAccount (mkAccountForm "main" "other@example.org"
                      "https://script.google.com/macros/s/def/exec" "");
        EditAccount 0 (mkAccountForm "First" "ignored"
                         "https://script.google.com/macros/s/abc/exec" "Me");
        RemoveAccount 0 false]
       []).
Proof.
  apply (managed_accounts_have_distinct_emails
           [AddAccount (mkAccountForm "Main" " Me@Example.org "
                          "https://script.google.com/macros/s/abc/exec" "Me");
            AddAccount (mkAccountForm "main" "other@example.org"
                          "https://script.google.com/macros/s/def/exec" "");
            EditAccount 0 (mkAccountForm "First" "ignored"
                             "https://script.google.com/macros/s/abc/exec" "Me");
            RemoveAccount 0 false]
           []).
  repeat split; constructor.
Defined.

End DialogFacts.


(** ** The automatic test e-mail *)

Section TestMailFacts.
Import Text Campaign.

Lemma dict_get_set_same k v : forall d, dict_get k (dict_set k v d) = Some v.
Proof.
  induction d as [|[k' v'] d IH]; simpl.
  - rewrite String.eqb_refl. reflexivity.
  - destruct (String.eqb k k') eqn:E; simpl; rewrite ?String.eqb_refl, ?E;
      [reflexivity|exact IH].
Qed.

Lemma dict_set_keys k v : forall d,
  NoDup (List.map fst d) -> NoDup (List.map fst (dict_set k v d)) /\
  forall x, x ∈ List.map fst (dict_set k v d) -> x = k \/ x ∈ List.map fst d.
Proof.
  induction d as [|[k' v'] d IH]; simpl; intros Hnd.
  - split; [repeat constructor; set_solver|]. set_solver.
  - apply NoDup_cons in Hnd as [Hk Hnd].
    destruct (String.eqb k k') eqn:E; simpl.
    + apply String.eqb_eq in E. subst k'. split.
      * apply NoDup_cons. auto.
      * set_solver.
    + destruct (IH Hnd) as [H1 H2]. split.
      * apply NoDup_cons. split; [|exact H1].
        intros Hin. apply H2 in Hin as [->|Hin]; [|auto].
        rewrite String.eqb_refl in E. discriminate.
      * intros x Hx. apply elem_of_cons in Hx as [->|Hx]; [set_solver|].
        apply H2 in Hx. set_solver.
Qed.

Lemma dict_get_none k : forall d, k ∉ List.map fst d -> dict_get k d = None.
Proof.
  induction d as [|[k' v'] d IH]; simpl; intros H; [reflexivity|].
  destruct (String.eqb k k') eqn:E.
  - apply String.eqb_eq in E. set_solver.
  - apply IH. set_solver.
Qed.

Lemma dict_pop_keys k : forall d,
  NoDup (List.map fst d) ->
  NoDup (List.map fst (dict_pop k d)) /\
  (k ∉ List.map fst (dict_pop k d)) /\
  forall x, x ∈ List.map fst (dict_pop k d) -> x ∈ List.map fst d.
Proof.
  induction d as [|[k' v'] d IH]; simpl; intros Hnd.
  - split; [constructor|]. set_solver.
  - apply NoDup_cons in Hnd as [Hk Hnd].
    destruct (String.eqb k k') eqn:E; simpl.
    + apply String.eqb_eq in E. subst k'. split; [exact Hnd|]. set_solver.
    + destruct (IH Hnd) as (H1 & H2 & H3). split; [|split].
      * apply NoDup_cons. split; [|exact H1]. intros Hin. apply Hk, H3, Hin.
      * intros Hin. apply elem_of_cons in Hin as [->|Hin]; [|auto].
        rewrite String.eqb_refl in E. discriminate.
      * intros x Hx. apply elem_of_cons in Hx as [->|Hx]; [set_solver|].
        apply H3 in Hx. set_solver.
Qed.

Lemma dict_get_pop_other k k' : forall d,
  k <> k' -> dict_get k (dict_pop k' d) = dict_get k d.
Proof.
  intros d Hne. induction d as [|[k0 v0] d IH]; simpl; [reflexivity|].
  destruct (String.eqb k' k0) eqn:E.
  - apply String.eqb_eq in E. subst k0.
    destruct (String.eqb k k') eqn:E'; [|reflexivity].
    apply String.eqb_eq in E'. congruence.
  - simpl. rewrite IH. reflexivity.
Qed.

(** X29. The automatic test e-mail goes to the test address only: its
    list of recipients is that address alone, its To header is that
    address, the headers Cc, cc, Bcc and bcc of the job it is built from
    are removed, and, its identifier beginning with TEST_, its completion
    never counts as the success of a campaign e-mail, so a test e-mail
    cannot trigger another one. *)
Theorem test_email_goes_to_test_address
    (uuid target_test_email_address : string) (base_job_config_for_test : Job) :
  NoDup (List.map fst (all_custom_headers base_job_config_for_test)) ->
  let t := test_job_payload uuid target_test_email_address
             base_job_config_for_test in
  recipients_to_list t = [target_test_email_address] /\
  dict_get "To" (all_custom_headers t) = Some target_test_email_address /\
  Forall (fun k => dict_get k (all_custom_headers t) = None)
         ["Cc"; "cc"; "Bcc"; "bcc"] /\
  forall r e, Worker.emits_success (t, r, e) = false.
Proof.
  intros Hnd t. subst t. unfold test_job_payload. simpl.
  set (h0 := dict_set "To" target_test_email_address
               (all_custom_headers base_job_config_for_test)).
  destruct (dict_set_keys "To" target_test_email_address _ Hnd) as [N0 _].
  fold h0 in N0.
  destruct (dict_pop_keys "Cc" h0 N0) as (N1 & P1 & S1).
  destruct (dict_pop_keys "cc" _ N1) as (N2 & P2 & S2).
  destruct (dict_pop_keys "Bcc" _ N2) as (N3 & P3 & S3).
  destruct (dict_pop_keys "bcc" _ N3) as (N4 & P4 & S4).
  split; [reflexivity|]. split; [|split].
  - rewrite !dict_get_pop_other by discriminate. apply dict_get_set_same.
  - repeat constructor; apply dict_get_none.
    + intros H. apply S4, S3, S2 in H. exact (P1 H).
    + intros H. apply S4, S3 in H. exact (P2 H).
    + intros H. apply S4 in H. exact (P3 H).
    + exact P4.
  - intros r e. destruct e as [e|]; [reflexivity|].
    destruct r as [r|]; [|reflexivity].
    change (success r
            && negb (starts_with "TEST_" ("TEST_" +:+ take_chars 10 uuid))
            = false).
    rewrite starts_with_app. apply andb_false_r.
Qed.

Lemma test_email_goes_to_test_address_witness :
  let t := test_job_payload "0123456789abcdef" "probe@example.org"
             (mkJob "1" ["ann@example.org"] "Hello" (Some "<p>Hi</p>")
                (Some "Hi") "Prepared"
                [("Cc", "boss@example.org"); ("X-Tag", "a");
                 ("bcc", "audit@example.org")]
                "genericsmtp" (Some "relay") None None) in
  recipients_to_list t = ["probe@example.org"] /\
  dict_get "To" (all_custom_headers t) = Some "probe@example.org" /\
  Forall (fun k => dict_get k (all_custom_headers t) = None)
         ["Cc"; "cc"; "Bcc"; "bcc"] /\
  forall r e, Worker.emits_success (t, r, e) = false.
Proof.
  apply (test_email_goes_to_test_address "0123456789abcdef" "probe@example.org"
           (mkJob "1" ["ann@example.org"] "Hello" (Some "<p>Hi</p>")
              (Some "Hi") "Prepared"
              [("Cc", "boss@example.org"); ("X-Tag", "a");
               ("bcc", "audit@example.org")]
              "genericsmtp" (Some "relay") None None)).
  simpl. repeat (apply NoDup_cons; split; [set_solver|]). apply NoDup_nil_2.
Defined.

End TestMailFacts.
